(** * The workflow scanner of fuzdi-workflow-scanner

    A shallow embedding of [src/lib/workflow-scanner.ts] and of the
    declarations of [src/lib/types.ts] it works on, followed by the
    properties of [scanWorkflow].

    The scanner is embedded twice.  Part I has its functions as functions
    on lists, a call either returning a value or throwing a [TypeError].
    Part II has the same code with its arrays as objects of a store, where
    [push] and [sort] change an array in place and every other array method
    allocates a new one; there the input graph is seen to be left as it
    was, and the code is proved to compute what the functions of part I
    say.

    Conventions:
    - a field declared [f?: T] is an [option T]; [None] is the absent field,
      which JavaScript reads as [undefined];
    - the elements of [widgets_values], declared [any], are JavaScript
      values as [JSON.parse] builds them ([value]);
    - a JavaScript number is modelled by an integer ([Z]): [0] is the
      falsy one, and the decimal notation is what [String] returns on the
      integers a workflow holds (those below [10^21] in magnitude);
    - a string is a [string], compared character by character by code,
      which is what [Array.prototype.sort] does without a comparator. *)

From Stdlib Require Import ZArith Ascii.
From stdpp Require Import base option list strings sorting pretty gmap.

#[local] Set Warnings "-register-all,-clear-no-such-hyp".

(** * Part I.  The scanner as functions *)

(** ** Outcomes of a call *)

Inductive outcome (A : Type) : Type :=
| Returns (a : A)
| Throws.
Arguments Returns {A} a.
Arguments Throws {A}.

#[global] Instance outcome_ret : MRet outcome := λ A a, Returns a.
#[global] Instance outcome_bind : MBind outcome := λ A B f m,
  match m with
  | Returns a => f a
  | Throws => Throws
  end.
#[global] Instance outcome_fmap : FMap outcome := λ A B f m,
  match m with
  | Returns a => Returns (f a)
  | Throws => Throws
  end.

(** ** JavaScript values *)

Inductive value : Type :=
| VUndefined
| VNull
| VBool (b : bool)
| VNum (n : Z)
| VStr (s : string)
| VArr (elems : list value)
| VObj (fields : list (string * value)).

(** [ToBoolean]: what [if (v)], [v && ...], [v || ...] and [!v] test. *)
Definition ToBoolean (v : value) : bool :=
  match v with
  | VUndefined | VNull => false
  | VBool b => b
  | VNum n => negb (n =? 0)%Z
  | VStr s => negb (String.eqb s "")
  | VArr _ | VObj _ => true
  end.

(** [v !== ''] *)
Definition not_empty_string (v : value) : bool :=
  match v with
  | VStr s => negb (String.eqb s "")
  | _ => true
  end.

(** An object read by [JSON.parse] has an own property [k]. *)
Definition has_own (k : string) (fields : list (string * value)) : bool :=
  existsb (λ kv, String.eqb kv.1 k) fields.

(** [String(v)].  An array is joined with commas, [undefined] and [null]
    elements giving the empty string.  A plain object gives
    ["[object Object]"] through [Object.prototype.toString], unless an own
    [toString] property, which in parsed JSON is never a function, shadows
    it: then no conversion is left and a [TypeError] is thrown. *)
Fixpoint ToString (v : value) : outcome string :=
  match v with
  | VUndefined => Returns "undefined"
  | VNull => Returns "null"
  | VBool true => Returns "true"
  | VBool false => Returns "false"
  | VNum n => Returns (pretty n)
  | VStr s => Returns s
  | VArr elems =>
      (fix join (l : list value) : outcome string :=
         match l with
         | [] => Returns ""
         | e :: rest =>
             s ← match e with
                 | VUndefined | VNull => Returns ""
                 | _ => ToString e
                 end;
             match rest with
             | [] => Returns s
             | _ :: _ => r ← join rest; Returns (s +:+ "," +:+ r)
             end
         end) elems
  | VObj fields =>
      if has_own "toString" fields then Throws else Returns "[object Object]"
  end.

(** ** [types.ts] *)

(** [CustomNode]; [scanWorkflow] leaves its optional field [available]
    absent. *)
Record CustomNode : Type := {
  node : string;
  version : string
}.

Record WorkflowModels : Type := {
  checkpoints : list string;
  vae : list string;
  loras : list string;
  upscale_models : list string;
  controlnet : list string;
  clip : list string;
  clip_vision : list string;
  text_encoders : list string;
  diffusion_models : list string;
  embedding : list string;
  style_models : list string;
  hypernetworks : list string;
  gligen : list string
}.

(** [ScanResult]; its field [models] is [result_models] here, the name
    [models] being taken by the one of [properties], and ['custom-nodes']
    is [custom_nodes]. *)
Record ScanResult : Type := {
  result_models : WorkflowModels;
  custom_nodes : list CustomNode
}.

Record Model : Type := {
  directory : option string;
  name : option string
}.

Record Properties : Type := {
  cnr_id : option string;
  ver : option string;
  models : option (list Model)
}.

Record WorkflowNode : Type := {
  type : option string;
  widgets_values : option (list value);
  properties : option Properties
}.

(** A value of the [nodes] field that is no array.  The declared type
    [WorkflowNode[]] has none; [JSON.parse] can build them. *)
Inductive non_array : Type :=
| NANull
| NABool (b : bool)
| NANum (n : Z)
| NAStr (s : string)
| NAObj (fields : list (string * value)).

Definition non_array_value (x : non_array) : value :=
  match x with
  | NANull => VNull
  | NABool b => VBool b
  | NANum n => VNum n
  | NAStr s => VStr s
  | NAObj fields => VObj fields
  end.

Inductive nodes_field : Type :=
| NodesAbsent
| NodesArray (ns : list WorkflowNode)
| NodesOther (x : non_array).

Record WorkflowJSON : Type := {
  nodes : nodes_field
}.

#[global] Instance CustomNode_eq_dec : EqDecision CustomNode.
Proof. solve_decision. Defined.

(** ** The built-in containers the scanner uses *)

(** [Set.prototype.add] on a set kept in insertion order. *)
Definition Set_add (s : list string) (x : string) : list string :=
  if decide (x ∈ s) then s else s ++ [x].

(** [Array.from(new Set(l))]: the elements of [l] in the order of their
    first occurrence. *)
Definition Array_from_Set (l : list string) : list string :=
  foldl Set_add [] l.

(** [Map.prototype.set] on a map kept in insertion order: an existing key
    keeps its place and takes the new value. *)
Fixpoint Map_set {V : Type} (m : list (string * V)) (k : string) (v : V)
  : list (string * V) :=
  match m with
  | [] => [(k, v)]
  | (k', v') :: m' =>
      if decide (k' = k) then (k', v) :: m' else (k', v') :: Map_set m' k v
  end.

(** [new Map(entries)] *)
Definition new_Map {V : Type} (entries : list (string * V)) : list (string * V) :=
  foldl (λ m kv, Map_set m kv.1 kv.2) [] entries.

(** [Array.from(m.values())] *)
Definition Map_values {V : Type} (m : list (string * V)) : list V := m.*2.

(** [Array.prototype.sort()] on strings: ascending by code units. *)
Definition sort (l : list string) : list string := merge_sort String.le l.

(** The callback of [map] applied to the elements in order, the first
    throw ending the call. *)
Fixpoint Array_map {A B : Type} (f : A → outcome B) (l : list A)
  : outcome (list B) :=
  match l with
  | [] => Returns []
  | a :: l' => b ← f a; bs ← Array_map f l'; Returns (b :: bs)
  end.

(** ** [workflow-scanner.ts] *)

(** What [workflow.nodes.filter(...)] starts from, after the guard
    [if (!workflow.nodes) return []]: [Returns None] when the guard
    returns, the array when there is one, and a throw when [nodes] is a
    truthy value without a [filter] method. *)
Definition guarded_nodes (workflow : WorkflowJSON)
  : outcome (option (list WorkflowNode)) :=
  match nodes workflow with
  | NodesAbsent => Returns None
  | NodesArray ns => Returns (Some ns)
  | NodesOther x =>
      if ToBoolean (non_array_value x) then Throws else Returns None
  end.

(** [node.type === nodeType] *)
Definition type_is (nodeType : string) (n : WorkflowNode) : bool :=
  bool_decide (type n = Some nodeType).

(** [node.widgets_values?.[widgetIndex]] *)
Definition widget_value (n : WorkflowNode) (widgetIndex : nat) : value :=
  match widgets_values n with
  | None => VUndefined
  | Some ws => default VUndefined (ws !! widgetIndex)
  end.

(** The callback of [map] in [extractModels]. *)
Definition model_of_widget (widgetIndex : nat) (n : WorkflowNode)
  : outcome (option string) :=
  let value := widget_value n widgetIndex in
  if ToBoolean value && not_empty_string value
  then Some <$> ToString value
  else Returns None.

(** [extractModels]; the last [filter] keeps the strings of the array of
    strings and [null]s. *)
Definition extractModels (workflow : WorkflowJSON) (nodeType : string)
    (widgetIndex : nat) : outcome (list string) :=
  ons ← guarded_nodes workflow;
  match ons with
  | None => Returns []
  | Some ns =>
      models ← Array_map (model_of_widget widgetIndex)
                 (filter (λ n, type_is nodeType n) ns);
      Returns (sort (Array_from_Set (omap id models)))
  end.

(** A string is truthy. *)
Definition truthy_string (o : option string) : bool :=
  match o with
  | Some s => negb (String.eqb s "")
  | None => false
  end.

(** The test of the inner [filter] of [extractModelsFromProperties]:
    [model.directory === directory && model.name]. *)
Definition in_directory (directory' : string) (m : Model) : bool :=
  bool_decide (directory m = Some directory') && truthy_string (name m).

(** What the callback of the inner [forEach] pushes:
    [if (model.name) models.push(model.name)]. *)
Definition pushed_name (m : Model) : option string :=
  if truthy_string (name m) then name m else None.

(** The names a node pushes onto [models] in
    [extractModelsFromProperties]. *)
Definition pushed_names (directory' : string) (n : WorkflowNode) : list string :=
  match properties n with
  | Some p =>
      match models p with
      | Some ms => omap pushed_name (filter (λ m, in_directory directory' m) ms)
      | None => []
      end
  | None => []
  end.

Definition extractModelsFromProperties (workflow : WorkflowJSON)
    (nodeType : string) (directory' : string) : outcome (list string) :=
  ons ← guarded_nodes workflow;
  match ons with
  | None => Returns []
  | Some ns =>
      let models :=
        mjoin (pushed_names directory' <$> filter (λ n, type_is nodeType n) ns) in
      Returns (sort (Array_from_Set models))
  end.

Definition mergeArrays (arrays : list (list string)) : list string :=
  let merged := filter (λ item, item ≠ "") (mjoin arrays) in
  sort (Array_from_Set merged).

(** The test of [filter] in [extractCustomNodes]. *)
Definition is_custom (n : WorkflowNode) : bool :=
  match properties n with
  | Some p => truthy_string (cnr_id p)
              && negb (bool_decide (cnr_id p = Some "comfy-core"))
  | None => false
  end.

(** The callback of [map] in [extractCustomNodes], on a node that passed
    the filter. *)
Definition custom_node_of (n : WorkflowNode) : CustomNode :=
  match properties n with
  | Some p =>
      {| node := default "" (cnr_id p);
         version := if truthy_string (ver p) then default "" (ver p)
                    else "latest" |}
  | None => {| node := ""; version := "latest" |}
  end.

Definition extractCustomNodes (workflow : WorkflowJSON)
  : outcome (list CustomNode) :=
  ons ← guarded_nodes workflow;
  match ons with
  | None => Returns []
  | Some ns =>
      let customNodes := custom_node_of <$> filter (λ n, is_custom n) ns in
      let uniqueNodes :=
        Map_values (new_Map ((λ item, (node item, item)) <$> customNodes)) in
      Returns uniqueNodes
  end.

Definition scanWorkflow (workflowData : WorkflowJSON) : outcome ScanResult :=
  customNodes ← extractCustomNodes workflowData;
  vaeFromWidgets ← extractModels workflowData "VAELoader" 0;
  vaeFromProps ← extractModelsFromProperties workflowData "VAELoader" "vae";
  let vae := mergeArrays [vaeFromWidgets; vaeFromProps] in
  checkpointSimple ← extractModels workflowData "CheckpointLoaderSimple" 0;
  checkpointLoader ← extractModels workflowData "CheckpointLoader" 0;
  loadCheckpoint ← extractModels workflowData "LoadCheckpoint" 0;
  let checkpoints :=
    mergeArrays [checkpointSimple; checkpointLoader; loadCheckpoint] in
  loraLoader ← extractModels workflowData "LoraLoader" 0;
  loraModelOnly ← extractModels workflowData "LoraLoaderModelOnly" 0;
  let loras := mergeArrays [loraLoader; loraModelOnly] in
  upscale_models ← extractModels workflowData "UpscaleModelLoader" 0;
  controlnet ← extractModels workflowData "ControlNetLoader" 0;
  clipLoader ← extractModels workflowData "CLIPLoader" 0;
  dualClipLoader ← extractModels workflowData "DualCLIPLoader" 0;
  let clip := mergeArrays [clipLoader; dualClipLoader] in
  clip_vision ← extractModels workflowData "CLIPVisionLoader" 0;
  text_encoders ←
    extractModelsFromProperties workflowData "DualCLIPLoader" "text_encoders";
  unetLoader ← extractModels workflowData "UnetLoader" 0;
  unetLoaderCaps ← extractModels workflowData "UNETLoader" 0;
  ggufLoader ← extractModels workflowData "GGUFLoader" 0;
  diffusionLoader ← extractModels workflowData "DiffusionModelLoader" 0;
  let diffusion_models :=
    mergeArrays [unetLoader; unetLoaderCaps; ggufLoader; diffusionLoader] in
  embedding ← extractModels workflowData "EmbeddingLoader" 0;
  style_models ← extractModels workflowData "StyleModelLoader" 0;
  hypernetworks ← extractModels workflowData "HypernetworkLoader" 0;
  gligen ← extractModels workflowData "GLIGENLoader" 0;
  let models :=
    {| checkpoints := checkpoints;
       vae := vae;
       loras := loras;
       upscale_models := upscale_models;
       controlnet := controlnet;
       clip := clip;
       clip_vision := clip_vision;
       text_encoders := text_encoders;
       diffusion_models := diffusion_models;
       embedding := embedding;
       style_models := style_models;
       hypernetworks := hypernetworks;
       gligen := gligen |} in
  Returns {| result_models := models; custom_nodes := customNodes |}.

(** ** The category table

    The thirteen keys of [WorkflowModels], as [getCategoriesWithModels]
    lists them, and for each the extraction calls [scanWorkflow] builds it
    from. *)

Inductive category : Type :=
| Checkpoints | Vae | Loras | UpscaleModels | ControlNet | Clip | ClipVision
| TextEncoders | DiffusionModels | Embedding | StyleModels | Hypernetworks
| Gligen.

(** [models[key]] *)
Definition get (c : category) (m : WorkflowModels) : list string :=
  match c with
  | Checkpoints => checkpoints m
  | Vae => vae m
  | Loras => loras m
  | UpscaleModels => upscale_models m
  | ControlNet => controlnet m
  | Clip => clip m
  | ClipVision => clip_vision m
  | TextEncoders => text_encoders m
  | DiffusionModels => diffusion_models m
  | Embedding => embedding m
  | StyleModels => style_models m
  | Hypernetworks => hypernetworks m
  | Gligen => gligen m
  end.

(** The node types read at widget index 0 for a category. *)
Definition positional_sources (c : category) : list string :=
  match c with
  | Checkpoints => ["CheckpointLoaderSimple"; "CheckpointLoader"; "LoadCheckpoint"]
  | Vae => ["VAELoader"]
  | Loras => ["LoraLoader"; "LoraLoaderModelOnly"]
  | UpscaleModels => ["UpscaleModelLoader"]
  | ControlNet => ["ControlNetLoader"]
  | Clip => ["CLIPLoader"; "DualCLIPLoader"]
  | ClipVision => ["CLIPVisionLoader"]
  | TextEncoders => []
  | DiffusionModels => ["UnetLoader"; "UNETLoader"; "GGUFLoader"; "DiffusionModelLoader"]
  | Embedding => ["EmbeddingLoader"]
  | StyleModels => ["StyleModelLoader"]
  | Hypernetworks => ["HypernetworkLoader"]
  | Gligen => ["GLIGENLoader"]
  end.

(** The node type and directory read from [properties.models]. *)
Definition property_sources (c : category) : list (string * string) :=
  match c with
  | Vae => [("VAELoader", "vae")]
  | TextEncoders => [("DualCLIPLoader", "text_encoders")]
  | _ => []
  end.

(** The category goes through [mergeArrays]. *)
Definition merged (c : category) : bool :=
  match c with
  | Checkpoints | Vae | Loras | Clip | DiffusionModels => true
  | _ => false
  end.

(** A scalar of JSON. *)
Definition scalar (v : value) : bool :=
  match v with
  | VNull | VBool _ | VNum _ | VStr _ => true
  | VUndefined | VArr _ | VObj _ => false
  end.

(** The manifest without any entry. *)
Definition empty_manifest : ScanResult :=
  {| result_models :=
       {| checkpoints := []; vae := []; loras := []; upscale_models := [];
          controlnet := []; clip := []; clip_vision := [];
          text_encoders := []; diffusion_models := []; embedding := [];
          style_models := []; hypernetworks := []; gligen := [] |};
     custom_nodes := [] |}.

(** The manifest with the categories [f] and the custom nodes [l]. *)
Definition manifest_of (f : category → list string) (l : list CustomNode)
  : ScanResult :=
  {| result_models :=
       {| checkpoints := f Checkpoints; vae := f Vae; loras := f Loras;
          upscale_models := f UpscaleModels; controlnet := f ControlNet;
          clip := f Clip; clip_vision := f ClipVision;
          text_encoders := f TextEncoders;
          diffusion_models := f DiffusionModels; embedding := f Embedding;
          style_models := f StyleModels; hypernetworks := f Hypernetworks;
          gligen := f Gligen |};
     custom_nodes := l |}.

(** ** What the manifest is said to hold *)

(** The positional value [s] comes from: a node of type [nodeType] whose
    value at [widgetIndex] is truthy and has [s] as its string. *)
Definition positional (ns : list WorkflowNode) (nodeType : string)
    (widgetIndex : nat) (s : string) : Prop :=
  ∃ n, n ∈ ns ∧ type n = Some nodeType
       ∧ ToBoolean (widget_value n widgetIndex) = true
       ∧ ToString (widget_value n widgetIndex) = Returns s.

(** The side-channel name [s] comes from: an entry of [properties.models]
    of a node of type [nodeType], with the directory [dir] and the
    non-empty name [s]. *)
Definition side_channel (ns : list WorkflowNode) (nodeType dir : string)
    (s : string) : Prop :=
  ∃ n p ms m, n ∈ ns ∧ type n = Some nodeType
       ∧ properties n = Some p ∧ models p = Some ms ∧ m ∈ ms
       ∧ directory m = Some dir ∧ name m = Some s ∧ s ≠ "".

(** What an array that went through a set and [sort] is. *)
Definition sorted_unique (l : list string) : Prop :=
  NoDup l ∧ StronglySorted String.le l.

(** The list [l] is built for the category [c] as the table says: from the
    results of the extraction calls, through [mergeArrays] where the
    category has it. *)
Definition built (w : WorkflowJSON) (c : category) (l : list string) : Prop :=
  ∃ ps qs,
    Forall2 (λ T a, extractModels w T 0 = Returns a) (positional_sources c) ps
    ∧ Forall2 (λ Td b, extractModelsFromProperties w Td.1 Td.2 = Returns b)
        (property_sources c) qs
    ∧ l = if merged c then mergeArrays (ps ++ qs) else mjoin (ps ++ qs).

(** [node.properties?.cnr_id] *)
Definition package_of (n : WorkflowNode) : option string :=
  properties n ≫= cnr_id.

(** [node.properties?.ver] *)
Definition declared_version (n : WorkflowNode) : option string :=
  properties n ≫= ver.

(** The entries [new Map] is given in [extractCustomNodes]. *)
Definition custom_entries (ns : list WorkflowNode) : list (string * CustomNode) :=
  (λ item, (node item, item)) <$> (custom_node_of <$> filter (λ n, is_custom n) ns).

(** ** Graphs used as instances *)

(** A node [{type: T, widgets_values: ws}]. *)
Definition loader (T : string) (ws : list value) : WorkflowNode :=
  {| type := Some T; widgets_values := Some ws; properties := None |}.

(** A node [{properties: {cnr_id: p, ver: v}}], [ver] absent for [None]. *)
Definition packaged (p : string) (v : option string) : WorkflowNode :=
  {| type := None; widgets_values := None;
     properties := Some {| cnr_id := Some p; ver := v; models := None |} |}.

(** A node [{type: T, properties: {models: ms}}]. *)
Definition with_models (T : string) (ms : list Model) : WorkflowNode :=
  {| type := Some T; widgets_values := None;
     properties := Some {| cnr_id := None; ver := None; models := Some ms |} |}.

Definition graph (ns : list WorkflowNode) : WorkflowJSON :=
  {| nodes := NodesArray ns |}.

(** A manifest with custom nodes only. *)
Definition only_custom_nodes (l : list CustomNode) : ScanResult :=
  {| result_models := result_models empty_manifest; custom_nodes := l |}.

(** Two nodes of the package ["pack-x"], with the versions ["1.0"] and
    ["2.0"] in this order, then a node of ["pack-y"] with an empty
    version. *)
Definition two_versions : list WorkflowNode :=
  [packaged "pack-x" (Some "1.0"); packaged "pack-x" (Some "2.0");
   packaged "pack-y" (Some "")].


(** Three LoRA nodes under the two type names, one file twice, and a node
    of the core package. *)
Definition lora_graph : list WorkflowNode :=
  [loader "LoraLoader" [VStr "b.safetensors"; VNum 1];
   loader "LoraLoaderModelOnly" [VStr "a.safetensors"];
   loader "LoraLoader" [VStr "b.safetensors"];
   packaged "comfy-core" (Some "0.3.1");
   packaged "pack-x" None].

Definition lora_manifest : ScanResult :=
  manifest_of
    (λ c, match c with
          | Loras => ["a.safetensors"; "b.safetensors"]
          | _ => []
          end)
    [{| node := "pack-x"; version := "latest" |}].

(** A graph with the number [0] and the boolean [false] as values at
    index 0 of two nodes of type [UpscaleModelLoader]. *)
Definition falsy_widgets : list WorkflowNode :=
  [loader "UpscaleModelLoader" [VNum 0];
   loader "UpscaleModelLoader" [VBool false]].

(** A graph with truthy and falsy scalars at index 0 of nodes of type
    [ControlNetLoader]. *)
Definition scalar_widgets : list WorkflowNode :=
  [loader "ControlNetLoader" [VNum 7];
   loader "ControlNetLoader" [VNum 0];
   loader "ControlNetLoader" [VBool true];
   loader "ControlNetLoader" [VStr ""];
   loader "ControlNetLoader" [VNull];
   loader "ControlNetLoader" [VStr "canny.pth"]].

Definition scalar_widgets_manifest : ScanResult :=
  manifest_of
    (λ c, match c with
          | ControlNet => ["7"; "canny.pth"; "true"]
          | _ => []
          end) [].

(** One [VAELoader] node with ["v1.safetensors"] at index 0 and another
    with ["v2.safetensors"] in [properties.models] under the directory
    ["vae"], next to an entry of another directory. *)
Definition vae_graph : list WorkflowNode :=
  [with_models "VAELoader"
     [{| directory := Some "vae"; name := Some "v2.safetensors" |};
      {| directory := Some "loras"; name := Some "other.safetensors" |}];
   loader "VAELoader" [VStr "v1.safetensors"]].

Definition vae_manifest : ScanResult :=
  manifest_of
    (λ c, match c with
          | Vae => ["v1.safetensors"; "v2.safetensors"]
          | _ => []
          end) [].

(** A node of the checkpoint type [T1] with ["a.safetensors"] and one of
    the type [T2] with ["b.safetensors"]. *)
Definition checkpoint_graph (T1 T2 : string) : list WorkflowNode :=
  [loader T2 [VStr "b.safetensors"]; loader T1 [VStr "a.safetensors"]].

Definition checkpoint_manifest : ScanResult :=
  manifest_of
    (λ c, match c with
          | Checkpoints => ["a.safetensors"; "b.safetensors"]
          | _ => []
          end) [].

(** A checkpoint, a VAE and a LoRA loader, and a node of a custom
    package. *)
Definition flux_graph : list WorkflowNode :=
  [loader "CheckpointLoaderSimple" [VStr "flux1-dev.safetensors"];
   loader "VAELoader" [VStr "ae.safetensors"];
   loader "LoraLoader" [VStr "flux-realism-lora.safetensors"; VNum 1];
   packaged "custom-controlnet-node" (Some "1.2.0")].

Definition flux_manifest : ScanResult :=
  manifest_of
    (λ c, match c with
          | Checkpoints => ["flux1-dev.safetensors"]
          | Vae => ["ae.safetensors"]
          | Loras => ["flux-realism-lora.safetensors"]
          | _ => []
          end)
    [{| node := "custom-controlnet-node"; version := "1.2.0" |}].

(** * Part II.  The scanner on a store of arrays *)

(** ** Objects and arrays *)

(** A location is the index of an array in the store. *)
Abbreviation loc := nat (only parsing).

(** The objects of [types.ts] with their arrays by reference. *)
Record PropertiesObject : Type := {
  o_cnr_id : option string;
  o_ver : option string;
  o_models : option loc
}.

Record NodeObject : Type := {
  o_type : option string;
  o_widgets_values : option loc;
  o_properties : option PropertiesObject
}.

Inductive nodes_ref : Type :=
| RefAbsent
| RefArray (l : loc)
| RefOther (x : non_array).

Record WorkflowObject : Type := {
  o_nodes : nodes_ref
}.

(** The arrays of the program, by the type of their elements. *)
Inductive array_obj : Type :=
| ANodes (l : list NodeObject)
| AValues (l : list value)
| AModels (l : list Model)
| AStrings (l : list string)
| ANullable (l : list (option string))
| ACustom (l : list CustomNode)
| AEntries (l : list (string * CustomNode))
| AArrays (l : list loc).

(** The store: the arrays in the order of their allocation. *)
Abbreviation store := (list array_obj) (only parsing).

(** The types of the elements an array of the program has: an array of
    the store is read at the type the code uses it at. *)
Class Elem (A : Type) : Type := {
  to_array : list A → array_obj;
  of_array : array_obj → option (list A);
  of_to_array : ∀ l, of_array (to_array l) = Some l
}.

#[global] Instance Elem_node : Elem NodeObject :=
  {| to_array := ANodes;
     of_array a := match a with ANodes l => Some l | _ => None end;
     of_to_array l := eq_refl |}.
#[global] Instance Elem_value : Elem value :=
  {| to_array := AValues;
     of_array a := match a with AValues l => Some l | _ => None end;
     of_to_array l := eq_refl |}.
#[global] Instance Elem_model : Elem Model :=
  {| to_array := AModels;
     of_array a := match a with AModels l => Some l | _ => None end;
     of_to_array l := eq_refl |}.
#[global] Instance Elem_string : Elem string :=
  {| to_array := AStrings;
     of_array a := match a with AStrings l => Some l | _ => None end;
     of_to_array l := eq_refl |}.
#[global] Instance Elem_nullable : Elem (option string) :=
  {| to_array := ANullable;
     of_array a := match a with ANullable l => Some l | _ => None end;
     of_to_array l := eq_refl |}.
#[global] Instance Elem_custom : Elem CustomNode :=
  {| to_array := ACustom;
     of_array a := match a with ACustom l => Some l | _ => None end;
     of_to_array l := eq_refl |}.
#[global] Instance Elem_entry : Elem (string * CustomNode) :=
  {| to_array := AEntries;
     of_array a := match a with AEntries l => Some l | _ => None end;
     of_to_array l := eq_refl |}.
#[global] Instance Elem_array : Elem loc :=
  {| to_array := AArrays;
     of_array a := match a with AArrays l => Some l | _ => None end;
     of_to_array l := eq_refl |}.

(** ** Computations on the store *)

(** A computation on the store: an outcome and the store it leaves. *)
Definition M (A : Type) : Type := store → outcome A * store.

#[global] Instance M_ret : MRet M := λ A a σ, (Returns a, σ).
#[global] Instance M_bind : MBind M := λ A B f m σ,
  match m σ with
  | (Returns a, σ') => f a σ'
  | (Throws, σ') => (Throws, σ')
  end.

(** A call that leaves the store as it is. *)
Definition lift {A : Type} (o : outcome A) : M A := λ σ, (o, σ).

(** A new array: it is added to the store, and its location returned. *)
Definition alloc {A : Type} `{Elem A} (l : list A) : M loc :=
  λ σ, (Returns (length σ), σ ++ [to_array l]).

(** The elements of the array at [ℓ]. *)
Definition read {A : Type} `{Elem A} (ℓ : loc) : M (list A) :=
  λ σ, match σ !! ℓ ≫= of_array with
       | Some l => (Returns l, σ)
       | None => (Throws, σ)
       end.

(** The array at [ℓ] takes the elements [l], in place. *)
Definition write {A : Type} `{Elem A} (ℓ : loc) (l : list A) : M unit :=
  λ σ, (Returns (), <[ℓ := to_array l]> σ).

(** The callback applied to the elements in order. *)
Fixpoint each {A B : Type} (f : A → M B) (l : list A) : M (list B) :=
  match l with
  | [] => mret []
  | a :: l' => b ← f a; bs ← each f l'; mret (b :: bs)
  end.

(** ** The array methods the scanner calls *)

(** [a.filter(P)] returns a new array. *)
Definition Array_filter {A : Type} `{Elem A} (ℓ : loc) (P : A → bool) : M loc :=
  l ← read ℓ; alloc (filter (λ a, P a) l).

(** [a.map(f)] returns a new array. *)
Definition Array_mapS {A B : Type} `{Elem A} `{Elem B} (ℓ : loc) (f : A → M B)
  : M loc :=
  l ← read ℓ; bs ← each f l; alloc bs.

(** [a.forEach(f)] *)
Definition Array_forEach {A : Type} `{Elem A} (ℓ : loc) (f : A → M unit)
  : M unit :=
  l ← read ℓ; _ ← each f l; mret ().

(** [a.push(x)] adds [x] to [a] in place. *)
Definition Array_push (ℓ : loc) (x : string) : M unit :=
  l ← read ℓ; write ℓ (l ++ [x]).

(** [a.sort()] sorts [a] in place and returns it. *)
Definition Array_sort (ℓ : loc) : M loc :=
  l ← read ℓ; _ ← write ℓ (sort l); mret ℓ.

(** [Array.from(new Set(a))] returns a new array. *)
Definition Array_from_new_Set (ℓ : loc) : M loc :=
  l ← read ℓ; alloc (Array_from_Set l).

(** [a.flat()] on an array of arrays returns a new array. *)
Definition Array_flat (ℓ : loc) : M loc :=
  ls ← read ℓ; parts ← each (read (A:=string)) ls; alloc (mjoin parts).

(** ** [workflow-scanner.ts], on the store *)

(** [workflow.nodes] after the guard [if (!workflow.nodes) return []]. *)
Definition guarded_nodesS (workflow : WorkflowObject) : M (option loc) :=
  match o_nodes workflow with
  | RefAbsent => mret None
  | RefArray ℓ => mret (Some ℓ)
  | RefOther x =>
      if ToBoolean (non_array_value x) then lift Throws else mret None
  end.

(** [node.type === nodeType] *)
Definition o_type_is (nodeType : string) (n : NodeObject) : bool :=
  bool_decide (o_type n = Some nodeType).

(** [node.widgets_values?.[widgetIndex]] *)
Definition widget_valueS (n : NodeObject) (widgetIndex : nat) : M value :=
  match o_widgets_values n with
  | None => mret VUndefined
  | Some ℓ => ws ← read ℓ; mret (default VUndefined (ws !! widgetIndex))
  end.

(** The callback of [map] in [extractModels]. *)
Definition model_of_widgetS (widgetIndex : nat) (n : NodeObject)
  : M (option string) :=
  value ← widget_valueS n widgetIndex;
  if ToBoolean value && not_empty_string value
  then lift (Some <$> ToString value)
  else mret None.

(** [extractModels]: two [filter]s and a [map] each give a new array, and
    so does [Array.from], whose array [sort] then sorts in place. *)
Definition extractModelsS (workflow : WorkflowObject) (nodeType : string)
    (widgetIndex : nat) : M loc :=
  ons ← guarded_nodesS workflow;
  match ons with
  | None => alloc (A:=string) []
  | Some ℓ =>
      ℓ1 ← Array_filter ℓ (o_type_is nodeType);
      ℓ2 ← Array_mapS ℓ1 (model_of_widgetS widgetIndex);
      nullable ← read (A:=option string) ℓ2;
      models ← alloc (omap id nullable);
      ℓ3 ← Array_from_new_Set models;
      Array_sort ℓ3
  end.

(** The callback of the inner [forEach]. *)
Definition push_name (models : loc) (m : Model) : M unit :=
  if truthy_string (name m)
  then Array_push models (default "" (name m))
  else mret ().

(** The callback of the outer [forEach]. *)
Definition push_names (models : loc) (directory' : string) (n : NodeObject)
  : M unit :=
  match o_properties n ≫= o_models with
  | Some ℓ =>
      ℓ' ← Array_filter ℓ (in_directory directory');
      Array_forEach ℓ' (push_name models)
  | None => mret ()
  end.

(** [extractModelsFromProperties]: the names are pushed onto the array
    [models], which the function creates. *)
Definition extractModelsFromPropertiesS (workflow : WorkflowObject)
    (nodeType : string) (directory' : string) : M loc :=
  ons ← guarded_nodesS workflow;
  match ons with
  | None => alloc (A:=string) []
  | Some ℓ =>
      models ← alloc (A:=string) [];
      ℓ1 ← Array_filter ℓ (o_type_is nodeType);
      _ ← Array_forEach ℓ1 (push_names models directory');
      ℓ3 ← Array_from_new_Set models;
      Array_sort ℓ3
  end.

(** [mergeArrays]: the rest parameter [arrays] is a new array of the
    arrays given. *)
Definition mergeArraysS (arrays : list loc) : M loc :=
  ℓ ← alloc arrays;
  ℓ1 ← Array_flat ℓ;
  merged ← Array_filter ℓ1 (λ item, bool_decide (item ≠ ""));
  ℓ2 ← Array_from_new_Set merged;
  Array_sort ℓ2.

(** The test of [filter] and the callback of [map] in
    [extractCustomNodes]. *)
Definition o_is_custom (n : NodeObject) : bool :=
  match o_properties n with
  | Some p => truthy_string (o_cnr_id p)
              && negb (bool_decide (o_cnr_id p = Some "comfy-core"))
  | None => false
  end.

Definition o_custom_node_of (n : NodeObject) : CustomNode :=
  match o_properties n with
  | Some p =>
      {| node := default "" (o_cnr_id p);
         version := if truthy_string (o_ver p) then default "" (o_ver p)
                    else "latest" |}
  | None => {| node := ""; version := "latest" |}
  end.

Definition extractCustomNodesS (workflow : WorkflowObject) : M loc :=
  ons ← guarded_nodesS workflow;
  match ons with
  | None => alloc (A:=CustomNode) []
  | Some ℓ =>
      ℓ1 ← Array_filter ℓ o_is_custom;
      customNodes ← Array_mapS ℓ1 (λ n, mret (o_custom_node_of n));
      ℓ2 ← Array_mapS customNodes (λ item, mret (node item, item));
      entries ← read ℓ2;
      alloc (Map_values (new_Map entries))
  end.

(** The object [scanWorkflow] returns, its arrays by reference. *)
Record ScanResultObject : Type := {
  r_models : category → loc;
  r_custom_nodes : loc
}.

Definition scanWorkflowS (workflowData : WorkflowObject) : M ScanResultObject :=
  customNodes ← extractCustomNodesS workflowData;
  vaeFromWidgets ← extractModelsS workflowData "VAELoader" 0;
  vaeFromProps ← extractModelsFromPropertiesS workflowData "VAELoader" "vae";
  vae ← mergeArraysS [vaeFromWidgets; vaeFromProps];
  checkpointSimple ← extractModelsS workflowData "CheckpointLoaderSimple" 0;
  checkpointLoader ← extractModelsS workflowData "CheckpointLoader" 0;
  loadCheckpoint ← extractModelsS workflowData "LoadCheckpoint" 0;
  checkpoints ←
    mergeArraysS [checkpointSimple; checkpointLoader; loadCheckpoint];
  loraLoader ← extractModelsS workflowData "LoraLoader" 0;
  loraModelOnly ← extractModelsS workflowData "LoraLoaderModelOnly" 0;
  loras ← mergeArraysS [loraLoader; loraModelOnly];
  upscale_models ← extractModelsS workflowData "UpscaleModelLoader" 0;
  controlnet ← extractModelsS workflowData "ControlNetLoader" 0;
  clipLoader ← extractModelsS workflowData "CLIPLoader" 0;
  dualClipLoader ← extractModelsS workflowData "DualCLIPLoader" 0;
  clip ← mergeArraysS [clipLoader; dualClipLoader];
  clip_vision ← extractModelsS workflowData "CLIPVisionLoader" 0;
  text_encoders ←
    extractModelsFromPropertiesS workflowData "DualCLIPLoader" "text_encoders";
  unetLoader ← extractModelsS workflowData "UnetLoader" 0;
  unetLoaderCaps ← extractModelsS workflowData "UNETLoader" 0;
  ggufLoader ← extractModelsS workflowData "GGUFLoader" 0;
  diffusionLoader ← extractModelsS workflowData "DiffusionModelLoader" 0;
  diffusion_models ←
    mergeArraysS [unetLoader; unetLoaderCaps; ggufLoader; diffusionLoader];
  embedding ← extractModelsS workflowData "EmbeddingLoader" 0;
  style_models ← extractModelsS workflowData "StyleModelLoader" 0;
  hypernetworks ← extractModelsS workflowData "HypernetworkLoader" 0;
  gligen ← extractModelsS workflowData "GLIGENLoader" 0;
  mret {| r_models := λ c,
            match c with
            | Checkpoints => checkpoints
            | Vae => vae
            | Loras => loras
            | UpscaleModels => upscale_models
            | ControlNet => controlnet
            | Clip => clip
            | ClipVision => clip_vision
            | TextEncoders => text_encoders
            | DiffusionModels => diffusion_models
            | Embedding => embedding
            | StyleModels => style_models
            | Hypernetworks => hypernetworks
            | Gligen => gligen
            end;
          r_custom_nodes := customNodes |}.

(** ** Reading a store back *)

(** The elements of the array at [ℓ], when there is one of their type. *)
Definition array_at {A : Type} `{Elem A} (σ : store) (ℓ : loc)
  : option (list A) :=
  σ !! ℓ ≫= of_array.

(** The node the store holds under [n]. *)
Definition node_at (σ : store) (n : NodeObject) : option WorkflowNode :=
  ws ← match o_widgets_values n with
       | None => Some None
       | Some ℓ => Some <$> array_at σ ℓ
       end;
  ps ← match o_properties n with
       | None => Some None
       | Some p =>
           ms ← match o_models p with
                | None => Some None
                | Some ℓ => Some <$> array_at σ ℓ
                end;
           Some (Some {| cnr_id := o_cnr_id p; ver := o_ver p; models := ms |})
       end;
  Some {| type := o_type n; widgets_values := ws; properties := ps |}.

(** The graph the store holds under [workflow]. *)
Definition graph_at (σ : store) (workflow : WorkflowObject)
  : option WorkflowJSON :=
  match o_nodes workflow with
  | RefAbsent => Some {| nodes := NodesAbsent |}
  | RefOther x => Some {| nodes := NodesOther x |}
  | RefArray ℓ =>
      ns ← array_at σ ℓ;
      ns' ← mapM (node_at σ) ns;
      Some {| nodes := NodesArray ns' |}
  end.

(** The manifest the store holds under [r]. *)
Definition manifest_at (σ : store) (r : ScanResultObject) : option ScanResult :=
  checkpoints ← array_at σ (r_models r Checkpoints);
  vae ← array_at σ (r_models r Vae);
  loras ← array_at σ (r_models r Loras);
  upscale_models ← array_at σ (r_models r UpscaleModels);
  controlnet ← array_at σ (r_models r ControlNet);
  clip ← array_at σ (r_models r Clip);
  clip_vision ← array_at σ (r_models r ClipVision);
  text_encoders ← array_at σ (r_models r TextEncoders);
  diffusion_models ← array_at σ (r_models r DiffusionModels);
  embedding ← array_at σ (r_models r Embedding);
  style_models ← array_at σ (r_models r StyleModels);
  hypernetworks ← array_at σ (r_models r Hypernetworks);
  gligen ← array_at σ (r_models r Gligen);
  customNodes ← array_at σ (r_custom_nodes r);
  Some {| result_models :=
            {| checkpoints := checkpoints; vae := vae; loras := loras;
               upscale_models := upscale_models; controlnet := controlnet;
               clip := clip; clip_vision := clip_vision;
               text_encoders := text_encoders;
               diffusion_models := diffusion_models; embedding := embedding;
               style_models := style_models; hypernetworks := hypernetworks;
               gligen := gligen |};
          custom_nodes := customNodes |}.

(** What a caller of [scanWorkflow] sees: the manifest read in the store
    the call leaves, or the throw. *)
Definition observed (σ : store) (workflow : WorkflowObject)
  : option (outcome ScanResult) :=
  match scanWorkflowS workflow σ with
  | (Returns r, σ') => Returns <$> manifest_at σ' r
  | (Throws, _) => Some Throws
  end.

(** ** Refinement *)

(** The node objects [nos] are the nodes [ns] in the store. *)
Definition nodes_at (σ : store) (nos : list NodeObject)
    (ns : list WorkflowNode) : Prop :=
  Forall2 (λ no n, node_at σ no = Some n) nos ns.

(** The locations [ℓs] hold the lists [ls]. *)
Definition arrays_at (σ : store) (ℓs : list loc) (ls : list (list string))
  : Prop :=
  Forall2 (λ ℓ l, array_at σ ℓ = Some l) ℓs ls.

(** The computation [m] refines the function value [o]: it throws when [o]
    does, it returns a result related by [R] to the one of [o] otherwise,
    and the store it leaves extends the one it started from. *)
Definition refines {A B : Type} (R : store → A → B → Prop) (m : M A)
    (σ : store) (o : outcome B) : Prop :=
  ∃ σ', σ `prefix_of` σ'
        ∧ match o with
          | Returns b => ∃ a, m σ = (Returns a, σ') ∧ R σ' a b
          | Throws => m σ = (Throws, σ')
          end.

(** The computation [m] does on the store what the function value [o]
    says: it refines [o], the array it returns holding the list of [o]. *)
Definition agrees {A : Type} `{Elem A} (m : M loc) (σ : store)
    (o : outcome (list A)) : Prop :=
  refines (λ σ' ℓ l, array_at σ' ℓ = Some l) m σ o.

(** ** A store used as instance *)

(** A store with the arrays of a graph of two [VAELoader] nodes. *)
Definition vae_store : store :=
  [to_array [VStr "v1.safetensors"];
   to_array [{| directory := Some "vae"; name := Some "v2.safetensors" |};
             {| directory := Some "loras"; name := Some "other.safetensors" |}];
   to_array
     [{| o_type := Some "VAELoader"; o_widgets_values := None;
         o_properties :=
           Some {| o_cnr_id := None; o_ver := None; o_models := Some 1 |} |};
      {| o_type := Some "VAELoader"; o_widgets_values := Some 0;
         o_properties := None |}]].

Definition vae_object : WorkflowObject := {| o_nodes := RefArray 2 |}.

(** * Part II'.  The code around the scanner *)

(** ** Counting the models ([workflow-scanner.ts]) *)

(** The keys of [WorkflowModels], in the order of the object literal of
    [scanWorkflow]. *)
Definition all_categories : list category :=
  [Checkpoints; Vae; Loras; UpscaleModels; ControlNet; Clip; ClipVision;
   TextEncoders; DiffusionModels; Embedding; StyleModels; Hypernetworks;
   Gligen].

(** The key of a category, as a string. *)
Definition key_name (c : category) : string :=
  match c with
  | Checkpoints => "checkpoints"
  | Vae => "vae"
  | Loras => "loras"
  | UpscaleModels => "upscale_models"
  | ControlNet => "controlnet"
  | Clip => "clip"
  | ClipVision => "clip_vision"
  | TextEncoders => "text_encoders"
  | DiffusionModels => "diffusion_models"
  | Embedding => "embedding"
  | StyleModels => "style_models"
  | Hypernetworks => "hypernetworks"
  | Gligen => "gligen"
  end.

(** [Object.values(models)] and [Object.entries(models)] *)
Definition Object_values (models : WorkflowModels) : list (list string) :=
  (λ c, get c models) <$> all_categories.

Definition Object_entries (models : WorkflowModels)
  : list (string * list string) :=
  (λ c, (key_name c, get c models)) <$> all_categories.

Definition getModelCount (models : list string) : nat := length models.

Definition getTotalModelCount (models : WorkflowModels) : nat :=
  length (mjoin (Object_values models)).

(** An element of the result of [getCategoriesWithModels]; its field
    [category] is [category_label] here. *)
Record CategoryCount : Type := {
  category_label : string;
  count : nat
}.

(** The table [categories] of [getCategoriesWithModels]: key and label. *)
Definition categories : list (category * string) :=
  [(Checkpoints, "Checkpoints"); (Vae, "VAE"); (Loras, "LoRAs");
   (UpscaleModels, "Upscale Models"); (ControlNet, "ControlNet");
   (Clip, "CLIP"); (ClipVision, "CLIP Vision");
   (TextEncoders, "Text Encoders"); (DiffusionModels, "Diffusion Models");
   (Embedding, "Embeddings"); (StyleModels, "Style Models");
   (Hypernetworks, "Hypernetworks"); (Gligen, "GLIGEN")].

Definition getCategoriesWithModels (models : WorkflowModels)
  : list CategoryCount :=
  filter (λ item, 0 < count item)
    ((λ kl, {| category_label := kl.2; count := length (get kl.1 models) |})
       <$> categories).

(** ** The results view ([ScanResults]) *)

(** [categoriesWithModels.reduce((sum, cat) => sum + cat.count, 0)] *)
Definition totalModels (categoriesWithModels : list CategoryCount) : nat :=
  foldl (λ sum cat, sum + count cat) 0 categoriesWithModels.

(** [categoryMap[label]]: the key of a label, [None] for [undefined]. *)
Definition categoryMap (label : string) : option category :=
  if decide (label = "Checkpoints") then Some Checkpoints
  else if decide (label = "VAE") then Some Vae
  else if decide (label = "LoRAs") then Some Loras
  else if decide (label = "Upscale Models") then Some UpscaleModels
  else if decide (label = "ControlNet") then Some ControlNet
  else if decide (label = "CLIP") then Some Clip
  else if decide (label = "CLIP Vision") then Some ClipVision
  else if decide (label = "Text Encoders") then Some TextEncoders
  else if decide (label = "Diffusion Models") then Some DiffusionModels
  else if decide (label = "Embeddings") then Some Embedding
  else if decide (label = "Style Models") then Some StyleModels
  else if decide (label = "Hypernetworks") then Some Hypernetworks
  else if decide (label = "GLIGEN") then Some Gligen
  else None.

(** [s.split(':')] *)
Fixpoint split_colon (s : string) : list string :=
  match s with
  | EmptyString => [""]
  | String a s' =>
      if decide (a = ":"%char) then "" :: split_colon s'
      else match split_colon s' with
           | part :: parts => String a part :: parts
           | [] => [String a ""]
           end
  end.

(** The template [`${category}:${model}`]. *)
Definition modelPath (categoryKey : string) (model : string) : string :=
  categoryKey +:+ ":" +:+ model.

(** The set [allModels] the first effect gives to [setRequiredModels]: a
    path for every model of every category. *)
Definition all_model_paths (models : WorkflowModels) : list string :=
  mjoin ((λ entry, modelPath entry.1 <$> entry.2) <$> Object_entries models).

Definition initialRequiredModels (models : WorkflowModels) : list string :=
  Array_from_Set (all_model_paths models).

(** [Set.prototype.delete] *)
Definition Set_delete (s : list string) (x : string) : list string :=
  filter (λ y, y ≠ x) s.

Definition toggleRequiredModel (prev : list string) (modelPath' : string)
  : list string :=
  if decide (modelPath' ∈ prev) then Set_delete prev modelPath'
  else Set_add prev modelPath'.

(** [Array.from(requiredModels).map(path => path.split(':')[1])], [None]
    for [undefined]. *)
Definition modelNames (requiredModels : list string) : list (option string) :=
  (λ path, split_colon path !! 1) <$> requiredModels.

(** [AvailabilityStatus.models]: category, then model, to boolean.  A key
    that an object does not have reads as [undefined]. *)
Abbreviation availability_models := (gmap string (gmap string bool))
  (only parsing).

(** The key [obj[x]] reads for [x]: the string ["undefined"] when [x] is
    [undefined]. *)
Definition property_key (x : option string) : string := default "undefined" x.

(** The test [availability.models[category]?.[model] === false]. *)
Definition known_missing (models : availability_models)
    (category' model : option string) : bool :=
  bool_decide (models !! property_key category' ≫= (.!! property_key model)
               = Some false).

(** [getMissingRequiredModels]; [availability] is [None] while it is
    [null]. *)
Definition getMissingRequiredModels (availability : option availability_models)
    (requiredModels : list string) : list (option string) :=
  match availability with
  | None => []
  | Some models =>
      omap (λ path,
              let parts := split_colon path in
              if known_missing models (parts !! 0) (parts !! 1)
              then Some (parts !! 1) else None)
           requiredModels
  end.

Definition canUpload (availability : option availability_models)
    (requiredModels : list string) : bool :=
  bool_decide (length (getMissingRequiredModels availability requiredModels) = 0).

(** The name has no colon. *)
Fixpoint colon_free (s : string) : bool :=
  match s with
  | EmptyString => true
  | String a s' => negb (bool_decide (a = ":"%char)) && colon_free s'
  end.

(** The part of a name before its first colon. *)
Definition before_colon (s : string) : string :=
  default "" (head (split_colon s)).


Definition vae_missing : gmap string (gmap string bool) :=
  {[ "vae" := {[ "ae.safetensors" := false ]};
     "loras" := {[ "b.safetensors" := true ]} ]}.

(** ** The page ([page.tsx]) *)

Inductive status_type : Type := status_success | status_error.

Record UploadStatus : Type := {
  status : status_type;
  message : string
}.

(** The state of [Home]; [None] is [null]. *)
Record Home : Type := {
  scanResult : option ScanResult;
  workflowData : option WorkflowJSON;
  workflowFileName : string;
  isUploading : bool;
  uploadStatus : option UploadStatus;
  showDownloadLogs : bool;
  uploadedWorkflowName : string
}.

(** The state [Home] starts in. *)
Definition Home_initial : Home :=
  {| scanResult := None; workflowData := None; workflowFileName := "";
     isUploading := false; uploadStatus := None; showDownloadLogs := false;
     uploadedWorkflowName := "" |}.

(** [handleFileProcessed]: the scan comes first, so that a throw of
    [scanWorkflow] leaves the state as it is. *)
Definition handleFileProcessed (data : WorkflowJSON) (fileName : string)
    (st : Home) : outcome () * Home :=
  match scanWorkflow data with
  | Throws => (Throws, st)
  | Returns result =>
      (Returns (),
       {| scanResult := Some result;
          workflowData := Some data;
          workflowFileName := fileName;
          isUploading := isUploading st;
          uploadStatus := None;
          showDownloadLogs := showDownloadLogs st;
          uploadedWorkflowName := uploadedWorkflowName st |})
  end.

Definition handleReset (st : Home) : Home :=
  {| scanResult := None;
     workflowData := None;
     workflowFileName := "";
     isUploading := isUploading st;
     uploadStatus := None;
     showDownloadLogs := false;
     uploadedWorkflowName := "" |}.

Definition handleDownloadComplete (success' : bool) (st : Home) : Home :=
  {| scanResult := scanResult st;
     workflowData := workflowData st;
     workflowFileName := workflowFileName st;
     isUploading := isUploading st;
     uploadStatus :=
       Some (if success'
             then {| status := status_success;
                     message := "Resources downloaded and uploaded to Scaleway successfully!" |}
             else {| status := status_error;
                     message := "Resource download process encountered errors. Check logs above." |});
     showDownloadLogs := showDownloadLogs st;
     uploadedWorkflowName := uploadedWorkflowName st |}.

(** The guard of [handleUpload],
    [if (!scanResult || !workflowData || !workflowFileName) return]:
    [true] when the handler goes on to post. *)
Definition handleUpload_posts (st : Home) : bool :=
  negb (negb (bool_decide (is_Some (scanResult st)))
        || negb (bool_decide (is_Some (workflowData st)))
        || negb (ToBoolean (VStr (workflowFileName st)))).

(** ** The drop zone ([FileDropzone.tsx]) *)

(** [s.endsWith(searchString)] *)
Definition endsWith (s searchString : string) : bool :=
  let len := String.length s in
  let searchLength := String.length searchString in
  if decide (len < searchLength) then false
  else bool_decide (String.substring (len - searchLength) searchLength s
                    = searchString).

(** What [JSON.parse(content)] returns, as far as [handleFile] looks:
    [null], no property of which can be read; a number, a string, a
    boolean or an array, which have no [nodes]; an object, which the
    handler passes on as a [WorkflowJSON].  The handler does not check
    the object any further: [PObject] holds the objects that follow the
    types of [types.ts], as [parsed_of] reads them, and no other. *)
Inductive parsed : Type :=
| PNull
| PNoNodes
| PObject (data : WorkflowJSON).

(** ** Reading a JSON value at the types of [types.ts] *)

(** The own property [k] of an object read by [JSON.parse]. *)
Definition property (fields : list (string * value)) (k : string)
  : option value :=
  (λ found, found.2.2) <$> list_find (λ kv, kv.1 = k) fields.

(** A field declared [k?: string]: absent or a string.  [None] for every
    other value, which the type does not have. *)
Definition optional_string (fields : list (string * value)) (k : string)
  : option (option string) :=
  match property fields k with
  | None => Some None
  | Some (VStr s) => Some (Some s)
  | Some _ => None
  end.

(** An element of [properties.models]: [{ directory?: string, name?: string }]. *)
Definition read_Model (v : value) : option Model :=
  match v with
  | VObj fields =>
      directory' ← optional_string fields "directory";
      name' ← optional_string fields "name";
      Some {| directory := directory'; name := name' |}
  | _ => None
  end.

(** [properties?: { cnr_id?: string, ver?: string, models?: Array<...> }] *)
Definition read_Properties (v : value) : option Properties :=
  match v with
  | VObj fields =>
      cnr_id' ← optional_string fields "cnr_id";
      ver' ← optional_string fields "ver";
      models' ← match property fields "models" with
                | None => Some None
                | Some (VArr ms) => Some <$> mapM read_Model ms
                | Some _ => None
                end;
      Some {| cnr_id := cnr_id'; ver := ver'; models := models' |}
  | _ => None
  end.

(** [WorkflowNode]: [{ type?: string, widgets_values?: any[],
    properties?: {...} }] *)
Definition read_WorkflowNode (v : value) : option WorkflowNode :=
  match v with
  | VObj fields =>
      type' ← optional_string fields "type";
      widgets_values' ← match property fields "widgets_values" with
                        | None => Some None
                        | Some (VArr ws) => Some (Some ws)
                        | Some _ => None
                        end;
      properties' ← match property fields "properties" with
                    | None => Some None
                    | Some ps => Some <$> read_Properties ps
                    end;
      Some {| type := type'; widgets_values := widgets_values';
              properties := properties' |}
  | _ => None
  end.

(** [WorkflowJSON], with the values of [nodes] that are no array as
    [scanWorkflow] meets them. *)
Definition read_WorkflowJSON (v : value) : option WorkflowJSON :=
  match v with
  | VObj fields =>
      match property fields "nodes" with
      | None => Some {| nodes := NodesAbsent |}
      | Some (VArr ns) =>
          (λ ns', {| nodes := NodesArray ns' |}) <$> mapM read_WorkflowNode ns
      | Some VNull => Some {| nodes := NodesOther NANull |}
      | Some (VBool b) => Some {| nodes := NodesOther (NABool b) |}
      | Some (VNum n) => Some {| nodes := NodesOther (NANum n) |}
      | Some (VStr s) => Some {| nodes := NodesOther (NAStr s) |}
      | Some (VObj fields') => Some {| nodes := NodesOther (NAObj fields') |}
      | Some VUndefined => None
      end
  | _ => None
  end.

(** The value [JSON.parse] returned, as [handleFile] looks at it.  [None]
    for an object that does not follow the types: a node that is [null]
    or no object, a [properties.models] that is no array, an element of
    it that is [null], a field of another type than the declared one. *)
Definition parsed_of (content : value) : option parsed :=
  match content with
  | VUndefined => None
  | VNull => Some PNull
  | VObj _ => PObject <$> read_WorkflowJSON content
  | _ => Some PNoNodes
  end.

(** How the [FileReader] ends: [onload], with what [JSON.parse] does on
    the content, or [onerror]. *)
Inductive reader_event : Type :=
| reader_onload (content : outcome parsed)
| reader_onerror.

(** [!data.nodes] and [Array.isArray(data.nodes)] *)
Definition nodes_truthy (f : nodes_field) : bool :=
  match f with
  | NodesAbsent => false
  | NodesArray _ => true
  | NodesOther x => ToBoolean (non_array_value x)
  end.

Definition Array_isArray (f : nodes_field) : bool :=
  match f with
  | NodesArray _ => true
  | _ => false
  end.

(** The body of [try] in [reader.onload]: the error it sets, or a throw;
    and the state of the parent, which [onFileProcessed] works on. *)
Definition onload_try {S : Type}
    (onFileProcessed : WorkflowJSON → string → S → outcome () * S)
    (file_name : string) (content : outcome parsed) (parent : S)
  : outcome (option string) * S :=
  match content with
  | Throws => (Throws, parent)
  | Returns PNull => (Throws, parent)
  | Returns PNoNodes =>
      (Returns (Some "Invalid ComfyUI workflow format: missing nodes array"),
       parent)
  | Returns (PObject data) =>
      if negb (nodes_truthy (nodes data)) || negb (Array_isArray (nodes data))
      then
        (Returns (Some "Invalid ComfyUI workflow format: missing nodes array"),
         parent)
      else
        let '(r, parent') := onFileProcessed data file_name parent in
        (r ≫= λ _, Returns None, parent')
  end.

(** [handleFile], with the event the reader ends in: the value of [error]
    afterwards and the state of the parent. *)
Definition handleFile {S : Type}
    (onFileProcessed : WorkflowJSON → string → S → outcome () * S)
    (file_name : string) (e : reader_event) (parent : S)
  : option string * S :=
  if negb (endsWith file_name ".json")
  then (Some "Please upload a JSON file", parent)
  else
    match e with
    | reader_onerror => (Some "Failed to read file", parent)
    | reader_onload content =>
        match onload_try onFileProcessed file_name content parent with
        | (Returns error', parent') => (error', parent')
        | (Throws, parent') =>
            (Some "Failed to parse JSON file. Please ensure it's a valid ComfyUI workflow.",
             parent')
        end
    end.

(** What happens on the page: a file is given to the drop zone, whose
    reader ends in some way; the page is reset; the download ends. *)
Inductive page_event : Type :=
| FileGiven (file_name : string) (e : reader_event)
| Reset
| DownloadComplete (success' : bool).

Definition page_step (st : Home) (ev : page_event) : Home :=
  match ev with
  | FileGiven file_name e => (handleFile handleFileProcessed file_name e st).2
  | Reset => handleReset st
  | DownloadComplete success' => handleDownloadComplete success' st
  end.



(** What the page holds is in step: a scan result is the one of the
    workflow held with it, which has an array of nodes and came from a
    file named [*.json]; without a scan result, nothing is held. *)
Definition in_step (st : Home) : Prop :=
  match scanResult st with
  | None => workflowData st = None ∧ workflowFileName st = ""
  | Some r =>
      ∃ ns, workflowData st = Some (graph ns)
            ∧ scanWorkflow (graph ns) = Returns r
            ∧ endsWith (workflowFileName st) ".json" = true
  end.

(** ** The upload route ([app/api/upload/route.ts]) *)

(** The commands the route sends to the object store, with the fields it
    gives them.  [Body] is the value whose JSON text is stored. *)
Inductive command : Type :=
| ListObjectsV2Command (Bucket Prefix : string) (MaxKeys : nat)
| PutObjectCommand (Bucket Key : string) (Body : value) (ContentType : string).

(** What [s3Client.send] resolves to, as far as the route looks. *)
Record output : Type := {
  Contents : option (list value)
}.

(** The route as a program over the object store: it ends, or it sends a
    command and goes on with what [await s3Client.send(...)] gives, a
    [Throws] being a rejection. *)
Inductive program (A : Type) : Type :=
| Ret (a : A)
| Send (c : command) (k : outcome output → program A).
Arguments Ret {A} a.
Arguments Send {A} c k.

(** A run against an object store that answers the [i]-th command with
    [responses i]: the commands sent, in order, and the result. *)
Fixpoint run {A : Type} (p : program A) (responses : nat → outcome output)
    (i : nat) : list command * A :=
  match p with
  | Ret a => ([], a)
  | Send c k =>
      let '(cs, a) := run (k (responses i)) responses (S i) in (c :: cs, a)
  end.

(** The replies of the route, by [NextResponse.json]: the status and, of
    the body, what does not come from a caught error. *)
Inductive reply : Type :=
| MissingFields
| FolderExists
| Uploaded (location : string) (files : list string)
| Failed.

Definition status_code (r : reply) : nat :=
  match r with
  | MissingFields => 400
  | FolderExists => 409
  | Uploaded _ _ => 200
  | Failed => 500
  end.

(** [body.k] for the names the route reads, none of which a string, a
    number, a boolean or an array has.  [null] has no properties to read.
    The keys of an object read by [JSON.parse] are distinct. *)
Definition field (body : value) (k : string) : outcome value :=
  match body with
  | VUndefined | VNull => Throws
  | VObj fields =>
      Returns (default VUndefined
                 ((λ found, found.2.2) <$> list_find (λ kv, kv.1 = k) fields))
  | _ => Returns VUndefined
  end.

(** The own enumerable properties [{...v}] copies, in order: those of an
    object, the elements of an array and the characters of a string under
    their indices, none for a number or a boolean. *)
Definition own_properties (v : value) : list (string * value) :=
  match v with
  | VObj fields => fields
  | VArr elems => imap (λ i e, (pretty i, e)) elems
  | VStr s =>
      imap (λ i c, (pretty i, VStr (String c ""))) (String.list_ascii_of_string s)
  | _ => []
  end.

(** [{ ...scanResult, required_models: requiredModels || [] }] *)
Definition updatedScanResult (scanResult' requiredModels : value) : value :=
  VObj (Map_set (own_properties scanResult') "required_models"
          (if ToBoolean requiredModels then requiredModels else VArr [])).

(** [listResponse.Contents && listResponse.Contents.length > 0], in the
    inner [try] whose [catch] only logs. *)
Definition folder_exists (listResponse : outcome output) : bool :=
  match listResponse with
  | Returns {| Contents := Some contents |} => bool_decide (0 < length contents)
  | _ => false
  end.

(** [const { outputName, scanResult, workflowData, workflowFileName,
    requiredModels } = body] *)
Definition destructure (body : value)
  : outcome (value * value * value * value * value) :=
  outputName ← field body "outputName";
  scanResult' ← field body "scanResult";
  workflowData' ← field body "workflowData";
  workflowFileName' ← field body "workflowFileName";
  requiredModels ← field body "requiredModels";
  Returns (outputName, scanResult', workflowData', workflowFileName',
           requiredModels).

(** The template [`workflows/${outputName}/`], with the string of
    [outputName]. *)
Definition folder (name' : string) : string := "workflows/" +:+ name' +:+ "/".

(** The test of the validation of [POST], negated: every one of the four
    fields is truthy. *)
Definition validated (o s w f : value) : bool :=
  ToBoolean o && ToBoolean s && ToBoolean w && ToBoolean f.

Section upload.

(** [process.env.SCALEWAY_BUCKET_NAME] *)
Context (SCALEWAY_BUCKET_NAME : option string).

Definition BUCKET_NAME : string :=
  if truthy_string SCALEWAY_BUCKET_NAME then default "" SCALEWAY_BUCKET_NAME
  else "konama-storage".

(** The body of the outer [try] of [POST], after [await request.json()]. *)
Definition POST_try (body : value) : program (outcome reply) :=
  match destructure body with
  | Throws => Ret Throws
  | Returns (outputName, scanResult', workflowData', workflowFileName',
             requiredModels) =>
      if negb (ToBoolean outputName) || negb (ToBoolean scanResult')
         || negb (ToBoolean workflowData') || negb (ToBoolean workflowFileName')
      then Ret (Returns MissingFields)
      else
        match ToString outputName with
        | Throws => Ret Throws
        | Returns name' =>
            Send (ListObjectsV2Command BUCKET_NAME (folder name') 1)
              (λ listResponse,
              if folder_exists listResponse then Ret (Returns FolderExists)
              else
                match ToString workflowFileName' with
                | Throws => Ret Throws
                | Returns file =>
                    let workflowKey := folder name' +:+ file in
                    Send (PutObjectCommand BUCKET_NAME workflowKey
                            workflowData' "application/json") (λ sent,
                      match sent with
                      | Throws => Ret Throws
                      | Returns _ =>
                          let scanResultKey :=
                            folder name' +:+ "wf-scan-result.json" in
                          Send (PutObjectCommand BUCKET_NAME scanResultKey
                                  (updatedScanResult scanResult'
                                     requiredModels)
                                  "application/json") (λ sent',
                            match sent' with
                            | Throws => Ret Throws
                            | Returns _ =>
                                Ret (Returns
                                  (Uploaded
                                     ("s3://" +:+ BUCKET_NAME +:+ "/"
                                      +:+ folder name')
                                     [workflowKey; scanResultKey]))
                            end)
                      end)
                end)
        end
  end.

(** The outer [catch]. *)
Fixpoint catch (p : program (outcome reply)) : program reply :=
  match p with
  | Ret (Returns r) => Ret r
  | Ret Throws => Ret Failed
  | Send c k => Send c (λ r, catch (k r))
  end.

(** [POST]; [request_json] is what [await request.json()] gives. *)
Definition POST (request_json : outcome value) : program reply :=
  match request_json with
  | Throws => Ret Failed
  | Returns body => catch (POST_try body)
  end.

End upload.

(** A request as the page posts it, and an object store that answers to
    everything with an empty, successful response. *)
Definition flux_request : value :=
  VObj [("outputName", VStr "flux");
        ("scanResult", VObj [("models", VObj []); ("custom-nodes", VArr [])]);
        ("workflowData", VObj [("nodes", VArr [])]);
        ("workflowFileName", VStr "flux.json");
        ("requiredModels", VArr [VStr "ae.safetensors"])].

Definition empty_store (i : nat) : outcome output :=
  Returns {| Contents := None |}.

(** A request whose file has the name of the scan result. *)
Definition collision_request : value :=
  VObj [("outputName", VStr "flux");
        ("scanResult", VObj [("models", VObj [])]);
        ("workflowData", VObj [("nodes", VArr [])]);
        ("workflowFileName", VStr "wf-scan-result.json")].

(** An object store that accepts the first two commands and rejects the
    third. *)
Definition third_rejected (i : nat) : outcome output :=
  if decide (i = 2) then Throws else Returns {| Contents := None |}.

(** ** The downloader route ([app/api/run-downloader/route.ts]) *)

(** [LogEntry]: what goes over the event stream, one JSON object per
    message.  [None] is an absent field, and for [exitCode] also [null]. *)
Record LogEntry : Type := {
  entry_type : option string;
  entry_message : option string;
  entry_exitCode : option Z
}.

(** The line feed that ends the messages of the route. *)
Definition LF : string := String "010" "".

(** [{ type, message }] and [{ type: 'done', exitCode: code }] *)
Definition message_entry (type' message' : string) : LogEntry :=
  {| entry_type := Some type'; entry_message := Some message';
     entry_exitCode := None |}.

Definition done_entry (code : option Z) : LogEntry :=
  {| entry_type := Some "done"; entry_message := None;
     entry_exitCode := code |}.

(** The stream of [GET] while the script runs: the flag [isClosed] of
    [start]; whether the controller still takes data, which it does until
    it is closed or the client cancels; the calls of [controller.close]
    that wait for their timeout; what has been enqueued. *)
Record Stream : Type := {
  isClosed : bool;
  readable : bool;
  timeouts : nat;
  enqueued : list LogEntry
}.

(** [safeEnqueue]: [controller.enqueue] throws on a controller that does
    not take data. *)
Definition safeEnqueue (data : LogEntry) (st : Stream) : Stream :=
  if isClosed st then st
  else if readable st
  then {| isClosed := false; readable := true; timeouts := timeouts st;
          enqueued := enqueued st ++ [data] |}
  else {| isClosed := true; readable := false; timeouts := timeouts st;
          enqueued := enqueued st |}.

(** [isClosed = true; setTimeout(() => controller.close(), 100)] *)
Definition close_later (st : Stream) : Stream :=
  {| isClosed := true; readable := readable st; timeouts := S (timeouts st);
     enqueued := enqueued st |}.

(** The template [`${code}`] for an exit code, [null] when the script was
    ended by a signal. *)
Definition code_string (code : option Z) : string :=
  match code with
  | Some n => pretty n
  | None => "null"
  end.

(** The message before [done]. *)
Definition final_entry (code : option Z) : LogEntry :=
  if decide (code = Some 0%Z)
  then message_entry "success"
         ("✅ Download process completed successfully!" +:+ LF)
  else message_entry "error"
         ("❌ Download process failed with exit code: " +:+ code_string code
          +:+ LF).

(** What happens to the stream after [spawn]: the listeners of the child
    process, in the order of the source; a timeout of [close_later]; the
    client going away. *)
Inductive stream_event : Type :=
| stdout_data (message' : string)
| stderr_data (message' : string)
| process_close (code : option Z)
| process_error (message' : string)
| timeout
| cancel.

Definition stream_step (st : Stream) (ev : stream_event) : Stream :=
  match ev with
  | stdout_data message' => safeEnqueue (message_entry "log" message') st
  | stderr_data message' => safeEnqueue (message_entry "error" message') st
  | process_close code =>
      if isClosed st then st
      else
        close_later
          (safeEnqueue (done_entry code)
             (safeEnqueue (final_entry code) st))
  | process_error message' =>
      if isClosed st then st
      else
        close_later
          (safeEnqueue
             (message_entry "error"
                ("Error spawning process: " +:+ message' +:+ LF))
             st)
  | timeout =>
      match timeouts st with
      | 0 => st
      | S n => {| isClosed := isClosed st; readable := false; timeouts := n;
                  enqueued := enqueued st |}
      end
  | cancel =>
      {| isClosed := isClosed st; readable := false; timeouts := timeouts st;
         enqueued := enqueued st |}
  end.

(** [start], up to [spawn]: the two initial messages. *)
Definition start (workflowName scriptPath : string) : Stream :=
  safeEnqueue
    (message_entry "log" ("📂 Script: " +:+ scriptPath +:+ LF))
    (safeEnqueue
       (message_entry "log"
          ("🚀 Starting download process for workflow: " +:+ workflowName
           +:+ LF))
       {| isClosed := false; readable := true; timeouts := 0;
          enqueued := [] |}).

(** The responses of [GET]: the status 400, or the event stream with what
    is enqueued on it. *)
Inductive downloader_response : Type :=
| MissingWorkflowName
| EventStream (entries : list LogEntry).

(** [GET]; [workflowName] is [searchParams.get('workflowName')], and
    [events] what happens once the script is spawned. *)
Definition GET (workflowName : option string) (scriptPath : string)
    (events : list stream_event) : downloader_response :=
  if negb (truthy_string workflowName) then MissingWorkflowName
  else
    EventStream
      (enqueued (foldl stream_step
                   (start (default "" workflowName) scriptPath) events)).

(** ** The log view ([DownloadLogs.tsx]) *)

(** The state of [DownloadLogs] with its two flags, [hasCompletedRef] and
    whether [eventSourceRef] holds the source, and the calls of
    [onComplete] so far, which the page gives. *)
Record DownloadLogs : Type := {
  logs : list string;
  isRunning : bool;
  exitCode : option Z;
  hasCompleted : bool;
  eventSourceRef : bool;
  completions : list bool
}.

(** Once the [EventSource] is made. *)
Definition DownloadLogs_initial : DownloadLogs :=
  {| logs := []; isRunning := true; exitCode := None; hasCompleted := false;
     eventSourceRef := true; completions := [] |}.

(** What the source delivers: a message, with what [JSON.parse] makes of
    its data (a throw also for [null], whose [type] cannot be read), or an
    error, with whether [readyState] is [CLOSED]. *)
Inductive source_event : Type :=
| onmessage (data : outcome LogEntry)
| onerror (closed : bool).

Definition source_step (st : DownloadLogs) (ev : source_event) : DownloadLogs :=
  match ev with
  | onmessage Throws => st
  | onmessage (Returns data) =>
      if decide (entry_type data = Some "done") then
        if hasCompleted st then st
        else
          {| logs := logs st;
             isRunning := false;
             exitCode := entry_exitCode data;
             hasCompleted := true;
             eventSourceRef := false;
             completions :=
               completions st ++ [bool_decide (entry_exitCode data = Some 0%Z)] |}
      else if truthy_string (entry_message data) then
        {| logs := logs st ++ [default "" (entry_message data)];
           isRunning := isRunning st;
           exitCode := exitCode st;
           hasCompleted := hasCompleted st;
           eventSourceRef := eventSourceRef st;
           completions := completions st |}
      else st
  | onerror closed =>
      if hasCompleted st then
        {| logs := logs st;
           isRunning := isRunning st;
           exitCode := exitCode st;
           hasCompleted := true;
           eventSourceRef := false;
           completions := completions st |}
      else if eventSourceRef st && closed then
        {| logs := logs st ++ ["❌ Connection error occurred" +:+ LF];
           isRunning := false;
           exitCode := exitCode st;
           hasCompleted := true;
           eventSourceRef := false;
           completions := completions st ++ [false] |}
      else st
  end.

(** The events before the script ends that leave the stream open. *)
Definition quiet (ev : stream_event) : Prop :=
  match ev with
  | stdout_data _ | stderr_data _ | timeout => True
  | _ => False
  end.

(** An entry of the stream that carries a line of output. *)
Definition output_entry (e : LogEntry) : Prop :=
  (entry_type e = Some "log" ∨ entry_type e = Some "error")
  ∧ is_Some (entry_message e).

(** A stream that is open and takes data. *)
Definition live (st : Stream) : Prop :=
  isClosed st = false ∧ readable st = true ∧ timeouts st = 0.

(** The script has ended with the code [c], and before that the stream
    was left open: [events] has a [process_close c] after quiet events
    only. *)
Definition ends_with_code (events : list stream_event) (c : option Z) : Prop :=
  ∃ pre post, events = pre ++ process_close c :: post ∧ Forall quiet pre.

(** The stream so far is the two initial messages, lines of output, and,
    once the script has ended on a stream that took it, the final message
    and [done]. *)
Definition well_formed (initial : list LogEntry) (st : Stream) : Prop :=
  ∃ body tail,
    enqueued st = initial ++ body ++ tail
    ∧ Forall output_entry body
    ∧ (tail = [] ∨ ∃ c, tail = [final_entry c; done_entry c])
    ∧ (isClosed st = false → tail = [] ∧ timeouts st = 0).

(** The lines the log view shows for the entries of a stream. *)
Definition shown (entries : list LogEntry) : list string :=
  filter (λ m, m ≠ "") (omap entry_message entries).

(** * Part III.  Properties of the functions *)

(** ** Outcomes *)

Lemma bind_Returns {A B : Type} (m : outcome A) (f : A → outcome B) (b : B) :
  m ≫= f = Returns b ↔ ∃ a, m = Returns a ∧ f a = Returns b.
Proof.
  destruct m as [a|]; simpl; split.
  - intros H. by exists a.
  - by intros (a' & [= <-] & H).
  - done.
  - by intros (a' & [=] & _).
Qed.

Lemma fmap_Returns {A B : Type} (m : outcome A) (f : A → B) (b : B) :
  f <$> m = Returns b ↔ ∃ a, m = Returns a ∧ b = f a.
Proof.
  destruct m as [a|]; simpl; split.
  - intros [= <-]. by exists a.
  - by intros (a' & [= <-] & ->).
  - done.
  - by intros (a' & [=] & _).
Qed.

(** Every bind of a returning computation is opened in [H]. *)
Ltac inv_bind H :=
  repeat match type of H with
  | _ ≫= _ = Returns _ =>
      let a := fresh "a" in
      let Ha := fresh "Ha" in
      apply bind_Returns in H as (a & Ha & H)
  end.

Lemma Array_map_Returns {A B : Type} (f : A → outcome B) (l : list A) (bs : list B) :
  Array_map f l = Returns bs ↔ Forall2 (λ a b, f a = Returns b) l bs.
Proof.
  revert bs. induction l as [|a l IH]; intros bs; simpl.
  - split.
    + intros [= <-]. constructor.
    + by intros ->%Forall2_nil_inv_l.
  - rewrite bind_Returns. split.
    + intros (b & Hb & H). apply bind_Returns in H as (bs' & Hbs & [= <-]).
      constructor; [done|]. by apply IH.
    + intros (b & bs' & Hb & Hbs & ->)%Forall2_cons_inv_l.
      exists b. split; [done|]. apply bind_Returns.
      exists bs'. split; [by apply IH|done].
Qed.

(** ** Sets and sorting *)

Lemma foldl_Set_add (l acc : list string) :
  NoDup acc →
  NoDup (foldl Set_add acc l) ∧ ∀ x, x ∈ foldl Set_add acc l ↔ x ∈ acc ∨ x ∈ l.
Proof.
  revert acc. induction l as [|y l IH]; intros acc Hacc; simpl.
  - split; [done|]. intros x. rewrite elem_of_nil. tauto.
  - assert (NoDup (Set_add acc y)) as Hnd.
    { unfold Set_add. case_decide; [done|].
      apply NoDup_app. repeat split; [done| |apply NoDup_singleton].
      intros x Hx ->%list_elem_of_singleton. done. }
    destruct (IH _ Hnd) as [Hnd' Hin]. split; [done|].
    intros x. rewrite Hin, elem_of_cons. unfold Set_add. case_decide.
    + split; [tauto|]. intros [?|[->|?]]; auto.
    + rewrite elem_of_app, list_elem_of_singleton. tauto.
Qed.

Lemma NoDup_Array_from_Set (l : list string) : NoDup (Array_from_Set l).
Proof. apply foldl_Set_add, NoDup_nil_2. Qed.

Lemma elem_of_Array_from_Set (l : list string) (x : string) :
  x ∈ Array_from_Set l ↔ x ∈ l.
Proof.
  unfold Array_from_Set.
  destruct (foldl_Set_add l [] (NoDup_nil_2)) as [_ ->].
  rewrite elem_of_nil. tauto.
Qed.

Lemma sort_Permutation (l : list string) : sort l ≡ₚ l.
Proof. apply merge_sort_Permutation. Qed.

Lemma elem_of_sort (l : list string) (x : string) : x ∈ sort l ↔ x ∈ l.
Proof. by rewrite sort_Permutation. Qed.

Lemma NoDup_sort (l : list string) : NoDup l → NoDup (sort l).
Proof. by rewrite sort_Permutation. Qed.

Lemma StronglySorted_sort (l : list string) : StronglySorted String.le (sort l).
Proof. apply StronglySorted_merge_sort; apply _. Qed.

(** Whatever the algorithm of [Array.prototype.sort], its result on strings
    is the one of [sort]: the sorted arrangement of a list is unique. *)
Lemma sort_unique (l l' : list string) :
  l' ≡ₚ l → Sorted String.le l' → l' = sort l.
Proof.
  intros Hp Hs. apply (Sorted_unique String.le); [done| |].
  - apply Sorted_merge_sort. apply _.
  - by rewrite sort_Permutation.
Qed.

Lemma sorted_unique_sort_Set (l : list string) :
  sorted_unique (sort (Array_from_Set l)).
Proof.
  split; [apply NoDup_sort, NoDup_Array_from_Set | apply StronglySorted_sort].
Qed.

Lemma elem_of_sort_Set (l : list string) (x : string) :
  x ∈ sort (Array_from_Set l) ↔ x ∈ l.
Proof. by rewrite elem_of_sort, elem_of_Array_from_Set. Qed.

(** ** The extraction functions *)

Lemma truthy_not_empty_string (v : value) :
  ToBoolean v && not_empty_string v = ToBoolean v.
Proof. destruct v; simpl; auto using andb_true_r, andb_diag. Qed.

Lemma model_of_widget_Some (i : nat) (n : WorkflowNode) (s : string) :
  model_of_widget i n = Returns (Some s) ↔
  ToBoolean (widget_value n i) = true ∧ ToString (widget_value n i) = Returns s.
Proof.
  unfold model_of_widget. rewrite truthy_not_empty_string.
  destruct (ToBoolean _); [|naive_solver].
  rewrite fmap_Returns. naive_solver.
Qed.

Lemma model_of_widget_falsy (i : nat) (n : WorkflowNode) :
  ToBoolean (widget_value n i) = false → model_of_widget i n = Returns None.
Proof.
  intros H. unfold model_of_widget. by rewrite truthy_not_empty_string, H.
Qed.

Lemma guarded_nodes_array (w : WorkflowJSON) (ns : list WorkflowNode) :
  nodes w = NodesArray ns → guarded_nodes w = Returns (Some ns).
Proof. unfold guarded_nodes. by intros ->. Qed.

Lemma elem_of_filter_type (T : string) (ns : list WorkflowNode) (n : WorkflowNode) :
  n ∈ filter (λ n, type_is T n) ns ↔ n ∈ ns ∧ type n = Some T.
Proof.
  rewrite list_elem_of_filter. unfold type_is.
  rewrite bool_decide_spec. tauto.
Qed.

Lemma extractModels_array (w : WorkflowJSON) (ns : list WorkflowNode)
    (T : string) (i : nat) (l : list string) :
  nodes w = NodesArray ns →
  extractModels w T i = Returns l →
  sorted_unique l ∧ ∀ s, s ∈ l ↔ positional ns T i s.
Proof.
  intros Hns H. unfold extractModels in H.
  rewrite (guarded_nodes_array _ _ Hns) in H. simpl in H.
  apply bind_Returns in H as (ms & Hms & [= <-]).
  split; [apply sorted_unique_sort_Set|].
  intros s. rewrite elem_of_sort_Set, list_elem_of_omap.
  apply Array_map_Returns in Hms. unfold positional. split.
  - intros (o & Ho & Hs). simpl in Hs. subst o.
    destruct (proj1 (list_elem_of_lookup _ _) Ho) as [k Hk].
    destruct (Forall2_lookup_r _ _ _ _ _ Hms Hk) as (n & Hn & Hf).
    apply list_elem_of_lookup_2, elem_of_filter_type in Hn as [Hn HT].
    apply model_of_widget_Some in Hf as [Hb Hstr]. by exists n.
  - intros (n & Hn & HT & Hb & Hstr).
    assert (n ∈ filter (λ n, type_is T n) ns) as Hin
      by by apply elem_of_filter_type.
    destruct (proj1 (list_elem_of_lookup _ _) Hin) as [k Hk].
    destruct (Forall2_lookup_l _ _ _ _ _ Hms Hk) as (o & Ho & Hf).
    assert (model_of_widget i n = Returns (Some s)) as Hf'
      by by apply model_of_widget_Some.
    rewrite Hf' in Hf. injection Hf as <-.
    exists (Some s). split; [by eapply list_elem_of_lookup_2|done].
Qed.

Lemma truthy_string_Some (o : option string) :
  truthy_string o = true ↔ ∃ s, o = Some s ∧ s ≠ "".
Proof.
  destruct o as [s|]; simpl; [|naive_solver].
  rewrite negb_true_iff. destruct (String.eqb_spec s ""); naive_solver.
Qed.

Lemma elem_of_pushed_names (dir : string) (n : WorkflowNode) (s : string) :
  s ∈ pushed_names dir n ↔
  ∃ p ms m, properties n = Some p ∧ models p = Some ms ∧ m ∈ ms
            ∧ directory m = Some dir ∧ name m = Some s ∧ s ≠ "".
Proof.
  unfold pushed_names, pushed_name, in_directory.
  destruct (properties n) as [p|]; [|rewrite elem_of_nil; naive_solver].
  destruct (models p) as [ms|] eqn:Hms; [|rewrite elem_of_nil; naive_solver].
  rewrite list_elem_of_omap. split.
  - intros (m & Hm & Hs). apply list_elem_of_filter in Hm as [Hf Hm].
    apply Is_true_true, andb_true_iff in Hf as [Hd Ht].
    apply bool_decide_eq_true in Hd. rewrite Ht in Hs.
    apply truthy_string_Some in Ht as (s' & Hs' & Hne).
    rewrite Hs' in Hs. injection Hs as <-. by exists p, ms, m.
  - intros (p' & ms' & m & [= <-] & Hms' & Hm & Hd & Hs & Hne).
    rewrite Hms in Hms'. injection Hms' as <-.
    assert (truthy_string (name m) = true) as Ht
      by (apply truthy_string_Some; eauto).
    exists m. rewrite Ht. split; [|done].
    apply list_elem_of_filter. split; [|done].
    apply Is_true_true, andb_true_iff. split; [|done].
    by apply bool_decide_eq_true.
Qed.

Lemma extractModelsFromProperties_array (w : WorkflowJSON)
    (ns : list WorkflowNode) (T dir : string) (l : list string) :
  nodes w = NodesArray ns →
  extractModelsFromProperties w T dir = Returns l →
  sorted_unique l ∧ ∀ s, s ∈ l ↔ side_channel ns T dir s.
Proof.
  intros Hns H. unfold extractModelsFromProperties in H.
  rewrite (guarded_nodes_array _ _ Hns) in H. simpl in H.
  injection H as <-. split; [apply sorted_unique_sort_Set|].
  intros s. rewrite elem_of_sort_Set, list_elem_of_join. unfold side_channel.
  split.
  - intros (names & Hs & Hnames).
    apply list_elem_of_fmap in Hnames as (n & -> & Hn).
    apply elem_of_filter_type in Hn as [Hn HT].
    apply elem_of_pushed_names in Hs as (p & ms & m & ?).
    exists n, p, ms, m. naive_solver.
  - intros (n & p & ms & m & Hn & HT & Hrest).
    exists (pushed_names dir n). split.
    + apply elem_of_pushed_names. by exists p, ms, m.
    + apply list_elem_of_fmap. exists n. split; [done|].
      by apply elem_of_filter_type.
Qed.

Lemma mergeArrays_spec (arrays : list (list string)) :
  sorted_unique (mergeArrays arrays)
  ∧ ∀ s, s ∈ mergeArrays arrays ↔ s ≠ "" ∧ ∃ l, l ∈ arrays ∧ s ∈ l.
Proof.
  unfold mergeArrays. split; [apply sorted_unique_sort_Set|].
  intros s. rewrite elem_of_sort_Set, list_elem_of_filter, list_elem_of_join.
  naive_solver.
Qed.

Lemma sorted_unique_nil : sorted_unique [].
Proof. split; constructor. Qed.

Lemma extractModels_sorted_unique (w : WorkflowJSON) (T : string) (i : nat)
    (l : list string) :
  extractModels w T i = Returns l → sorted_unique l.
Proof.
  unfold extractModels. intros H. inv_bind H.
  destruct a as [ns|].
  - inv_bind H. injection H as <-. apply sorted_unique_sort_Set.
  - injection H as <-. apply sorted_unique_nil.
Qed.

Lemma extractModelsFromProperties_sorted_unique (w : WorkflowJSON)
    (T dir : string) (l : list string) :
  extractModelsFromProperties w T dir = Returns l → sorted_unique l.
Proof.
  unfold extractModelsFromProperties. intros H. inv_bind H.
  destruct a as [ns|]; injection H as <-.
  - apply sorted_unique_sort_Set.
  - apply sorted_unique_nil.
Qed.

(** ** [scanWorkflow], category by category *)

Lemma scanWorkflow_Returns (w : WorkflowJSON) (r : ScanResult) :
  scanWorkflow w = Returns r →
  extractCustomNodes w = Returns (custom_nodes r)
  ∧ ∀ c, built w c (get c (result_models r)).
Proof.
  unfold scanWorkflow. intros H. inv_bind H. injection H as <-.
  split; [done|]. intros c. unfold built.
  destruct c; simpl; do 2 eexists;
    (split; [repeat (econstructor; [eassumption|]); econstructor|]);
    (split; [repeat (econstructor; [eassumption|]); econstructor|]);
    simpl; by rewrite ?app_nil_r.
Qed.

Lemma built_sorted_unique (w : WorkflowJSON) (c : category) (l : list string) :
  built w c l → sorted_unique l.
Proof.
  intros (ps & qs & Hps & Hqs & ->).
  destruct (merged c) eqn:Hm; [apply mergeArrays_spec|].
  destruct c; try discriminate Hm; simpl in Hps, Hqs;
    repeat match goal with
    | H : Forall2 _ (_ :: _) _ |- _ =>
        apply Forall2_cons_inv_l in H as (? & ? & ? & H & ->)
    | H : Forall2 _ [] _ |- _ => apply Forall2_nil_inv_l in H as ->
    end; simpl; rewrite app_nil_r;
    eauto using extractModels_sorted_unique,
      extractModelsFromProperties_sorted_unique.
Qed.

Lemma built_elem_of (w : WorkflowJSON) (ns : list WorkflowNode) (c : category)
    (l : list string) (s : string) :
  nodes w = NodesArray ns →
  built w c l →
  s ∈ l ↔
  (merged c = true → s ≠ "")
  ∧ ((∃ T, T ∈ positional_sources c ∧ positional ns T 0 s)
     ∨ (∃ T dir, (T, dir) ∈ property_sources c ∧ side_channel ns T dir s)).
Proof.
  intros Hns (ps & qs & Hps & Hqs & ->).
  assert (∀ a, a ∈ ps → s ∈ a →
            ∃ T, T ∈ positional_sources c ∧ positional ns T 0 s) as Hp1.
  { intros a [k Hk]%list_elem_of_lookup Hs.
    destruct (Forall2_lookup_r _ _ _ _ _ Hps Hk) as (T & HT & He).
    exists T. split; [by eapply list_elem_of_lookup_2|].
    by apply (extractModels_array _ _ _ _ _ Hns He). }
  assert (∀ T, T ∈ positional_sources c → positional ns T 0 s →
            ∃ a, a ∈ ps ∧ s ∈ a) as Hp2.
  { intros T [k Hk]%list_elem_of_lookup Hs.
    destruct (Forall2_lookup_l _ _ _ _ _ Hps Hk) as (a & Ha & He).
    exists a. split; [by eapply list_elem_of_lookup_2|].
    by apply (extractModels_array _ _ _ _ _ Hns He). }
  assert (∀ b, b ∈ qs → s ∈ b →
            ∃ T dir, (T, dir) ∈ property_sources c ∧ side_channel ns T dir s)
    as Hq1.
  { intros b [k Hk]%list_elem_of_lookup Hs.
    destruct (Forall2_lookup_r _ _ _ _ _ Hqs Hk) as ([T dir] & HT & He).
    exists T, dir. split; [by eapply list_elem_of_lookup_2|].
    by apply (extractModelsFromProperties_array _ _ _ _ _ Hns He). }
  assert (∀ T dir, (T, dir) ∈ property_sources c → side_channel ns T dir s →
            ∃ b, b ∈ qs ∧ s ∈ b) as Hq2.
  { intros T dir [k Hk]%list_elem_of_lookup Hs.
    destruct (Forall2_lookup_l _ _ _ _ _ Hqs Hk) as (b & Hb & He).
    exists b. split; [by eapply list_elem_of_lookup_2|].
    by apply (extractModelsFromProperties_array _ _ _ _ _ Hns He). }
  assert ((∃ l, l ∈ ps ++ qs ∧ s ∈ l) ↔
          (∃ T, T ∈ positional_sources c ∧ positional ns T 0 s)
          ∨ (∃ T dir, (T, dir) ∈ property_sources c ∧ side_channel ns T dir s))
    as Hsrc.
  { split.
    - intros (a & [Ha|Ha]%elem_of_app & Hs); eauto.
    - intros [(T & HT & Hs)|(T & dir & HT & Hs)].
      + destruct (Hp2 T HT Hs) as (a & Ha & Hsa).
        exists a. rewrite elem_of_app. auto.
      + destruct (Hq2 T dir HT Hs) as (b & Hb & Hsb).
        exists b. rewrite elem_of_app. auto. }
  destruct (merged c).
  - destruct (mergeArrays_spec (ps ++ qs)) as [_ ->]. rewrite Hsrc. tauto.
  - rewrite list_elem_of_join. split.
    + intros (a & Hs & Ha). split; [done|]. apply Hsrc. eauto.
    + intros [_ (a & Ha & Hs)%Hsrc]. eauto.
Qed.

Example scanWorkflow_flux_graph :
  scanWorkflow (graph flux_graph) = Returns flux_manifest.
Proof. by vm_compute. Qed.

(** ** When [scanWorkflow] returns *)

Lemma Array_map_returns {A B : Type} (f : A → outcome B) (l : list A) :
  (∀ a, a ∈ l → ∃ b, f a = Returns b) → ∃ bs, Array_map f l = Returns bs.
Proof.
  induction l as [|a l IH]; intros Hf; simpl; [by eexists|].
  destruct (Hf a (list_elem_of_here _ _)) as [b ->].
  destruct IH as [bs ->]; [|by eexists].
  intros a' Ha'. apply Hf. by apply list_elem_of_further.
Qed.

Lemma model_of_widget_returns (i : nat) (n : WorkflowNode) :
  ToString (widget_value n i) ≠ Throws → ∃ o, model_of_widget i n = Returns o.
Proof.
  intros H. unfold model_of_widget.
  destruct (ToBoolean _ && _); [|by eexists].
  destruct (ToString _); [by eexists|done].
Qed.

Lemma extractModels_returns (ns : list WorkflowNode) (T : string) (i : nat) :
  (∀ n, n ∈ ns → ToString (widget_value n i) ≠ Throws) →
  ∃ l, extractModels (graph ns) T i = Returns l.
Proof.
  intros H. unfold extractModels. simpl.
  destruct (Array_map_returns (model_of_widget i)
              (filter (λ n, type_is T n) ns)) as [ms ->]; [|by eexists].
  intros n [_ Hn]%list_elem_of_filter. by apply model_of_widget_returns, H.
Qed.

(** With an array of nodes, [scanWorkflow] throws only where [String]
    does, on a value at index 0. *)
Lemma scanWorkflow_returns (ns : list WorkflowNode) :
  (∀ n, n ∈ ns → ToString (widget_value n 0) ≠ Throws) →
  ∃ r, scanWorkflow (graph ns) = Returns r.
Proof.
  intros H. unfold scanWorkflow.
  repeat match goal with
         | |- context [extractModels (graph ns) ?T 0] =>
             destruct (extractModels_returns ns T 0 H) as [? ->]
         end.
  by eexists.
Qed.

Lemma ToString_scalar (v : value) :
  scalar v = true ∨ v = VUndefined → ToString v ≠ Throws.
Proof. intros [Hv| ->]; [|done]. by destruct v as [| |[]| | | |]. Qed.

(** ** Maps in insertion order *)

Section Map_facts.
Context {V : Type}.
Implicit Types (m entries : list (string * V)) (k : string) (v : V).

Lemma Map_set_keys m k v :
    (Map_set m k v).*1 = if decide (k ∈ m.*1) then m.*1 else m.*1 ++ [k].
Proof.
    induction m as [|[k' v'] m IH]; csimpl; [done|].
    destruct (decide (k' = k)) as [->|Hne]; csimpl.
    - rewrite decide_True by apply list_elem_of_here. done.
    - rewrite IH. destruct (decide (k ∈ m.*1)) as [Hin|Hin].
      + rewrite decide_True by by apply list_elem_of_further. done.
      + rewrite decide_False; [done|].
        intros [?|?]%elem_of_cons; congruence.
Qed.

Lemma Map_set_NoDup m k v : NoDup m.*1 → NoDup (Map_set m k v).*1.
Proof.
    intros Hnd. rewrite Map_set_keys. case_decide; [done|].
    apply NoDup_app. repeat split; [done| |apply NoDup_singleton].
    by intros x Hx ->%list_elem_of_singleton.
Qed.

Lemma Map_set_elem_of m k v : (k, v) ∈ Map_set m k v.
Proof.
    induction m as [|[k' v'] m IH]; simpl; [apply list_elem_of_here|].
    case_decide; subst; [apply list_elem_of_here|by apply list_elem_of_further].
Qed.

Lemma Map_set_other m k v k' v' :
    k' ≠ k → (k', v') ∈ m → (k', v') ∈ Map_set m k v.
Proof.
    intros Hne. induction m as [|[k0 v0] m IH]; simpl; [by intros ?%elem_of_nil|].
    intros [[= <- <-]|Hin]%elem_of_cons.
    - rewrite decide_False by done. apply list_elem_of_here.
    - case_decide; apply list_elem_of_further; auto.
Qed.

Lemma Map_set_from m k v k' v' :
    (k', v') ∈ Map_set m k v → (k', v') = (k, v) ∨ (k', v') ∈ m.
Proof.
    induction m as [|[k0 v0] m IH]; simpl.
    - intros ->%list_elem_of_singleton. by left.
    - case_decide; subst.
      + intros [->|Hin]%elem_of_cons; [by left|].
        right. by apply list_elem_of_further.
      + intros [->|Hin]%elem_of_cons; [right; apply list_elem_of_here|].
        destruct (IH Hin); [by left|right; by apply list_elem_of_further].
Qed.

Lemma foldl_Map_set_NoDup entries m :
    NoDup m.*1 → NoDup (foldl (λ m kv, Map_set m kv.1 kv.2) m entries).*1.
Proof.
    revert m. induction entries as [|[k v] entries IH]; intros m Hm; simpl;
      [done|]. by apply IH, Map_set_NoDup.
Qed.

Lemma foldl_Map_set_keeps entries m k v :
    k ∉ entries.*1 → (k, v) ∈ m →
    (k, v) ∈ foldl (λ m kv, Map_set m kv.1 kv.2) m entries.
Proof.
    revert m. induction entries as [|[k' v'] entries IH]; intros m Hk Hin;
      csimpl in *; [done|].
    apply not_elem_of_cons in Hk as [Hne Hk].
    apply IH; [done|]. by apply Map_set_other.
Qed.

Lemma foldl_Map_set_from entries m k v :
    (k, v) ∈ foldl (λ m kv, Map_set m kv.1 kv.2) m entries →
    (k, v) ∈ entries ∨ (k, v) ∈ m.
Proof.
    revert m. induction entries as [|[k' v'] entries IH]; intros m; simpl;
      [by right|].
    intros [Hin|Hin]%IH; [left; by apply list_elem_of_further|].
    destruct (Map_set_from _ _ _ _ _ Hin) as [->|?];
      [left; apply list_elem_of_here|by right].
Qed.

Lemma new_Map_NoDup entries : NoDup (new_Map entries).*1.
Proof. apply foldl_Map_set_NoDup. constructor. Qed.

Lemma new_Map_from entries k v : (k, v) ∈ new_Map entries → (k, v) ∈ entries.
Proof. by intros [?|?%elem_of_nil]%foldl_Map_set_from. Qed.

(** The last entry of a key is the one the map holds. *)
Lemma new_Map_last entries1 entries2 k v :
    k ∉ entries2.*1 → (k, v) ∈ new_Map (entries1 ++ (k, v) :: entries2).
Proof.
    intros Hk. unfold new_Map. rewrite foldl_app. simpl.
    apply foldl_Map_set_keeps; [done|]. apply Map_set_elem_of.
Qed.

(** A map with one entry for a key holds no other for it. *)
Lemma NoDup_keys_filter m k v :
    NoDup m.*1 → (k, v) ∈ m → filter (λ kv, kv.1 = k) m = [(k, v)].
Proof.
    induction m as [|[k' v'] m IH]; csimpl; [by intros _ ?%elem_of_nil|].
    intros [Hk' Hnd]%NoDup_cons [[= <- <-]|Hin]%elem_of_cons.
    - rewrite filter_cons_True by done. f_equal.
      clear IH. induction m as [|[k0 v0] m IH]; [done|].
      apply NoDup_cons in Hnd as [_ Hnd]. rewrite filter_cons_False.
      + apply IH; [|done]. intros Hin. apply Hk'. by apply list_elem_of_further.
      + simpl. intros ->. apply Hk'. apply list_elem_of_here.
    - rewrite filter_cons_False; [by apply IH|].
      simpl. intros ->. apply Hk'. apply list_elem_of_fmap. by exists (k, v).
Qed.
End Map_facts.

(** ** Custom nodes *)

(** A list with an element that has [P] has a last one. *)
Lemma last_with {A : Type} (P : A → Prop) `{∀ x, Decision (P x)}
    (l : list A) (x0 : A) :
  x0 ∈ l → P x0 →
  ∃ l1 x l2, l = l1 ++ x :: l2 ∧ P x ∧ ∀ y, y ∈ l2 → ¬ P y.
Proof.
  revert x0. induction l as [|a l IH]; intros x0 Hin HP;
    [by apply elem_of_nil in Hin|].
  destruct (decide (Exists P l)) as [Hex|Hnex].
  - apply Exists_exists in Hex as (y & Hy & HPy).
    destruct (IH y Hy HPy) as (l1 & x & l2 & -> & Hx & Hl2).
    by exists (a :: l1), x, l2.
  - apply not_Exists_Forall in Hnex; [|done].
    exists [], a, l. split; [done|]. split.
    + apply elem_of_cons in Hin as [<-|Hin]; [done|].
      by destruct (proj1 (Forall_forall _ _) Hnex x0 Hin).
    + intros y Hy. apply (proj1 (Forall_forall _ _) Hnex y Hy).
Qed.

Lemma is_custom_spec (n : WorkflowNode) :
  is_custom n = true ↔
  ∃ p, package_of n = Some p ∧ p ≠ "" ∧ p ≠ "comfy-core".
Proof.
  unfold is_custom, package_of. destruct (properties n) as [ps|]; simpl;
    [|naive_solver].
  rewrite andb_true_iff, truthy_string_Some, negb_true_iff,
    bool_decide_eq_false. naive_solver.
Qed.

Lemma custom_node_of_package (n : WorkflowNode) (p : string) :
  package_of n = Some p →
  custom_node_of n =
    {| node := p;
       version := if truthy_string (declared_version n)
                  then default "" (declared_version n) else "latest" |}.
Proof.
  unfold package_of, declared_version, custom_node_of.
  destruct (properties n) as [ps|]; simpl; [|done]. by intros ->.
Qed.

Lemma custom_entries_keys (ns : list WorkflowNode) (k : string) (c : CustomNode) :
  (k, c) ∈ custom_entries ns →
  k = node c ∧ ∃ n, n ∈ ns ∧ is_custom n = true ∧ c = custom_node_of n.
Proof.
  unfold custom_entries. rewrite <-list_fmap_compose.
  intros (n & [= -> ->] & Hn)%list_elem_of_fmap.
  apply list_elem_of_filter in Hn as [Hc Hn]. split; [done|].
  exists n. by apply Is_true_true in Hc.
Qed.

Lemma custom_entries_app (ns1 ns2 : list WorkflowNode) :
  custom_entries (ns1 ++ ns2) = custom_entries ns1 ++ custom_entries ns2.
Proof. unfold custom_entries. by rewrite filter_app, !fmap_app. Qed.

Lemma custom_entries_cons_custom (n : WorkflowNode) (ns : list WorkflowNode) :
  is_custom n = true →
  custom_entries (n :: ns)
  = (node (custom_node_of n), custom_node_of n) :: custom_entries ns.
Proof.
  intros Hc. unfold custom_entries. rewrite filter_cons_True; [done|].
  by apply Is_true_true.
Qed.

Lemma extractCustomNodes_array (w : WorkflowJSON) (ns : list WorkflowNode)
    (l : list CustomNode) :
  nodes w = NodesArray ns →
  extractCustomNodes w = Returns l →
  l = Map_values (new_Map (custom_entries ns)).
Proof.
  intros Hns H. unfold extractCustomNodes in H.
  rewrite (guarded_nodes_array _ _ Hns) in H. simpl in H. by injection H as <-.
Qed.

Lemma extractCustomNodes_from (w : WorkflowJSON) (l : list CustomNode)
    (c : CustomNode) :
  extractCustomNodes w = Returns l → c ∈ l →
  ∃ ns n, nodes w = NodesArray ns ∧ n ∈ ns ∧ is_custom n = true
          ∧ c = custom_node_of n.
Proof.
  unfold extractCustomNodes, guarded_nodes. intros H Hc.
  destruct (nodes w) as [|ns|x]; simpl in H.
  - injection H as <-. by apply elem_of_nil in Hc.
  - injection H as <-. unfold Map_values in Hc.
    apply list_elem_of_fmap in Hc as ([k c'] & -> & Hin).
    apply new_Map_from, custom_entries_keys in Hin as (_ & n & ?).
    exists ns, n. naive_solver.
  - destruct (ToBoolean _); simpl in H; [done|].
    injection H as <-. by apply elem_of_nil in Hc.
Qed.

Lemma filter_Map_values (m : list (string * CustomNode)) (p : string) :
  Forall (λ kv, kv.1 = node kv.2) m →
  filter (λ c, node c = p) (Map_values m)
  = Map_values (filter (λ kv, kv.1 = p) m).
Proof.
  unfold Map_values.
  induction 1 as [|[k c] m Hk _ IH]; csimpl in *; [done|]. subst k.
  destruct (decide (node c = p)) as [Hp|Hp].
  - rewrite !filter_cons_True by done. csimpl. by rewrite IH.
  - by rewrite !filter_cons_False by done.
Qed.

(** The one entry of a package is the one of the last node that carries
    it. *)
Lemma custom_nodes_of_package (ns1 ns2 : list WorkflowNode) (n : WorkflowNode)
    (p : string) :
  package_of n = Some p → p ≠ "" → p ≠ "comfy-core" →
  (∀ n', n' ∈ ns2 → package_of n' ≠ Some p) →
  filter (λ c, node c = p)
    (Map_values (new_Map (custom_entries (ns1 ++ n :: ns2))))
  = [custom_node_of n].
Proof.
  intros Hp Hne Hcore Hlast.
  assert (is_custom n = true) as Hc by (apply is_custom_spec; eauto).
  assert (node (custom_node_of n) = p) as Hnode
    by by rewrite (custom_node_of_package _ _ Hp).
  rewrite filter_Map_values.
  - rewrite (NoDup_keys_filter _ p (custom_node_of n)); [done| |].
    + apply new_Map_NoDup.
    + rewrite custom_entries_app, (custom_entries_cons_custom _ _ Hc), Hnode.
      apply new_Map_last. intros Hin.
      apply list_elem_of_fmap in Hin as ([k c] & Hk & Hin). simpl in Hk.
      apply custom_entries_keys in Hin as (Hkc & n' & Hn' & Hc' & Hcn').
      apply is_custom_spec in Hc' as (p' & Hp' & _).
      rewrite (custom_node_of_package _ _ Hp') in Hcn'.
      apply (Hlast n' Hn'). rewrite Hp'. f_equal.
      rewrite Hk, Hkc, Hcn'. done.
  - apply Forall_forall. intros [k c] Hin.
    by apply new_Map_from, custom_entries_keys in Hin as [-> _].
Qed.

(** ** Strings of scalars *)

Lemma pretty_N_go_nonempty (x : N) (s : string) :
  s ≠ "" → pretty_N_go x s ≠ "".
Proof.
  revert s. induction (N.lt_wf_0 x) as [x _ IH]; intros s Hs.
  destruct (decide (x = 0)%N) as [->|Hx]; [by rewrite pretty_N_go_0|].
  rewrite pretty_N_go_step by lia. apply IH; [|done].
  apply N.div_lt; lia.
Qed.

Lemma pretty_N_nonempty (x : N) : pretty x ≠ "".
Proof.
  unfold pretty, pretty_N. case_decide; [done|].
  rewrite pretty_N_go_step by lia. by apply pretty_N_go_nonempty.
Qed.

Lemma pretty_Z_nonempty (n : Z) : pretty n ≠ "".
Proof.
  destruct n as [|x|x]; [done| |done].
  apply (pretty_N_nonempty (N.pos x)).
Qed.

Example ToString_nested_array :
  ToString (VArr [VNum 1; VNull; VArr [VBool true; VNum (-2)]; VStr "x"])
  = Returns "1,,true,-2,x".
Proof. by vm_compute. Qed.

Example ToString_empty_array : ToString (VArr []) = Returns "".
Proof. reflexivity. Qed.

Example ToString_plain_object :
  ToString (VObj [("a", VNum 1)]) = Returns "[object Object]".
Proof. reflexivity. Qed.

Example ToString_shadowed_toString :
  ToString (VArr [VObj [("toString", VStr "x")]]) = Throws.
Proof. reflexivity. Qed.

(** The string of a truthy scalar: it is never empty. *)
Lemma ToString_truthy_scalar (v : value) :
  scalar v = true → ToBoolean v = true →
  ∃ s, ToString v = Returns s ∧ s ≠ "".
Proof.
  destruct v as [| |[]|n|s| |]; simpl; try done; intros _ Hv.
  - by exists "true".
  - exists (pretty n). split; [done|apply pretty_Z_nonempty].
  - exists s. split; [done|].
    apply negb_true_iff in Hv. by destruct (String.eqb_spec s "").
Qed.

(** * Part IV.  The store refines the functions *)

(** ** Stores *)

Lemma bind_run_Returns {A B : Type} (m : M A) (f : A → M B) (σ σ' : store) (a : A) :
  m σ = (Returns a, σ') → (m ≫= f) σ = f a σ'.
Proof. unfold mbind, M_bind. by intros ->. Qed.

Lemma bind_run_Throws {A B : Type} (m : M A) (f : A → M B) (σ σ' : store) :
  m σ = (Throws, σ') → (m ≫= f) σ = (Throws, σ').
Proof. unfold mbind, M_bind. by intros ->. Qed.

Lemma array_at_new {A : Type} `{Elem A} (σ : store) (l : list A) :
  array_at (σ ++ [to_array l]) (length σ) = Some l.
Proof.
  unfold array_at. rewrite list_lookup_middle by done. simpl.
  apply of_to_array.
Qed.

Lemma array_at_prefix {A : Type} `{Elem A} (σ σ' : store) (ℓ : loc) (l : list A) :
  σ `prefix_of` σ' → array_at σ ℓ = Some l → array_at σ' ℓ = Some l.
Proof.
  intros [k ->]. unfold array_at. intros Hl.
  destruct (σ !! ℓ) as [a|] eqn:Ha; [|done].
  by rewrite (lookup_app_l_Some _ _ _ _ Ha).
Qed.

Lemma read_run {A : Type} `{Elem A} (σ : store) (ℓ : loc) (l : list A) :
  array_at σ ℓ = Some l → read ℓ σ = (Returns l, σ).
Proof. unfold read, array_at. by intros ->. Qed.

Lemma insert_new (σ : store) (a b : array_obj) :
  <[length σ := b]> (σ ++ [a]) = σ ++ [b].
Proof. by rewrite insert_app_r_alt, Nat.sub_diag by done. Qed.

Lemma Array_filter_run {A : Type} `{Elem A} (σ : store) (ℓ : loc) (l : list A)
    (P : A → bool) :
  array_at σ ℓ = Some l →
  Array_filter ℓ P σ
  = (Returns (length σ), σ ++ [to_array (filter (λ a, P a) l)]).
Proof.
  intros Hl. unfold Array_filter. by rewrite (bind_run_Returns _ _ _ _ _ (read_run _ _ _ Hl)).
Qed.

Lemma Array_from_new_Set_run (σ : store) (ℓ : loc) (l : list string) :
  array_at σ ℓ = Some l →
  Array_from_new_Set ℓ σ
  = (Returns (length σ), σ ++ [to_array (Array_from_Set l)]).
Proof.
  intros Hl. unfold Array_from_new_Set.
  by rewrite (bind_run_Returns _ _ _ _ _ (read_run _ _ _ Hl)).
Qed.

(** Sorting the array allocated last. *)
Lemma Array_sort_run (σ : store) (l : list string) :
  Array_sort (length σ) (σ ++ [to_array l])
  = (Returns (length σ), σ ++ [to_array (sort l)]).
Proof.
  unfold Array_sort, mbind, M_bind, read, write.
  rewrite list_lookup_middle by done. simpl. by rewrite insert_new.
Qed.

Lemma each_run {A B C : Type} (f : A → M B) (g : C → outcome B)
    (l : list A) (l' : list C) (σ : store) :
  Forall2 (λ a c, f a σ = (g c, σ)) l l' →
  each f l σ = (Array_map g l', σ).
Proof.
  induction 1 as [|a c l l' Hac _ IH]; simpl; [done|].
  unfold mbind at 1, M_bind. rewrite Hac.
  destruct (g c) as [b|]; simpl; [|done].
  unfold mbind at 1, M_bind. rewrite IH.
  by destruct (Array_map g l').
Qed.

(** ** Nodes in the store *)

Lemma node_at_prefix (σ σ' : store) (no : NodeObject) (n : WorkflowNode) :
  σ `prefix_of` σ' → node_at σ no = Some n → node_at σ' no = Some n.
Proof.
  intros Hpre. unfold node_at.
  destruct (o_widgets_values no) as [ℓw|]; simpl.
  - destruct (array_at σ ℓw) as [ws|] eqn:Hws; [|done].
    rewrite (array_at_prefix _ _ _ _ Hpre Hws). simpl.
    destruct (o_properties no) as [p|]; simpl; [|done].
    destruct (o_models p) as [ℓm|]; simpl; [|done].
    destruct (array_at σ ℓm) as [ms|] eqn:Hms; [|done].
    by rewrite (array_at_prefix _ _ _ _ Hpre Hms).
  - destruct (o_properties no) as [p|]; simpl; [|done].
    destruct (o_models p) as [ℓm|]; simpl; [|done].
    destruct (array_at σ ℓm) as [ms|] eqn:Hms; [|done].
    by rewrite (array_at_prefix _ _ _ _ Hpre Hms).
Qed.

Lemma nodes_at_prefix (σ σ' : store) (nos : list NodeObject)
    (ns : list WorkflowNode) :
  σ `prefix_of` σ' → nodes_at σ nos ns → nodes_at σ' nos ns.
Proof.
  intros Hpre H. eapply Forall2_impl; [exact H|].
  intros no n. by apply node_at_prefix.
Qed.

Lemma node_at_type (σ : store) (no : NodeObject) (n : WorkflowNode) :
  node_at σ no = Some n → type n = o_type no.
Proof. unfold node_at. intros H. by simplify_option_eq. Qed.

Lemma node_at_properties (σ : store) (no : NodeObject) (n : WorkflowNode) :
  node_at σ no = Some n →
  match o_properties no with
  | None => properties n = None
  | Some po =>
      ∃ p, properties n = Some p ∧ cnr_id p = o_cnr_id po ∧ ver p = o_ver po
           ∧ match o_models po with
             | None => models p = None
             | Some ℓ => ∃ ms, array_at σ ℓ = Some ms ∧ models p = Some ms
             end
  end.
Proof.
  unfold node_at. intros H.
  destruct (o_properties no) as [po|]; simplify_option_eq; [|done].
  eexists. split; [done|]. simpl. split; [done|]. split; [done|].
  destruct (o_models po); simplify_option_eq; eauto.
Qed.

Lemma node_at_widget (σ : store) (no : NodeObject) (n : WorkflowNode) (i : nat) :
  node_at σ no = Some n →
  widget_valueS no i σ = (Returns (widget_value n i), σ).
Proof.
  unfold node_at, widget_valueS, widget_value. intros H.
  destruct (o_widgets_values no) as [ℓ|]; simplify_option_eq; [|done].
  unfold mbind, M_bind, read.
  match goal with H : array_at _ _ = Some _ |- _ =>
    unfold array_at in H; rewrite H end.
  done.
Qed.

Lemma nodes_at_filter_type (σ : store) (nos : list NodeObject)
    (ns : list WorkflowNode) (T : string) :
  nodes_at σ nos ns →
  nodes_at σ (filter (λ no, o_type_is T no) nos) (filter (λ n, type_is T n) ns).
Proof.
  apply Forall2_filter. intros no n H%node_at_type.
  unfold o_type_is, type_is. by rewrite H.
Qed.

Lemma graph_at_nodes (σ : store) (wo : WorkflowObject) (w : WorkflowJSON) :
  graph_at σ wo = Some w →
  match guarded_nodes w with
  | Throws => guarded_nodesS wo σ = (Throws, σ)
  | Returns None => guarded_nodesS wo σ = (Returns None, σ)
  | Returns (Some ns) =>
      ∃ ℓ nos, guarded_nodesS wo σ = (Returns (Some ℓ), σ)
               ∧ array_at σ ℓ = Some nos ∧ nodes_at σ nos ns
  end.
Proof.
  unfold graph_at, guarded_nodes, guarded_nodesS.
  destruct (o_nodes wo) as [|ℓ|x]; intros H; simplify_option_eq.
  - done.
  - eexists _, _. split; [done|]. split; [done|]. by apply mapM_Some_1.
  - by destruct (ToBoolean _).
Qed.

(** Every computation of the proof is stepped by its equation. *)
Ltac step H := rewrite (bind_run_Returns _ _ _ _ _ H).

(** ** [extractModels] *)

Lemma Array_mapS_run {A B C : Type} `{Elem A} `{Elem B} (σ : store) (ℓ : loc)
    (l : list A) (l' : list C) (f : A → M B) (g : C → outcome B) :
  array_at σ ℓ = Some l →
  Forall2 (λ a c, f a σ = (g c, σ)) l l' →
  Array_mapS ℓ f σ
  = match Array_map g l' with
    | Returns bs => (Returns (length σ), σ ++ [to_array bs])
    | Throws => (Throws, σ)
    end.
Proof.
  intros Hl Hf. unfold Array_mapS. step (read_run _ _ _ Hl).
  unfold mbind, M_bind. rewrite (each_run _ _ _ _ _ Hf).
  by destruct (Array_map g l').
Qed.

Lemma agrees_Returns {A : Type} `{Elem A} (m : M loc) (σ σ' : store)
    (ℓ : loc) (l : list A) :
  m σ = (Returns ℓ, σ') → array_at σ' ℓ = Some l → σ `prefix_of` σ' →
  agrees m σ (Returns l).
Proof. intros Hm Hl Hpre. exists σ'. split; [done|]. by exists ℓ. Qed.

Lemma agrees_Throws {A : Type} `{Elem A} (m : M loc) (σ σ' : store) :
  m σ = (Throws, σ') → σ `prefix_of` σ' → agrees (A:=A) m σ Throws.
Proof. intros Hm Hpre. by exists σ'. Qed.

Lemma agrees_empty {A : Type} `{Elem A} (σ : store) :
  agrees (alloc (A:=A) []) σ (Returns []).
Proof.
  eapply agrees_Returns; [done|apply array_at_new|by apply prefix_app_r].
Qed.

Lemma model_of_widgetS_run (σ : store) (no : NodeObject) (n : WorkflowNode)
    (i : nat) :
  node_at σ no = Some n →
  model_of_widgetS i no σ = (model_of_widget i n, σ).
Proof.
  intros H. unfold model_of_widgetS. step (node_at_widget _ _ _ i H).
  unfold model_of_widget. by destruct (ToBoolean _ && _).
Qed.

Lemma extractModelsS_agrees (σ : store) (wo : WorkflowObject)
    (w : WorkflowJSON) (T : string) (i : nat) :
  graph_at σ wo = Some w →
  agrees (extractModelsS wo T i) σ (extractModels w T i).
Proof.
  intros Hg%graph_at_nodes. unfold extractModels.
  destruct (guarded_nodes w) as [[ns|]|]; simpl.
  - destruct Hg as (ℓ & nos & Hrun & Hnos & Hns).
    set (σ1 := σ ++ [to_array (filter (λ no, o_type_is T no) nos)]).
    assert (σ `prefix_of` σ1) as Hpre1 by by apply prefix_app_r.
    assert (array_at σ1 (length σ) = Some (filter (λ no, o_type_is T no) nos))
      as Hℓ1 by apply array_at_new.
    assert (Forall2 (λ no n,
              model_of_widgetS i no σ1 = (model_of_widget i n, σ1))
              (filter (λ no, o_type_is T no) nos)
              (filter (λ n, type_is T n) ns)) as Hcb.
    { eapply Forall2_impl;
        [apply nodes_at_filter_type, (nodes_at_prefix _ _ _ _ Hpre1 Hns)|].
      intros no n Hn. by apply model_of_widgetS_run. }
    pose proof (Array_mapS_run _ _ _ _ (model_of_widgetS i) _ Hℓ1 Hcb) as Hmap.
    destruct (Array_map _ _) as [ms|]; simpl.
    + set (σ2 := σ1 ++ [to_array ms]) in *.
      assert (array_at σ2 (length σ1) = Some ms) as Hℓ2 by apply array_at_new.
      set (σ3 := σ2 ++ [to_array (omap id ms)]).
      assert (array_at σ3 (length σ2) = Some (omap id ms)) as Hℓ3
        by apply array_at_new.
      eapply agrees_Returns.
      * unfold extractModelsS. step Hrun.
        step (Array_filter_run _ _ _ (o_type_is T) Hnos). fold σ1.
        step Hmap. step (read_run _ _ _ Hℓ2).
        step (eq_refl : alloc (omap id ms) σ2 = (Returns (length σ2), σ3)).
        step (Array_from_new_Set_run _ _ _ Hℓ3).
        apply Array_sort_run.
      * apply array_at_new.
      * subst σ3 σ2. by do 3 apply prefix_app_r.
    + eapply agrees_Throws; [|exact Hpre1].
      unfold extractModelsS. step Hrun.
      step (Array_filter_run _ _ _ (o_type_is T) Hnos). fold σ1.
      by rewrite (bind_run_Throws _ _ _ _ Hmap).
  - eapply agrees_Returns;
      [unfold extractModelsS; step Hg; reflexivity|apply array_at_new|].
    by apply prefix_app_r.
  - eapply agrees_Throws; [|done]. by apply bind_run_Throws.
Qed.

(** ** [extractCustomNodes] *)

Lemma Array_mapS_pure_run {A B : Type} `{Elem A} `{Elem B} (σ : store)
    (ℓ : loc) (l : list A) (g : A → B) :
  array_at σ ℓ = Some l →
  Array_mapS ℓ (λ a, mret (g a)) σ
  = (Returns (length σ), σ ++ [to_array (g <$> l)]).
Proof.
  intros Hl.
  rewrite (Array_mapS_run σ ℓ l l (λ a, mret (g a)) (λ a, Returns (g a)) Hl).
  - assert (Array_map (λ a, Returns (g a)) l = Returns (g <$> l)) as ->; [|done].
    clear Hl. induction l as [|a l IH]; simpl; [done|]. by rewrite IH.
  - clear Hl. induction l; by constructor.
Qed.

Lemma node_at_custom (σ : store) (no : NodeObject) (n : WorkflowNode) :
  node_at σ no = Some n →
  o_is_custom no = is_custom n ∧ o_custom_node_of no = custom_node_of n.
Proof.
  intros H%node_at_properties.
  unfold o_is_custom, is_custom, o_custom_node_of, custom_node_of.
  destruct (o_properties no) as [po|].
  - destruct H as (p & -> & -> & -> & _). done.
  - by rewrite H.
Qed.

Lemma nodes_at_custom (σ : store) (nos : list NodeObject)
    (ns : list WorkflowNode) :
  nodes_at σ nos ns →
  o_custom_node_of <$> filter (λ no, o_is_custom no) nos
  = custom_node_of <$> filter (λ n, is_custom n) ns.
Proof.
  induction 1 as [|no n nos ns Hn _ IH]; [done|].
  destruct (node_at_custom _ _ _ Hn) as [Hc Hp].
  rewrite !filter_cons, Hc. destruct (decide (is_custom n)); [|done].
  csimpl. by rewrite Hp, IH.
Qed.

Lemma extractCustomNodesS_agrees (σ : store) (wo : WorkflowObject)
    (w : WorkflowJSON) :
  graph_at σ wo = Some w →
  agrees (extractCustomNodesS wo) σ (extractCustomNodes w).
Proof.
  intros Hg%graph_at_nodes. unfold extractCustomNodes.
  destruct (guarded_nodes w) as [[ns|]|]; simpl.
  - destruct Hg as (ℓ & nos & Hrun & Hnos & Hns).
    rewrite <-(nodes_at_custom _ _ _ Hns).
    set (σ1 := σ ++ [to_array (filter (λ no, o_is_custom no) nos)]).
    assert (array_at σ1 (length σ) = Some (filter (λ no, o_is_custom no) nos))
      as Hℓ1 by apply array_at_new.
    set (customNodes := o_custom_node_of <$> filter (λ no, o_is_custom no) nos).
    set (σ2 := σ1 ++ [to_array customNodes]).
    assert (array_at σ2 (length σ1) = Some customNodes) as Hℓ2
      by apply array_at_new.
    set (entries := (λ item, (node item, item)) <$> customNodes).
    set (σ3 := σ2 ++ [to_array entries]).
    assert (array_at σ3 (length σ2) = Some entries) as Hℓ3
      by apply array_at_new.
    eapply agrees_Returns.
    + unfold extractCustomNodesS. step Hrun.
      step (Array_filter_run _ _ _ o_is_custom Hnos).
      step (Array_mapS_pure_run _ _ _ o_custom_node_of Hℓ1).
      step (Array_mapS_pure_run _ _ _ (λ item, (node item, item)) Hℓ2).
      step (read_run _ _ _ Hℓ3). reflexivity.
    + apply array_at_new.
    + subst σ3 σ2 σ1. by do 4 apply prefix_app_r.
  - eapply agrees_Returns;
      [unfold extractCustomNodesS; step Hg; reflexivity|apply array_at_new|].
    by apply prefix_app_r.
  - eapply agrees_Throws; [|done]. by apply bind_run_Throws.
Qed.

(** ** [mergeArrays] *)

Lemma arrays_at_prefix (σ σ' : store) (ℓs : list loc) (ls : list (list string)) :
  σ `prefix_of` σ' → arrays_at σ ℓs ls → arrays_at σ' ℓs ls.
Proof.
  intros Hpre H. eapply Forall2_impl; [exact H|].
  intros ℓ l. by apply array_at_prefix.
Qed.

Lemma each_read_run (σ : store) (ℓs : list loc) (ls : list (list string)) :
  arrays_at σ ℓs ls → each (read (A:=string)) ℓs σ = (Returns ls, σ).
Proof.
  induction 1 as [|ℓ l ℓs ls Hl _ IH]; simpl; [done|].
  step (read_run _ _ _ Hl). by step IH.
Qed.

Lemma Array_flat_run (σ : store) (ℓ : loc) (ℓs : list loc)
    (ls : list (list string)) :
  array_at σ ℓ = Some ℓs → arrays_at σ ℓs ls →
  Array_flat ℓ σ = (Returns (length σ), σ ++ [to_array (mjoin ls)]).
Proof.
  intros Hℓ Hls. unfold Array_flat. step (read_run _ _ _ Hℓ).
  by step (each_read_run _ _ _ Hls).
Qed.

Lemma mergeArraysS_agrees (σ : store) (ℓs : list loc) (ls : list (list string)) :
  arrays_at σ ℓs ls →
  agrees (mergeArraysS ℓs) σ (Returns (mergeArrays ls)).
Proof.
  intros Hls.
  set (σ1 := σ ++ [to_array ℓs]).
  assert (σ `prefix_of` σ1) as Hpre1 by by apply prefix_app_r.
  assert (array_at σ1 (length σ) = Some ℓs) as Hℓ1 by apply array_at_new.
  set (σ2 := σ1 ++ [to_array (mjoin ls)]).
  assert (array_at σ2 (length σ1) = Some (mjoin ls)) as Hℓ2
    by apply array_at_new.
  set (merged := filter (λ item, bool_decide (item ≠ "")) (mjoin ls)).
  set (σ3 := σ2 ++ [to_array merged]).
  assert (array_at σ3 (length σ2) = Some merged) as Hℓ3 by apply array_at_new.
  assert (mergeArrays ls = sort (Array_from_Set merged)) as ->.
  { unfold mergeArrays, merged. do 2 f_equal. apply list_filter_iff.
    intros s. by rewrite bool_decide_spec. }
  eapply agrees_Returns.
  - unfold mergeArraysS.
    step (eq_refl : alloc ℓs σ = (Returns (length σ), σ1)).
    step (Array_flat_run _ _ _ _ Hℓ1 (arrays_at_prefix _ _ _ _ Hpre1 Hls)).
    step (Array_filter_run _ _ _ (λ item, bool_decide (item ≠ "")) Hℓ2).
    step (Array_from_new_Set_run _ _ _ Hℓ3).
    apply Array_sort_run.
  - apply array_at_new.
  - subst σ3 σ2. by do 4 apply prefix_app_r.
Qed.

(** ** [extractModelsFromProperties] *)

Lemma array_at_middle {A : Type} `{Elem A} (σ extra : store) (l : list A) :
  array_at (σ ++ to_array l :: extra) (length σ) = Some l.
Proof.
  unfold array_at. rewrite list_lookup_middle by done. apply of_to_array.
Qed.

Lemma Array_push_run (σ extra : store) (acc : list string) (x : string) :
  Array_push (length σ) x (σ ++ to_array acc :: extra)
  = (Returns (), σ ++ to_array (acc ++ [x]) :: extra).
Proof.
  unfold Array_push. step (read_run _ _ _ (array_at_middle σ extra acc)).
  unfold write. by rewrite insert_app_r_alt, Nat.sub_diag by done.
Qed.

Lemma Array_forEach_run {A : Type} `{Elem A} (σ σ' : store) (ℓ : loc)
    (l : list A) (f : A → M unit) (us : list unit) :
  array_at σ ℓ = Some l →
  each f l σ = (Returns us, σ') →
  Array_forEach ℓ f σ = (Returns (), σ').
Proof.
  intros Hl Hf. unfold Array_forEach. step (read_run _ _ _ Hl). by step Hf.
Qed.

Lemma push_name_run (σ extra : store) (acc : list string) (m : Model) :
  push_name (length σ) m (σ ++ to_array acc :: extra)
  = (Returns (), σ ++ to_array (acc ++ option_list (pushed_name m)) :: extra).
Proof.
  unfold push_name, pushed_name. destruct (name m) as [s|]; simpl.
  - destruct (negb (String.eqb s "")); simpl.
    + apply Array_push_run.
    + by rewrite app_nil_r.
  - by rewrite app_nil_r.
Qed.

Lemma each_push_name_run (σ extra : store) (acc : list string) (ms : list Model) :
  ∃ us, each (push_name (length σ)) ms (σ ++ to_array acc :: extra)
        = (Returns us, σ ++ to_array (acc ++ omap pushed_name ms) :: extra).
Proof.
  revert acc. induction ms as [|m ms IH]; intros acc.
  - exists []. simpl. by rewrite app_nil_r.
  - destruct (IH (acc ++ option_list (pushed_name m))) as [us Hus].
    exists (() :: us).
    change (each (push_name (length σ)) (m :: ms))
      with (b ← push_name (length σ) m;
            bs ← each (push_name (length σ)) ms; mret (b :: bs)).
    step (push_name_run σ extra acc m). step Hus.
    rewrite <-app_assoc. by destruct (pushed_name m) eqn:Hm; csimpl; rewrite Hm.
Qed.

Lemma push_names_run (σ extra : store) (acc : list string) (dir : string)
    (no : NodeObject) (n : WorkflowNode) :
  node_at σ no = Some n →
  ∃ extra',
    push_names (length σ) dir no (σ ++ to_array acc :: extra)
    = (Returns (), σ ++ to_array (acc ++ pushed_names dir n) :: extra').
Proof.
  intros H%node_at_properties. unfold push_names, pushed_names.
  destruct (o_properties no) as [po|]; simpl.
  - destruct H as (p & -> & _ & _ & H).
    destruct (o_models po) as [ℓ|].
    + destruct H as (ms & Hms & ->).
      assert (array_at (σ ++ to_array acc :: extra) ℓ = Some ms) as Hms'
        by (eapply array_at_prefix; [by apply prefix_app_r|done]).
      set (ms' := filter (λ m, in_directory dir m) ms).
      destruct (each_push_name_run σ (extra ++ [to_array ms']) acc ms')
        as [us Hus].
      exists (extra ++ [to_array ms']).
      step (Array_filter_run _ _ _ (in_directory dir) Hms').
      fold ms'. rewrite <-app_assoc, <-app_comm_cons.
      apply (Array_forEach_run _ _ _ ms' _ us); [|exact Hus].
      rewrite app_comm_cons, app_assoc. apply array_at_new.
    + rewrite H. exists extra. by rewrite app_nil_r.
  - rewrite H. exists extra. by rewrite app_nil_r.
Qed.

Lemma each_push_names_run (σ extra : store) (acc : list string) (dir : string)
    (nos : list NodeObject) (ns : list WorkflowNode) :
  nodes_at σ nos ns →
  ∃ us extra',
    each (push_names (length σ) dir) nos (σ ++ to_array acc :: extra)
    = (Returns us,
       σ ++ to_array (acc ++ mjoin (pushed_names dir <$> ns)) :: extra').
Proof.
  intros H. revert acc extra.
  induction H as [|no n nos ns Hn _ IH]; intros acc extra.
  - exists [], extra. simpl. by rewrite app_nil_r.
  - destruct (push_names_run σ extra acc dir no n Hn) as [extra1 H1].
    destruct (IH (acc ++ pushed_names dir n) extra1) as (us & extra2 & H2).
    exists (() :: us), extra2.
    change (each (push_names (length σ) dir) (no :: nos))
      with (b ← push_names (length σ) dir no;
            bs ← each (push_names (length σ) dir) nos; mret (b :: bs)).
    step H1. step H2. csimpl. by rewrite <-app_assoc.
Qed.

Lemma extractModelsFromPropertiesS_agrees (σ : store) (wo : WorkflowObject)
    (w : WorkflowJSON) (T dir : string) :
  graph_at σ wo = Some w →
  agrees (extractModelsFromPropertiesS wo T dir) σ
    (extractModelsFromProperties w T dir).
Proof.
  intros Hg%graph_at_nodes. unfold extractModelsFromProperties.
  destruct (guarded_nodes w) as [[ns|]|]; simpl.
  - destruct Hg as (ℓ & nos & Hrun & Hnos & Hns).
    set (nos' := filter (λ no, o_type_is T no) nos).
    set (ns' := filter (λ n, type_is T n) ns).
    assert (nodes_at σ nos' ns') as Hns' by by apply nodes_at_filter_type.
    destruct (each_push_names_run σ [to_array nos'] [] dir nos' ns' Hns')
      as (us & extra & Heach).
    simpl in Heach.
    set (names := mjoin (pushed_names dir <$> ns')) in *.
    set (σ3 := σ ++ to_array names :: extra) in *.
    eapply agrees_Returns.
    + unfold extractModelsFromPropertiesS. step Hrun.
      step (eq_refl : alloc (A:=string) [] σ
                      = (Returns (length σ), σ ++ [to_array []])).
      assert (array_at (σ ++ [to_array (A:=string) []]) ℓ = Some nos) as Hnos1
        by (eapply array_at_prefix; [by apply prefix_app_r|done]).
      step (Array_filter_run _ _ _ (o_type_is T) Hnos1). fold nos'.
      assert (array_at ((σ ++ [to_array (A:=string) []]) ++ [to_array nos'])
                (length (σ ++ [to_array (A:=string) []])) = Some nos') as Hℓ1
        by apply array_at_new.
      assert ((σ ++ [to_array (A:=string) []]) ++ [to_array nos']
              = σ ++ [to_array (A:=string) []; to_array nos']) as Hσ
        by by rewrite <-app_assoc.
      rewrite Hσ in Hℓ1 |- *.
      step (Array_forEach_run _ _ _ _ _ _ Hℓ1 Heach).
      step (Array_from_new_Set_run σ3 (length σ) names
              (array_at_middle σ extra names)).
      apply Array_sort_run.
    + apply array_at_new.
    + subst σ3. rewrite <-app_assoc. by apply prefix_app_r.
  - eapply agrees_Returns;
      [unfold extractModelsFromPropertiesS; step Hg; reflexivity
      |apply array_at_new|].
    by apply prefix_app_r.
  - eapply agrees_Throws; [|done]. by apply bind_run_Throws.
Qed.

(** ** [scanWorkflow] *)

Lemma graph_at_prefix (σ σ' : store) (wo : WorkflowObject) (w : WorkflowJSON) :
  σ `prefix_of` σ' → graph_at σ wo = Some w → graph_at σ' wo = Some w.
Proof.
  intros Hpre. unfold graph_at. destruct (o_nodes wo) as [|ℓ|x]; [done| |done].
  intros H.
  destruct (array_at σ ℓ) as [nos|] eqn:Hnos; [|done]. simpl in H.
  rewrite (array_at_prefix _ _ _ _ Hpre Hnos). simpl.
  destruct (mapM (node_at σ) nos) as [ns|] eqn:Hns; [|done].
  apply mapM_Some_1 in Hns.
  by rewrite (mapM_Some_2 _ _ _ (nodes_at_prefix _ _ _ _ Hpre Hns)).
Qed.

Lemma agrees_refines {A : Type} `{Elem A} (m : M loc) (σ : store)
    (o : outcome (list A)) :
  agrees m σ o → refines (λ σ' ℓ l, array_at σ' ℓ = Some l) m σ o.
Proof. done. Qed.

Lemma refines_bind {A B C D : Type} (R1 : store → A → B → Prop)
    (R2 : store → C → D → Prop) (m : M A) (k : A → M C) (σ : store)
    (o : outcome B) (kp : B → outcome D) :
  refines R1 m σ o →
  (∀ σ' a b, σ `prefix_of` σ' → R1 σ' a b → refines R2 (k a) σ' (kp b)) →
  refines R2 (m ≫= k) σ (o ≫= kp).
Proof.
  intros (σ' & Hpre & Hm) Hk. destruct o as [b|]; simpl.
  - destruct Hm as (a & Hm & HR).
    destruct (Hk σ' a b Hpre HR) as (σ'' & Hpre' & Hka).
    exists σ''. split; [by etrans|]. step Hm. exact Hka.
  - exists σ'. split; [done|]. by apply bind_run_Throws.
Qed.

Lemma refines_let {A B C D : Type} (R1 : store → A → B → Prop)
    (R2 : store → C → D → Prop) (m : M A) (k : A → M C) (σ : store)
    (b : B) (o : outcome D) :
  refines R1 m σ (Returns b) →
  (∀ σ' a, σ `prefix_of` σ' → R1 σ' a b → refines R2 (k a) σ' o) →
  refines R2 (m ≫= k) σ o.
Proof.
  intros (σ' & Hpre & a & Hm & HR) Hk.
  destruct (Hk σ' a Hpre HR) as (σ'' & Hpre' & Hka).
  exists σ''. split; [by etrans|]. by step Hm.
Qed.

(** The arrays and the graph known in a store are known in a store that
    extends it. *)
Ltac transport Hpre :=
  repeat match goal with
  | H : array_at ?σ _ = Some _ |- _ =>
      match type of Hpre with σ `prefix_of` _ =>
        apply (array_at_prefix _ _ _ _ Hpre) in H end
  | H : graph_at ?σ _ = Some _ |- _ =>
      match type of Hpre with σ `prefix_of` _ =>
        apply (graph_at_prefix _ _ _ _ Hpre) in H end
  end.

Ltac next_call lem :=
  eapply refines_bind;
  [apply agrees_refines, lem; eassumption
  |let Hpre := fresh "Hpre" in
   intros ? ? ? Hpre ?; cbv beta in *; transport Hpre; clear Hpre].

Ltac next_merge :=
  eapply refines_let;
  [apply (agrees_refines (A:=string)), mergeArraysS_agrees;
   repeat (constructor; [eassumption|]); constructor
  |let Hpre := fresh "Hpre" in
   intros ? ? Hpre ?; cbv beta in *; transport Hpre; clear Hpre].

Lemma refines_ret {C D : Type} (R : store → C → D → Prop) (σ : store)
    (c : C) (d : D) :
  R σ c d → refines R (mret c) σ (Returns d).
Proof. intros HR. exists σ. split; [done|]. by exists c. Qed.

Lemma scanWorkflowS_refines (σ : store) (wo : WorkflowObject)
    (w : WorkflowJSON) :
  graph_at σ wo = Some w →
  refines (λ σ' ro r, manifest_at σ' ro = Some r)
    (scanWorkflowS wo) σ (scanWorkflow w).
Proof.
  intros Hg. unfold scanWorkflowS, scanWorkflow. cbv zeta.
  next_call extractCustomNodesS_agrees.
  next_call extractModelsS_agrees.
  next_call extractModelsFromPropertiesS_agrees.
  next_merge.
  do 3 next_call extractModelsS_agrees.
  next_merge.
  do 2 next_call extractModelsS_agrees.
  next_merge.
  do 4 next_call extractModelsS_agrees.
  next_merge.
  next_call extractModelsS_agrees.
  next_call extractModelsFromPropertiesS_agrees.
  do 4 next_call extractModelsS_agrees.
  next_merge.
  do 4 next_call extractModelsS_agrees.
  apply refines_ret. unfold manifest_at. simpl.
  repeat match goal with
         | H : array_at _ _ = Some _ |- _ => rewrite H; clear H; simpl
         end.
  done.
Qed.

Lemma observed_refines (σ : store) (wo : WorkflowObject) (w : WorkflowJSON) :
  graph_at σ wo = Some w →
  σ `prefix_of` (scanWorkflowS wo σ).2
  ∧ observed σ wo = Some (scanWorkflow w).
Proof.
  intros (σ' & Hpre & H)%scanWorkflowS_refines. unfold observed.
  destruct (scanWorkflow w) as [r|].
  - destruct H as (ro & -> & Hr). simpl. by rewrite Hr.
  - by rewrite H.
Qed.

(** * Part V.  The claims *)

(** C1, as the code has it.  When a package id is carried by a node of
    the graph, or by several, the custom-nodes list of [scanWorkflow] has
    exactly one entry for it, and its version is the one of the last node
    that carries the id in the order of the [nodes] array (["latest"] when
    that node declares none). *)
Theorem custom_nodes_one_entry_last_version (w : WorkflowJSON)
    (ns : list WorkflowNode) (n0 : WorkflowNode) (p : string)
    (r : ScanResult) :
  nodes w = NodesArray ns →
  scanWorkflow w = Returns r →
  n0 ∈ ns → package_of n0 = Some p → p ≠ "" → p ≠ "comfy-core" →
  ∃ ns1 n ns2,
    ns = ns1 ++ n :: ns2
    ∧ package_of n = Some p
    ∧ (∀ n', n' ∈ ns2 → package_of n' ≠ Some p)
    ∧ filter (λ c, node c = p) (custom_nodes r)
      = [{| node := p;
            version := if truthy_string (declared_version n)
                       then default "" (declared_version n) else "latest" |}].
Proof.
  intros Hns Hr Hn0 Hp0 Hne Hcore.
  destruct (last_with (λ n, package_of n = Some p) ns n0 Hn0 Hp0)
    as (ns1 & n & ns2 & -> & Hp & Hlast).
  exists ns1, n, ns2. split; [done|]. split; [done|]. split; [done|].
  apply scanWorkflow_Returns in Hr as [Hc _].
  rewrite (extractCustomNodes_array _ _ _ Hns Hc).
  rewrite (custom_nodes_of_package _ _ _ _ Hp Hne Hcore Hlast).
  by rewrite (custom_node_of_package _ _ Hp).
Qed.

Lemma custom_nodes_one_entry_last_version_witness :
  ∃ ns1 n ns2,
    two_versions = ns1 ++ n :: ns2
    ∧ package_of n = Some "pack-x"
    ∧ (∀ n', n' ∈ ns2 → package_of n' ≠ Some "pack-x")
    ∧ filter (λ c, node c = "pack-x")
        [{| node := "pack-x"; version := "2.0" |};
         {| node := "pack-y"; version := "latest" |}]
      = [{| node := "pack-x";
            version := if truthy_string (declared_version n)
                       then default "" (declared_version n)
                       else "latest" |}].
Proof.
  apply (custom_nodes_one_entry_last_version (graph two_versions)
           two_versions (packaged "pack-x" (Some "1.0")) "pack-x"
           (only_custom_nodes [{| node := "pack-x"; version := "2.0" |};
                               {| node := "pack-y"; version := "latest" |}])).
  - reflexivity.
  - by vm_compute.
  - apply list_elem_of_here.
  - reflexivity.
  - discriminate.
  - discriminate.
Defined.

(** C1 as stated fails: of the versions ["1.0"] and ["2.0"] of ["pack-x"],
    met in this order, the entry records the second one, not the first. *)
Lemma first_version_is_overwritten :
  ∃ r, scanWorkflow (graph [packaged "pack-x" (Some "1.0");
                            packaged "pack-x" (Some "2.0")]) = Returns r
       ∧ custom_nodes r = [{| node := "pack-x"; version := "2.0" |}]
       ∧ ¬ (∀ c, c ∈ custom_nodes r → node c = "pack-x" → version c = "1.0").
Proof.
  eexists. split; [by vm_compute|]. split; [done|].
  intros H. specialize (H _ (list_elem_of_here _ _) eq_refl). discriminate H.
Qed.

(** C2, as the code has it.  With the [nodes] field absent, [scanWorkflow]
    returns the empty manifest.  With a [nodes] field that is present and
    no array, it returns the empty manifest when the value is falsy
    ([null], [false], [0], [""]) and throws when it is truthy (a non-zero
    number, a non-empty string, [true], an object). *)
Theorem scanWorkflow_without_nodes_array :
  scanWorkflow {| nodes := NodesAbsent |} = Returns empty_manifest
  ∧ ∀ x : non_array,
      scanWorkflow {| nodes := NodesOther x |}
      = if ToBoolean (non_array_value x) then Throws
        else Returns empty_manifest.
Proof.
  split; [done|]. intros x.
  unfold scanWorkflow, extractCustomNodes, guarded_nodes. simpl.
  destruct (ToBoolean (non_array_value x)) eqn:Hx; [done|].
  unfold extractModels, extractModelsFromProperties, guarded_nodes. simpl.
  by rewrite Hx.
Qed.

(** C2 as stated fails: [{nodes: 5}] makes [scanWorkflow] throw, and so do
    a non-empty string and an object. *)
Lemma truthy_nodes_throws :
  scanWorkflow {| nodes := NodesOther (NANum 5) |} = Throws
  ∧ scanWorkflow {| nodes := NodesOther (NAStr "abc") |} = Throws
  ∧ scanWorkflow {| nodes := NodesOther (NAObj []) |} = Throws.
Proof. by vm_compute. Qed.

(** C3, as the code has it.  For a node of a type read at index 0 for a
    category, the value at that index is included in the category, as its
    string, when it is a truthy scalar, and only truthy values are: every
    element of the category is the string of a truthy value at index 0 of a
    node of one of its types, or a name of the side channel.  The number
    [0], [false], [null] and the empty string are falsy. *)
Theorem positional_value_included_when_truthy (w : WorkflowJSON)
    (ns : list WorkflowNode) (r : ScanResult) (c : category) (T : string) :
  nodes w = NodesArray ns →
  scanWorkflow w = Returns r →
  T ∈ positional_sources c →
  (∀ n, n ∈ ns → type n = Some T →
        scalar (widget_value n 0) = true →
        ToBoolean (widget_value n 0) = true →
        ∃ s, ToString (widget_value n 0) = Returns s
             ∧ s ∈ get c (result_models r))
  ∧ (∀ s, s ∈ get c (result_models r) →
          (∃ T' n, T' ∈ positional_sources c ∧ n ∈ ns ∧ type n = Some T'
                   ∧ ToBoolean (widget_value n 0) = true
                   ∧ ToString (widget_value n 0) = Returns s)
          ∨ (∃ T' dir, (T', dir) ∈ property_sources c
                       ∧ side_channel ns T' dir s)).
Proof.
  intros Hns [_ Hb]%scanWorkflow_Returns HT. specialize (Hb c).
  split.
  - intros n Hn Hty Hsc Htr.
    destruct (ToString_truthy_scalar _ Hsc Htr) as (s & Hs & Hne).
    exists s. split; [done|].
    apply (built_elem_of w ns c _ s Hns Hb). split; [done|].
    left. exists T. split; [done|]. by exists n.
  - intros s Hs.
    apply (built_elem_of w ns c _ s Hns Hb) in Hs
      as [_ [(T' & HT' & n & Hn)|Hside]]; [left|by right].
    exists T', n. naive_solver.
Qed.

Lemma positional_value_included_when_truthy_witness :
  ∃ s, ToString (VNum 7) = Returns s ∧ s ∈ ["7"; "canny.pth"; "true"].
Proof.
  destruct (positional_value_included_when_truthy (graph scalar_widgets)
              scalar_widgets scalar_widgets_manifest ControlNet
              "ControlNetLoader" eq_refl) as [Hin _].
  - by vm_compute.
  - apply list_elem_of_here.
  - apply (Hin (loader "ControlNetLoader" [VNum 7]));
      [apply list_elem_of_here|reflexivity..].
Defined.

(** C3 as stated fails: the number [0] and the boolean [false] at index 0
    are present and are not the empty string, and the category stays
    empty. *)
Lemma zero_and_false_are_dropped :
  ∃ r, scanWorkflow (graph falsy_widgets) = Returns r
       ∧ upscale_models (result_models r) = []
       ∧ widget_value (loader "UpscaleModelLoader" [VNum 0]) 0 = VNum 0
       ∧ widget_value (loader "UpscaleModelLoader" [VBool false]) 0
         = VBool false
       ∧ ToString (VNum 0) = Returns "0"
       ∧ ToString (VBool false) = Returns "false".
Proof. exists empty_manifest. repeat split; by vm_compute. Qed.

(** C4.  Whatever the input, each of the thirteen categories of the
    manifest [scanWorkflow] returns is free of duplicates and sorted
    ascending for the comparison of strings by character codes.  And
    [scanWorkflow] does return a manifest on every array of nodes whose
    values at index 0 are scalars or absent. *)
Theorem categories_sorted_unique :
  (∀ (w : WorkflowJSON) (r : ScanResult) (c : category),
     scanWorkflow w = Returns r →
     NoDup (get c (result_models r))
     ∧ StronglySorted String.le (get c (result_models r)))
  ∧ (∀ ns : list WorkflowNode,
       (∀ n, n ∈ ns → scalar (widget_value n 0) = true
                      ∨ widget_value n 0 = VUndefined) →
       ∃ r, scanWorkflow (graph ns) = Returns r).
Proof.
  split.
  - intros w r c [_ Hb]%scanWorkflow_Returns.
    apply (built_sorted_unique w c), Hb.
  - intros ns H. apply scanWorkflow_returns.
    intros n Hn. by apply ToString_scalar, H.
Qed.

Lemma categories_sorted_unique_witness :
  NoDup ["a.safetensors"; "b.safetensors"]
  ∧ StronglySorted String.le ["a.safetensors"; "b.safetensors"].
Proof.
  apply (proj1 categories_sorted_unique (graph lora_graph) lora_manifest
           Loras).
  by vm_compute.
Defined.

(** C5.  No entry of the custom-nodes list [scanWorkflow] returns carries
    the identifier ["comfy-core"]: every entry is the projection of a node
    of the graph that passed the filter, under the identifier of that
    node, which is not the core one. *)
Theorem core_never_custom (w : WorkflowJSON) (r : ScanResult) (c : CustomNode) :
  scanWorkflow w = Returns r →
  c ∈ custom_nodes r →
  node c ≠ "comfy-core"
  ∧ ∃ ns n, nodes w = NodesArray ns ∧ n ∈ ns
            ∧ package_of n = Some (node c) ∧ c = custom_node_of n.
Proof.
  intros [Hc _]%scanWorkflow_Returns Hin.
  destruct (extractCustomNodes_from _ _ _ Hc Hin) as (ns & n & Hns & Hn & Hcu & ->).
  apply is_custom_spec in Hcu as (p & Hp & _ & Hcore).
  rewrite (custom_node_of_package _ _ Hp). simpl. split; [done|].
  exists ns, n. by rewrite (custom_node_of_package _ _ Hp) in *.
Qed.

Lemma core_never_custom_witness :
  "pack-x" ≠ "comfy-core"
  ∧ ∃ ns n, nodes (graph lora_graph) = NodesArray ns ∧ n ∈ ns
            ∧ package_of n = Some "pack-x"
            ∧ {| node := "pack-x"; version := "latest" |} = custom_node_of n.
Proof.
  apply (core_never_custom (graph lora_graph) lora_manifest
           {| node := "pack-x"; version := "latest" |}).
  - by vm_compute.
  - apply list_elem_of_here.
Defined.

(** C6.  The [vae] category is sorted and free of duplicates, and its
    elements are the non-empty strings of the two encodings: of the truthy
    values at index 0 of the [VAELoader] nodes, and of the names of the
    entries of [properties.models] of the [VAELoader] nodes whose directory
    is ["vae"].  A [VAELoader] node with ["v1.safetensors"] at index 0 and
    another with ["v2.safetensors"] in the side channel give
    [["v1.safetensors"; "v2.safetensors"]]. *)
Theorem vae_union_of_two_encodings :
  (∀ (w : WorkflowJSON) (ns : list WorkflowNode) (r : ScanResult),
     nodes w = NodesArray ns →
     scanWorkflow w = Returns r →
     NoDup (vae (result_models r))
     ∧ StronglySorted String.le (vae (result_models r))
     ∧ ∀ s, s ∈ vae (result_models r) ↔
            (positional ns "VAELoader" 0 s ∧ s ≠ "")
            ∨ side_channel ns "VAELoader" "vae" s)
  ∧ ∃ r, scanWorkflow (graph vae_graph) = Returns r
         ∧ vae (result_models r) = ["v1.safetensors"; "v2.safetensors"].
Proof.
  split; [|exists vae_manifest; split; by vm_compute].
  intros w ns r Hns [_ Hb]%scanWorkflow_Returns. specialize (Hb Vae).
  destruct (built_sorted_unique _ _ _ Hb) as [Hnd Hs].
  split; [done|]. split; [done|]. intros s.
  rewrite (built_elem_of w ns Vae _ s Hns Hb). simpl. split.
  - intros [Hne [(T & ->%list_elem_of_singleton & Hp)
                |(T & dir & [= -> ->]%list_elem_of_singleton & Hsc)]].
    + left. auto.
    + by right.
  - intros [[Hp Hne]|Hsc].
    + split; [done|]. left. exists "VAELoader".
      split; [apply list_elem_of_here|done].
    + split.
      * intros _. by destruct Hsc as (? & ? & ? & ? & ? & ? & ? & ? & ? & ? & ? & ?).
      * right. exists "VAELoader", "vae".
        split; [apply list_elem_of_here|done].
Qed.

Lemma vae_union_of_two_encodings_witness :
  NoDup ["v1.safetensors"; "v2.safetensors"]
  ∧ StronglySorted String.le ["v1.safetensors"; "v2.safetensors"]
  ∧ ∀ s, s ∈ ["v1.safetensors"; "v2.safetensors"] ↔
         (positional vae_graph "VAELoader" 0 s ∧ s ≠ "")
         ∨ side_channel vae_graph "VAELoader" "vae" s.
Proof.
  apply (proj1 vae_union_of_two_encodings (graph vae_graph) vae_graph
           vae_manifest).
  - reflexivity.
  - by vm_compute.
Defined.

(** C7.  The [checkpoints] category is sorted and free of duplicates, and
    its elements are the non-empty strings of the truthy values at index 0
    of the nodes of type [CheckpointLoaderSimple], [CheckpointLoader] or
    [LoadCheckpoint].  A node of one of these types with ["a.safetensors"]
    and a node of another of them with ["b.safetensors"] give
    [["a.safetensors"; "b.safetensors"]]. *)
Theorem checkpoints_union_of_aliases :
  (∀ (w : WorkflowJSON) (ns : list WorkflowNode) (r : ScanResult),
     nodes w = NodesArray ns →
     scanWorkflow w = Returns r →
     NoDup (checkpoints (result_models r))
     ∧ StronglySorted String.le (checkpoints (result_models r))
     ∧ ∀ s, s ∈ checkpoints (result_models r) ↔
            s ≠ ""
            ∧ ∃ T, T ∈ ["CheckpointLoaderSimple"; "CheckpointLoader";
                        "LoadCheckpoint"]
                   ∧ positional ns T 0 s)
  ∧ ∀ T1 T2,
      T1 ∈ ["CheckpointLoaderSimple"; "CheckpointLoader"; "LoadCheckpoint"] →
      T2 ∈ ["CheckpointLoaderSimple"; "CheckpointLoader"; "LoadCheckpoint"] →
      T1 ≠ T2 →
      ∃ r, scanWorkflow (graph (checkpoint_graph T1 T2)) = Returns r
           ∧ checkpoints (result_models r)
             = ["a.safetensors"; "b.safetensors"].
Proof.
  split.
  - intros w ns r Hns [_ Hb]%scanWorkflow_Returns. specialize (Hb Checkpoints).
    destruct (built_sorted_unique _ _ _ Hb) as [Hnd Hs].
    split; [done|]. split; [done|]. intros s.
    rewrite (built_elem_of w ns Checkpoints _ s Hns Hb). simpl. split.
    + intros [Hne [?|(T & dir & []%elem_of_nil & _)]]. auto.
    + intros [Hne ?]. auto.
  - intros T1 T2 H1 H2 Hne. exists checkpoint_manifest.
    repeat (apply elem_of_cons in H1 as [->|H1]);
      try (by apply elem_of_nil in H1);
      repeat (apply elem_of_cons in H2 as [->|H2]);
      try (by apply elem_of_nil in H2);
      try done; split; by vm_compute.
Qed.

Lemma checkpoints_union_of_aliases_witness :
  ∃ r, scanWorkflow
         (graph (checkpoint_graph "LoadCheckpoint" "CheckpointLoaderSimple"))
       = Returns r
       ∧ checkpoints (result_models r) = ["a.safetensors"; "b.safetensors"].
Proof.
  apply (proj2 checkpoints_union_of_aliases
           "LoadCheckpoint" "CheckpointLoaderSimple").
  - apply list_elem_of_further, list_elem_of_further, list_elem_of_here.
  - apply list_elem_of_here.
  - discriminate.
Defined.

(** C8.  [scanWorkflow] on a store of arrays.  When the store holds the
    graph [w] under the object given to [scanWorkflow], the call leaves
    every array that was in the store as it was and only adds arrays: the
    store still holds the graph [w].  What the caller sees (the manifest
    read in the store the call leaves, or the throw) is the value of the
    function [scanWorkflow] on [w]: the same for a second call on the store
    the first one leaves, the same for every call on every store that holds
    [w], and so is every serialization of it. *)
Theorem scanWorkflow_pure_projection (σ : store) (wo : WorkflowObject)
    (w : WorkflowJSON) (serialize : outcome ScanResult → string) :
  graph_at σ wo = Some w →
  ∃ σ', (scanWorkflowS wo σ).2 = σ'
        ∧ σ `prefix_of` σ'
        ∧ (∀ ℓ a, σ !! ℓ = Some a → σ' !! ℓ = Some a)
        ∧ graph_at σ' wo = Some w
        ∧ observed σ wo = Some (scanWorkflow w)
        ∧ observed σ' wo = observed σ wo
        ∧ ∀ σ2 wo2, graph_at σ2 wo2 = Some w →
                    observed σ2 wo2 = observed σ wo
                    ∧ serialize <$> observed σ2 wo2
                      = serialize <$> observed σ wo.
Proof.
  intros Hg. destruct (observed_refines _ _ _ Hg) as [Hpre Hobs].
  exists (scanWorkflowS wo σ).2. split; [done|]. split; [done|].
  split; [intros ℓ a Ha; by eapply prefix_lookup_Some|].
  pose proof (graph_at_prefix _ _ _ _ Hpre Hg) as Hg'.
  split; [done|]. split; [done|].
  rewrite Hobs. split; [by apply observed_refines|].
  intros σ2 wo2 Hg2. destruct (observed_refines _ _ _ Hg2) as [_ ->]. done.
Qed.

Lemma scanWorkflow_pure_projection_witness :
  ∃ σ', (scanWorkflowS vae_object vae_store).2 = σ'
        ∧ vae_store `prefix_of` σ'
        ∧ (∀ ℓ a, vae_store !! ℓ = Some a → σ' !! ℓ = Some a)
        ∧ graph_at σ' vae_object = Some (graph vae_graph)
        ∧ observed vae_store vae_object = Some (scanWorkflow (graph vae_graph))
        ∧ observed σ' vae_object = observed vae_store vae_object
        ∧ ∀ σ2 wo2, graph_at σ2 wo2 = Some (graph vae_graph) →
                    observed σ2 wo2 = observed vae_store vae_object
                    ∧ (λ _, "") <$> observed σ2 wo2
                      = (λ _, "") <$> observed vae_store vae_object.
Proof.
  apply (scanWorkflow_pure_projection vae_store vae_object (graph vae_graph)
           (λ _, "")).
  reflexivity.
Defined.

(** C9.  [scanWorkflow({})] and [scanWorkflow({nodes: []})] both return
    the manifest whose thirteen categories and whose custom-nodes list are
    empty. *)
Theorem scanWorkflow_empty_inputs :
  scanWorkflow {| nodes := NodesAbsent |} = Returns empty_manifest
  ∧ scanWorkflow {| nodes := NodesArray [] |} = Returns empty_manifest
  ∧ (∀ c, get c (result_models empty_manifest) = [])
  ∧ custom_nodes empty_manifest = [].
Proof. repeat split; try done. by intros []. Qed.




(** * Part VI.  The code around the scanner: properties *)

Lemma split_colon_cons (s : string) : ∃ part parts, split_colon s = part :: parts.
Proof.
  induction s as [|a s IH]; simpl; [by eexists _, _|].
  case_decide; [by eexists _, _|].
  destruct IH as (part & parts & ->). by eexists _, _.
Qed.

Lemma split_colon_free (s : string) : colon_free s = true → split_colon s = [s].
Proof.
  induction s as [|a s IH]; simpl; [done|].
  intros [Ha Hs]%andb_true_iff. apply negb_true_iff, bool_decide_eq_false in Ha.
  rewrite decide_False by done. by rewrite (IH Hs).
Qed.

Lemma split_colon_path (k model : string) :
  colon_free k = true →
  split_colon (modelPath k model) = k :: split_colon model.
Proof.
  unfold modelPath. induction k as [|a k IH]; simpl.
  - intros _. done.
  - intros [Ha Hk]%andb_true_iff.
    apply negb_true_iff, bool_decide_eq_false in Ha.
    change (String a k +:+ ":" +:+ model) with (String a (k +:+ ":" +:+ model)).
    simpl. rewrite decide_False by done. by rewrite (IH Hk).
Qed.

Lemma before_colon_free (s : string) : colon_free s = true → before_colon s = s.
Proof. intros H. unfold before_colon. by rewrite (split_colon_free _ H). Qed.

Lemma before_colon_spec (s : string) :
  colon_free (before_colon s) = true
  ∧ (before_colon s = s ∨ ∃ rest, s = before_colon s +:+ ":" +:+ rest).
Proof.
  unfold before_colon. induction s as [|a s [IH1 IH2]]; simpl; [by auto|].
  case_decide as Ha; simpl.
  - subst a. split; [done|]. right. by exists s.
  - destruct (split_colon_cons s) as (part & parts & Hs).
    rewrite Hs in *. simpl in *. rewrite IH1, andb_true_r.
    split; [by apply negb_true_iff, bool_decide_eq_false|].
    destruct IH2 as [->|[rest ->]]; [by left|]. right. by exists rest.
Qed.

Lemma key_name_colon_free (c : category) : colon_free (key_name c) = true.
Proof. by destruct c. Qed.

Lemma key_name_inj : Inj (=) (=) key_name.
Proof. intros [] [] H; by try discriminate H. Qed.

Lemma modelPath_inj (k1 k2 m1 m2 : string) :
  colon_free k1 = true → colon_free k2 = true →
  modelPath k1 m1 = modelPath k2 m2 → k1 = k2 ∧ m1 = m2.
Proof.
  intros H1 H2 Heq.
  pose proof (f_equal split_colon Heq) as Hs.
  rewrite !split_colon_path in Hs by done. injection Hs as -> _.
  split; [done|]. unfold modelPath in Heq.
  by apply (inj (String.app k2)), (inj (String.app ":")) in Heq.
Qed.

(** ** Counting *)

Lemma foldl_count_filter (l : list CategoryCount) (n : nat) :
  foldl (λ sum cat, sum + count cat) n (filter (λ item, 0 < count item) l)
  = foldl (λ sum cat, sum + count cat) n l.
Proof.
  revert n. induction l as [|item l IH]; intros n; [done|].
  destruct (decide (0 < count item)) as [H|H].
  - rewrite filter_cons_True by done. simpl. apply IH.
  - rewrite filter_cons_False by done. simpl. rewrite IH.
    f_equal. lia.
Qed.

Lemma foldl_count_sum (l : list CategoryCount) (n : nat) :
  foldl (λ sum cat, sum + count cat) n l = n + sum_list (count <$> l).
Proof.
  revert n. induction l as [|item l IH]; intros n; csimpl; [lia|].
  rewrite IH. lia.
Qed.

Lemma totalModels_getCategoriesWithModels (m : WorkflowModels) :
  totalModels (getCategoriesWithModels m) = getTotalModelCount m.
Proof.
  unfold totalModels, getCategoriesWithModels, getTotalModelCount.
  rewrite foldl_count_filter, foldl_count_sum, length_join.
  unfold Object_values. rewrite <- !list_fmap_compose. done.
Qed.

Lemma categoryMap_categories (label : string) (c : category) :
  categoryMap label = Some c ↔ (c, label) ∈ categories.
Proof.
  split.
  - unfold categoryMap. repeat case_decide; try discriminate;
      intros [= <-]; subst label; unfold categories;
      repeat first [apply list_elem_of_here | apply list_elem_of_further].
  - unfold categories. rewrite !elem_of_cons, elem_of_nil.
    intros H. repeat destruct H as [H|H]; try done;
      injection H as -> ->; reflexivity.
Qed.

Lemma elem_of_getCategoriesWithModels (m : WorkflowModels)
    (item : CategoryCount) :
  item ∈ getCategoriesWithModels m ↔
  ∃ c, (c, category_label item) ∈ categories
       ∧ count item = length (get c m) ∧ 0 < count item.
Proof.
  unfold getCategoriesWithModels.
  rewrite list_elem_of_filter, list_elem_of_fmap. split.
  - intros [Hpos ([c label] & -> & Hin)]. by exists c.
  - intros (c & Hin & Hc & Hpos). split; [done|].
    exists (c, category_label item). split; [|done].
    destruct item; simpl in *. by subst.
Qed.

Lemma categories_all (c : category) : ∃ label, (c, label) ∈ categories.
Proof.
  destruct c; eexists; unfold categories;
    repeat first [apply list_elem_of_here | apply list_elem_of_further].
Qed.

Lemma length_pos_ne_nil {A} (l : list A) : 0 < length l ↔ l ≠ [].
Proof. destruct l; simpl; split; (done || lia). Qed.

(** X1.  The total the results view shows, the sum of the counts of the
    categories [getCategoriesWithModels] lists, is the number
    [getTotalModelCount] gives: the categories left out hold no model.  It
    is the sum of [getModelCount] over the thirteen categories. *)
Theorem listed_counts_add_up (m : WorkflowModels) :
  totalModels (getCategoriesWithModels m) = getTotalModelCount m
  ∧ getTotalModelCount m
    = sum_list ((λ c, getModelCount (get c m)) <$> all_categories).
Proof.
  split; [apply totalModels_getCategoriesWithModels|].
  unfold getTotalModelCount, Object_values.
  by rewrite length_join, <- list_fmap_compose.
Qed.

(** X2.  [getCategoriesWithModels] lists no category exactly when every
    category of the manifest is empty, which is when [getTotalModelCount]
    is zero. *)
Theorem no_category_listed_iff_no_model (m : WorkflowModels) :
  (getCategoriesWithModels m = [] ↔ ∀ c, get c m = [])
  ∧ (getCategoriesWithModels m = [] ↔ getTotalModelCount m = 0).
Proof.
  assert (getCategoriesWithModels m = [] ↔ ∀ c, get c m = []) as H1.
  { split.
    - intros H c. destruct (categories_all c) as [label Hl].
      destruct (get c m) as [|x l] eqn:Hc; [done|]. exfalso.
      assert ({| category_label := label; count := length (get c m) |}
                ∈ getCategoriesWithModels m) as Hin.
      { apply elem_of_getCategoriesWithModels. exists c. simpl.
        rewrite Hc. simpl. repeat split; [done|lia]. }
      rewrite H in Hin. by apply elem_of_nil in Hin.
    - intros H. apply elem_of_nil_inv. intros item
        (c & _ & Hc & Hpos)%elem_of_getCategoriesWithModels.
      rewrite Hc, H in Hpos. simpl in Hpos. lia. }
  split; [done|]. rewrite H1.
  unfold getTotalModelCount, Object_values. rewrite length_zero_iff_nil.
  split.
  - intros H. induction all_categories as [|c l IH]; csimpl; [done|].
    by rewrite H, IH.
  - intros H c. destruct (get c m) as [|x l] eqn:Hc; [done|]. exfalso.
    assert (x ∈ mjoin ((λ c, get c m) <$> all_categories)) as Hin.
    { apply list_elem_of_join. exists (get c m). split; [rewrite Hc; left|].
      apply list_elem_of_fmap. exists c. split; [done|].
      destruct c; unfold all_categories;
        repeat first [apply list_elem_of_here | apply list_elem_of_further]. }
    rewrite H in Hin. by apply elem_of_nil in Hin.
Qed.

(** X3.  An item is listed by [getCategoriesWithModels] exactly when its
    label is the one of a category that is not empty and its count is the
    number of models of that category: the results view finds the key of
    every listed label in its [categoryMap], and the array under that key
    has [count] elements. *)
Theorem listed_category_lookup (m : WorkflowModels) (item : CategoryCount) :
  item ∈ getCategoriesWithModels m ↔
  ∃ categoryKey, categoryMap (category_label item) = Some categoryKey
       ∧ count item = getModelCount (get categoryKey m)
       ∧ get categoryKey m ≠ [].
Proof.
  rewrite elem_of_getCategoriesWithModels. unfold getModelCount.
  split; intros (c & Hl & Hc & Hpos); exists c.
  - rewrite categoryMap_categories. repeat split; [done..|].
    apply length_pos_ne_nil. by rewrite <- Hc.
  - apply categoryMap_categories in Hl. repeat split; [done..|].
    rewrite Hc. by apply length_pos_ne_nil.
Qed.

(** X4.  For a workflow with a [nodes] array, the category [c] is listed
    by [getCategoriesWithModels] on the result of [scanWorkflow] exactly
    when some node of the graph contributes a name to it: a truthy value at
    index 0 of a node of one of its types, or a named entry of
    [properties.models] with its directory (not the empty string, where
    the category is merged). *)
Theorem category_listed_iff_graph_contributes (w : WorkflowJSON)
    (ns : list WorkflowNode) (r : ScanResult) (c : category) :
  nodes w = NodesArray ns →
  scanWorkflow w = Returns r →
  (∃ item, item ∈ getCategoriesWithModels (result_models r)
           ∧ categoryMap (category_label item) = Some c)
  ↔ ∃ s, (merged c = true → s ≠ "")
         ∧ ((∃ T, T ∈ positional_sources c ∧ positional ns T 0 s)
            ∨ (∃ T dir, (T, dir) ∈ property_sources c
                        ∧ side_channel ns T dir s)).
Proof.
  intros Hns [_ Hb]%scanWorkflow_Returns. specialize (Hb c).
  pose proof (λ s, built_elem_of w ns c _ s Hns Hb) as Hin.
  assert (∀ c1 c2 label, (c1, label) ∈ categories → (c2, label) ∈ categories
            → c1 = c2) as Hfun.
  { intros c1 c2 label H1%categoryMap_categories H2%categoryMap_categories.
    congruence. }
  split.
  - intros (item & (c' & Hl & Hc & Hpos)%elem_of_getCategoriesWithModels
              & Hm%categoryMap_categories).
    assert (c' = c) as -> by eauto.
    rewrite Hc in Hpos.
    destruct (get c (result_models r)) as [|s l] eqn:Hg; simpl in Hpos; [lia|].
    exists s. apply Hin. left.
  - intros (s & Hs). apply Hin in Hs.
    destruct (categories_all c) as [label Hl].
    exists {| category_label := label;
              count := length (get c (result_models r)) |}. split.
    + apply elem_of_getCategoriesWithModels. exists c. simpl.
      repeat split; [done|]. apply length_pos_ne_nil. intros Hnil.
      rewrite Hnil in Hs. by apply elem_of_nil in Hs.
    + by apply categoryMap_categories.
Qed.

Lemma category_listed_iff_graph_contributes_witness :
  (∃ item, item ∈ getCategoriesWithModels (result_models flux_manifest)
           ∧ categoryMap (category_label item) = Some Vae)
  ↔ ∃ s, (merged Vae = true → s ≠ "")
         ∧ ((∃ T, T ∈ positional_sources Vae ∧ positional flux_graph T 0 s)
            ∨ (∃ T dir, (T, dir) ∈ property_sources Vae
                        ∧ side_channel flux_graph T dir s)).
Proof.
  apply (category_listed_iff_graph_contributes (graph flux_graph) flux_graph
           flux_manifest Vae); [reflexivity|by vm_compute].
Defined.

(** ** The set of required models *)

Lemma foldl_Set_add_NoDup (l acc : list string) :
  NoDup (acc ++ l) → foldl Set_add acc l = acc ++ l.
Proof.
  revert acc. induction l as [|x l IH]; intros acc H; simpl.
  - by rewrite app_nil_r.
  - rewrite cons_middle, app_assoc in H |- *.
    unfold Set_add at 2. rewrite decide_False; [by apply IH|].
    apply NoDup_app in H as [H _]. apply NoDup_app in H as (_ & H & _).
    intros Hx. apply (H x Hx). left.
Qed.

Lemma Array_from_Set_NoDup (l : list string) :
  NoDup l → Array_from_Set l = l.
Proof. intros H. by apply (foldl_Set_add_NoDup l []). Qed.

Lemma all_model_paths_eq (m : WorkflowModels) :
  all_model_paths m
  = mjoin ((λ c, modelPath (key_name c) <$> get c m) <$> all_categories).
Proof.
  unfold all_model_paths, Object_entries. by rewrite <- list_fmap_compose.
Qed.

Lemma elem_of_all_categories (c : category) : c ∈ all_categories.
Proof.
  destruct c; unfold all_categories;
    repeat first [apply list_elem_of_here | apply list_elem_of_further].
Qed.

Lemma NoDup_all_categories : NoDup all_categories.
Proof.
  apply (NoDup_fmap_1 key_name).
  by apply (bool_decide_unpack (NoDup (key_name <$> all_categories))).
Qed.

Lemma elem_of_all_model_paths (m : WorkflowModels) (x : string) :
  x ∈ all_model_paths m ↔
  ∃ c model, model ∈ get c m ∧ x = modelPath (key_name c) model.
Proof.
  rewrite all_model_paths_eq, list_elem_of_join. split.
  - intros (l & Hx & (c & -> & _)%list_elem_of_fmap).
    apply list_elem_of_fmap in Hx as (model & -> & Hm). by exists c, model.
  - intros (c & model & Hm & ->).
    exists (modelPath (key_name c) <$> get c m). split.
    + apply list_elem_of_fmap. by exists model.
    + apply list_elem_of_fmap. exists c. split; [done|].
      apply elem_of_all_categories.
Qed.

Lemma NoDup_join_fmap {A} (f : A → list string) (cs : list A) :
  NoDup cs → (∀ c, c ∈ cs → NoDup (f c)) →
  (∀ c1 c2 x, x ∈ f c1 → x ∈ f c2 → c1 = c2) →
  NoDup (mjoin (f <$> cs)).
Proof.
  intros Hcs Hf Hdisj. induction Hcs as [|c cs Hc Hcs IH]; csimpl.
  - apply NoDup_nil_2.
  - apply NoDup_app. split; [apply Hf; left|]. split.
    + intros x Hx (l & Hxl & (c' & -> & Hc')%list_elem_of_fmap)%list_elem_of_join.
      assert (c = c') as -> by eauto. done.
    + apply IH. intros c' Hc'. apply Hf. by right.
Qed.

Lemma NoDup_all_model_paths (m : WorkflowModels) :
  (∀ c, NoDup (get c m)) → NoDup (all_model_paths m).
Proof.
  intros H. rewrite all_model_paths_eq. apply NoDup_join_fmap.
  - apply NoDup_all_categories.
  - intros c _. apply NoDup_fmap_2; [|done].
    intros m1 m2 Heq.
    by apply modelPath_inj in Heq as [_ ?]; try apply key_name_colon_free.
  - intros c1 c2 x (m1 & -> & _)%list_elem_of_fmap
      (m2 & Heq & _)%list_elem_of_fmap.
    apply modelPath_inj in Heq as [Heq _]; try apply key_name_colon_free.
    by apply key_name_inj.
Qed.

Lemma length_all_model_paths (m : WorkflowModels) :
  length (all_model_paths m) = getTotalModelCount m.
Proof.
  rewrite all_model_paths_eq. unfold getTotalModelCount, Object_values.
  rewrite !length_join, <- !list_fmap_compose. f_equal.
  apply list_fmap_ext. intros _ c _. simpl. by rewrite length_fmap.
Qed.

Lemma split_colon_path_1 (c : category) (model : string) :
  split_colon (modelPath (key_name c) model) !! 1 = Some (before_colon model).
Proof.
  rewrite split_colon_path by apply key_name_colon_free. simpl.
  unfold before_colon.
  by destruct (split_colon_cons model) as (part & parts & ->).
Qed.

Lemma modelNames_all_model_paths (m : WorkflowModels) :
  modelNames (all_model_paths m)
  = (λ model, Some (before_colon model)) <$> mjoin (Object_values m).
Proof.
  rewrite all_model_paths_eq. unfold modelNames, Object_values.
  induction all_categories as [|c cs IH]; csimpl; [done|].
  rewrite !fmap_app, IH. f_equal.
  rewrite <- list_fmap_compose. apply list_fmap_ext.
  intros _ model _. simpl. apply split_colon_path_1.
Qed.

Lemma scanWorkflow_NoDup (w : WorkflowJSON) (r : ScanResult) (c : category) :
  scanWorkflow w = Returns r → NoDup (get c (result_models r)).
Proof.
  intros [_ Hb]%scanWorkflow_Returns.
  by destruct (built_sorted_unique _ _ _ (Hb c)).
Qed.

(** X5.  Splitting the path [`${category}:${model}`] of a category key at
    its colons gives the key first and, second, the part of the model name
    before its first colon.  That part is the whole name exactly when the
    name holds no colon; otherwise the name is cut at its first colon. *)
Theorem model_path_split (c : category) (model : string) :
  split_colon (modelPath (key_name c) model) !! 0 = Some (key_name c)
  ∧ split_colon (modelPath (key_name c) model) !! 1
    = Some (before_colon model)
  ∧ colon_free (before_colon model) = true
  ∧ (before_colon model = model
     ∨ ∃ rest, model = before_colon model +:+ ":" +:+ rest)
  ∧ (before_colon model = model ↔ colon_free model = true).
Proof.
  destruct (before_colon_spec model) as [Hfree Hor].
  split; [by rewrite split_colon_path by apply key_name_colon_free|].
  split; [apply split_colon_path_1|]. split; [done|]. split; [done|].
  split; [by intros <-|apply before_colon_free].
Qed.

(** X6.  On the result of [scanWorkflow], the set of required models the
    results view starts from holds one path for every model of every
    category, in the order of the categories: no two paths coincide, their
    number is [getTotalModelCount], and the path of a category and a name
    is in the set exactly when the name is in the category. *)
Theorem initial_required_models (w : WorkflowJSON) (r : ScanResult) :
  scanWorkflow w = Returns r →
  initialRequiredModels (result_models r) = all_model_paths (result_models r)
  ∧ length (initialRequiredModels (result_models r))
    = getTotalModelCount (result_models r)
  ∧ ∀ c model, modelPath (key_name c) model
                 ∈ initialRequiredModels (result_models r)
               ↔ model ∈ get c (result_models r).
Proof.
  intros H.
  assert (initialRequiredModels (result_models r)
          = all_model_paths (result_models r)) as Heq.
  { apply Array_from_Set_NoDup, NoDup_all_model_paths.
    intros c. by eapply scanWorkflow_NoDup. }
  split; [done|]. rewrite Heq. split; [apply length_all_model_paths|].
  intros c model. rewrite elem_of_all_model_paths. split.
  - intros (c' & model' & Hin & Hp).
    apply modelPath_inj in Hp as [Hk ->]; try apply key_name_colon_free.
    by apply key_name_inj in Hk as ->.
  - intros Hin. by exists c, model.
Qed.

Lemma initial_required_models_witness :
  initialRequiredModels (result_models flux_manifest)
  = all_model_paths (result_models flux_manifest)
  ∧ length (initialRequiredModels (result_models flux_manifest))
    = getTotalModelCount (result_models flux_manifest)
  ∧ ∀ c model, modelPath (key_name c) model
                 ∈ initialRequiredModels (result_models flux_manifest)
               ↔ model ∈ get c (result_models flux_manifest).
Proof.
  apply (initial_required_models (graph flux_graph) flux_manifest).
  by vm_compute.
Defined.

(** X7.  With the set of required models as the view initialises it, the
    names [handleUpload] hands to [onUpload] are the models of the manifest,
    category by category, each cut at its first colon. *)
Theorem default_required_names (w : WorkflowJSON) (r : ScanResult) :
  scanWorkflow w = Returns r →
  modelNames (initialRequiredModels (result_models r))
  = (λ model, Some (before_colon model))
      <$> mjoin (Object_values (result_models r)).
Proof.
  intros H. unfold initialRequiredModels.
  rewrite Array_from_Set_NoDup; [apply modelNames_all_model_paths|].
  apply NoDup_all_model_paths. intros c. by eapply scanWorkflow_NoDup.
Qed.

Lemma default_required_names_witness :
  modelNames (initialRequiredModels (result_models flux_manifest))
  = (λ model, Some (before_colon model))
      <$> mjoin (Object_values (result_models flux_manifest)).
Proof.
  apply (default_required_names (graph flux_graph) flux_manifest).
  by vm_compute.
Defined.

Lemma elem_of_Set_delete (s : list string) (x y : string) :
  y ∈ Set_delete s x ↔ y ≠ x ∧ y ∈ s.
Proof. unfold Set_delete. by rewrite list_elem_of_filter. Qed.

Lemma Set_delete_not_elem_of (s : list string) (x : string) :
  x ∉ s → Set_delete s x = s.
Proof.
  unfold Set_delete. induction s as [|y s IH]; [done|].
  intros [Hy Hs]%not_elem_of_cons.
  rewrite filter_cons_True by done. by rewrite IH.
Qed.

Lemma Set_delete_Permutation (s : list string) (x : string) :
  NoDup s → x ∈ s → Set_delete s x ++ [x] ≡ₚ s.
Proof.
  unfold Set_delete. induction 1 as [|y s Hy Hs IH].
  - by intros ?%elem_of_nil.
  - intros [->|Hx]%elem_of_cons.
    + rewrite filter_cons_False by naive_solver.
      fold (Set_delete s y). rewrite Set_delete_not_elem_of by done.
      by rewrite Permutation_app_comm.
    + rewrite filter_cons_True by (intros ->; done).
      simpl. by rewrite IH.
Qed.

(** X8.  [toggleRequiredModel] flips the membership of the given path and
    of no other one, and a set stays a set. *)
Theorem toggle_flips_one_path (prev : list string) (path : string) :
  NoDup prev →
  NoDup (toggleRequiredModel prev path)
  ∧ (path ∈ toggleRequiredModel prev path ↔ path ∉ prev)
  ∧ ∀ other, other ≠ path →
      (other ∈ toggleRequiredModel prev path ↔ other ∈ prev).
Proof.
  intros Hnd. unfold toggleRequiredModel, Set_add.
  destruct (decide (path ∈ prev)) as [Hin|Hin].
  - split; [by apply NoDup_filter|]. split.
    + rewrite elem_of_Set_delete. naive_solver.
    + intros other Ho. rewrite elem_of_Set_delete. naive_solver.
  - split.
    { apply NoDup_app. repeat split; [done| |apply NoDup_singleton].
      intros x Hx ->%list_elem_of_singleton. done. }
    split.
    + rewrite elem_of_app, list_elem_of_singleton. naive_solver.
    + intros other Ho. rewrite elem_of_app, list_elem_of_singleton.
      naive_solver.
Qed.

Lemma toggle_flips_one_path_witness :
  NoDup (toggleRequiredModel ["vae:a"; "loras:b"] "vae:a")
  ∧ ("vae:a" ∈ toggleRequiredModel ["vae:a"; "loras:b"] "vae:a"
     ↔ "vae:a" ∉ ["vae:a"; "loras:b"])
  ∧ ∀ other, other ≠ "vae:a" →
      (other ∈ toggleRequiredModel ["vae:a"; "loras:b"] "vae:a"
       ↔ other ∈ ["vae:a"; "loras:b"]).
Proof.
  apply (toggle_flips_one_path ["vae:a"; "loras:b"] "vae:a").
  by apply (bool_decide_unpack (NoDup ["vae:a"; "loras:b"])).
Defined.

(** X9.  Toggling the same path twice gives back the same set of required
    models; a path that was in the set moves to its end, and nothing else
    changes. *)
Theorem toggle_twice (prev : list string) (path : string) :
  NoDup prev →
  toggleRequiredModel (toggleRequiredModel prev path) path
  = (if decide (path ∈ prev) then Set_delete prev path ++ [path] else prev)
  ∧ toggleRequiredModel (toggleRequiredModel prev path) path ≡ₚ prev.
Proof.
  intros Hnd.
  assert (toggleRequiredModel (toggleRequiredModel prev path) path
    = if decide (path ∈ prev) then Set_delete prev path ++ [path] else prev)
    as Heq.
  { unfold toggleRequiredModel at 2. unfold Set_add.
    destruct (decide (path ∈ prev)) as [Hin|Hin].
    - unfold toggleRequiredModel, Set_add.
      assert (path ∉ Set_delete prev path) as Hout
        by (rewrite elem_of_Set_delete; naive_solver).
      by rewrite !decide_False by done.
    - unfold toggleRequiredModel, Set_add.
      rewrite decide_True by (apply elem_of_app; right; left).
      unfold Set_delete. rewrite filter_app.
      fold (Set_delete prev path). rewrite Set_delete_not_elem_of by done.
      rewrite filter_cons_False by naive_solver. by rewrite app_nil_r. }
  split; [done|]. rewrite Heq. case_decide; [|done].
  by apply Set_delete_Permutation.
Qed.

Lemma toggle_twice_witness :
  toggleRequiredModel (toggleRequiredModel ["vae:a"; "loras:b"] "vae:a")
    "vae:a"
  = (if decide ("vae:a" ∈ ["vae:a"; "loras:b"])
     then Set_delete ["vae:a"; "loras:b"] "vae:a" ++ ["vae:a"]
     else ["vae:a"; "loras:b"])
  ∧ toggleRequiredModel (toggleRequiredModel ["vae:a"; "loras:b"] "vae:a")
      "vae:a" ≡ₚ ["vae:a"; "loras:b"].
Proof.
  apply (toggle_twice ["vae:a"; "loras:b"] "vae:a").
  by apply (bool_decide_unpack (NoDup ["vae:a"; "loras:b"])).
Defined.

(** ** Availability *)

Lemma canUpload_Some (a : gmap string (gmap string bool))
    (requiredModels : list string) :
  canUpload (Some a) requiredModels = true ↔
  ∀ path, path ∈ requiredModels →
    known_missing a (split_colon path !! 0) (split_colon path !! 1) = false.
Proof.
  unfold canUpload, getMissingRequiredModels.
  rewrite bool_decide_eq_true, length_zero_iff_nil.
  induction requiredModels as [|q l IH]; csimpl.
  - split; [|done]. by intros _ path ?%elem_of_nil.
  - destruct (known_missing a _ _) eqn:Hq; simpl.
    + split; [done|]. intros H. rewrite H in Hq by left. done.
    + rewrite IH. split.
      * intros H path [->|?]%elem_of_cons; auto.
      * intros H path Hp. apply H. by right.
Qed.

Lemma elem_of_getMissingRequiredModels (a : gmap string (gmap string bool))
    (requiredModels : list string) (missing : option string) :
  missing ∈ getMissingRequiredModels (Some a) requiredModels ↔
  ∃ path, path ∈ requiredModels
          ∧ missing = split_colon path !! 1
          ∧ known_missing a (split_colon path !! 0) (split_colon path !! 1)
            = true.
Proof.
  unfold getMissingRequiredModels. rewrite list_elem_of_omap. split.
  - intros (path & Hin & H). exists path.
    destruct (known_missing a _ _); [|done]. by injection H as <-.
  - intros (path & Hin & -> & H). exists path. by rewrite H.
Qed.

Lemma known_missing_path (a : gmap string (gmap string bool)) (c : category)
    (model : string) :
  known_missing a (split_colon (modelPath (key_name c) model) !! 0)
    (split_colon (modelPath (key_name c) model) !! 1)
  = bool_decide (a !! key_name c ≫= (.!! before_colon model) = Some false).
Proof.
  rewrite split_colon_path_1.
  by rewrite split_colon_path by apply key_name_colon_free.
Qed.

(** X10.  [getMissingRequiredModels] lists the (cut) name of exactly the
    required models whose availability entry is [false]; a model without
    an entry, or with a category without one, is not listed.  So
    [canUpload] holds exactly when no required model is known to be
    missing, and always while the availability is [null]. *)
Theorem missing_required_models (a : gmap string (gmap string bool))
    (required : list (category * string)) :
  let requiredModels :=
    (λ cm, modelPath (key_name cm.1) cm.2) <$> required in
  (∀ missing, missing ∈ getMissingRequiredModels (Some a) requiredModels ↔
     ∃ c model, (c, model) ∈ required
       ∧ missing = Some (before_colon model)
       ∧ a !! key_name c ≫= (.!! before_colon model) = Some false)
  ∧ (canUpload (Some a) requiredModels = true ↔
     ∀ c model, (c, model) ∈ required →
       a !! key_name c ≫= (.!! before_colon model) ≠ Some false)
  ∧ getMissingRequiredModels None requiredModels = []
  ∧ canUpload None requiredModels = true.
Proof.
  intros requiredModels. split; [|split; [|done]].
  - intros missing. rewrite elem_of_getMissingRequiredModels. split.
    + intros (path & ([c model] & -> & Hin)%list_elem_of_fmap & -> & H).
      simpl in H. rewrite known_missing_path in H.
      apply bool_decide_eq_true in H. exists c, model.
      by rewrite split_colon_path_1.
    + intros (c & model & Hin & -> & H).
      exists (modelPath (key_name c) model). split.
      { apply list_elem_of_fmap. by exists (c, model). }
      rewrite known_missing_path, split_colon_path_1.
      split; [done|]. by apply bool_decide_eq_true.
  - rewrite canUpload_Some. split.
    + intros H c model Hin.
      specialize (H (modelPath (key_name c) model)).
      rewrite known_missing_path in H.
      eapply (proj1 (bool_decide_eq_false _)), H.
      apply list_elem_of_fmap. by exists (c, model).
    + intros H path ([c model] & -> & Hin)%list_elem_of_fmap. simpl.
      rewrite known_missing_path. apply bool_decide_eq_false. by apply H.
Qed.

(** X11.  When one required model is the only one known to be missing,
    unmarking it with [toggleRequiredModel] makes [canUpload] true. *)
Theorem unmarking_the_missing_model_allows_upload
    (a : gmap string (gmap string bool)) (required : list (category * string))
    (c : category) (model : string) :
  (c, model) ∈ required →
  (∀ c' model', (c', model') ∈ required → (c', model') ≠ (c, model) →
     a !! key_name c' ≫= (.!! before_colon model') ≠ Some false) →
  canUpload (Some a)
    (toggleRequiredModel
       ((λ cm, modelPath (key_name cm.1) cm.2) <$> required)
       (modelPath (key_name c) model)) = true.
Proof.
  intros Hin H. apply canUpload_Some. intros other.
  unfold toggleRequiredModel. rewrite decide_True
    by (apply list_elem_of_fmap; by exists (c, model)).
  rewrite elem_of_Set_delete.
  intros [Hne ([c' model'] & -> & Hin')%list_elem_of_fmap]. simpl in *.
  rewrite known_missing_path. apply bool_decide_eq_false, H; [done|].
  intros [= -> ->]. done.
Qed.

Lemma unmarking_the_missing_model_allows_upload_witness :
  canUpload (Some vae_missing)
    ["vae:ae.safetensors"; "loras:b.safetensors"; "clip:c.safetensors"]
  = false
  ∧ canUpload (Some vae_missing)
      (toggleRequiredModel
         ["vae:ae.safetensors"; "loras:b.safetensors"; "clip:c.safetensors"]
         "vae:ae.safetensors") = true.
Proof.
  split; [by vm_compute|].
  apply (unmarking_the_missing_model_allows_upload vae_missing
           [(Vae, "ae.safetensors"); (Loras, "b.safetensors");
            (Clip, "c.safetensors")] Vae "ae.safetensors");
    [apply list_elem_of_here|].
  intros c' model' Hin Hne.
  rewrite !elem_of_cons, elem_of_nil in Hin.
  destruct Hin as [?|[[= -> ->]|[[= -> ->]|[]]]]; [done|by vm_compute..].
Defined.

(** ** The drop zone and the page *)

Lemma nodes_check_passes (data : WorkflowJSON) :
  negb (nodes_truthy (nodes data)) || negb (Array_isArray (nodes data)) = false
  ↔ ∃ ns, data = graph ns.
Proof.
  split.
  - destruct data as [[|ns|x]]; simpl; [done|by exists ns|].
    by rewrite orb_true_r.
  - by intros [ns ->].
Qed.

Lemma handleFile_graph (file_name : string) (ns : list WorkflowNode)
    (st : Home) :
  endsWith file_name ".json" = true →
  handleFile handleFileProcessed file_name
    (reader_onload (Returns (PObject (graph ns)))) st
  = match scanWorkflow (graph ns) with
    | Throws =>
        (Some "Failed to parse JSON file. Please ensure it's a valid ComfyUI workflow.",
         st)
    | Returns r =>
        (None,
         {| scanResult := Some r;
            workflowData := Some (graph ns);
            workflowFileName := file_name;
            isUploading := isUploading st;
            uploadStatus := None;
            showDownloadLogs := showDownloadLogs st;
            uploadedWorkflowName := uploadedWorkflowName st |})
    end.
Proof.
  intros Hname. unfold handleFile, onload_try, handleFileProcessed.
  rewrite Hname. simpl. by destruct (scanWorkflow (graph ns)).
Qed.

Lemma handleFile_cases (file_name : string) (e : reader_event) (st : Home) :
  (∃ ns r, endsWith file_name ".json" = true
           ∧ e = reader_onload (Returns (PObject (graph ns)))
           ∧ scanWorkflow (graph ns) = Returns r)
  ∨ ∃ msg, handleFile handleFileProcessed file_name e st = (Some msg, st).
Proof.
  destruct (endsWith file_name ".json") eqn:Hname; cycle 1.
  { right. unfold handleFile. rewrite Hname. by eexists. }
  destruct e as [[[| |data]|]|]; try (right; unfold handleFile;
    rewrite Hname; simpl; by eexists).
  destruct (negb (nodes_truthy (nodes data))
            || negb (Array_isArray (nodes data))) eqn:Hcheck.
  { right. unfold handleFile, onload_try. rewrite Hname, Hcheck.
    by eexists. }
  apply nodes_check_passes in Hcheck as [ns ->].
  destruct (scanWorkflow (graph ns)) as [r|] eqn:Hscan.
  - left. by exists ns, r.
  - right. rewrite handleFile_graph, Hscan by done. by eexists.
Qed.


(** X12.  The drop zone ends without an error exactly when the file is
    named [*.json], its content parses to an object with an array of
    nodes, and [scanWorkflow] returns on it; the page then holds that
    result, the workflow and the file name, and has dropped its upload
    status.  In every other case the page is left as it was: so the
    guard [if (!workflow.nodes) return []] of the scanner is never taken
    on the page. *)
Theorem file_accepted_iff (file_name : string) (e : reader_event)
    (st st' : Home) :
  (handleFile handleFileProcessed file_name e st = (None, st') ↔
   endsWith file_name ".json" = true
   ∧ ∃ ns r, e = reader_onload (Returns (PObject (graph ns)))
       ∧ scanWorkflow (graph ns) = Returns r
       ∧ st' = {| scanResult := Some r;
                  workflowData := Some (graph ns);
                  workflowFileName := file_name;
                  isUploading := isUploading st;
                  uploadStatus := None;
                  showDownloadLogs := showDownloadLogs st;
                  uploadedWorkflowName := uploadedWorkflowName st |})
  ∧ ∀ msg, handleFile handleFileProcessed file_name e st = (Some msg, st') →
           st' = st.
Proof.
  destruct (handleFile_cases file_name e st)
    as [(ns & r & Hname & -> & Hscan)|[msg Hmsg]].
  - rewrite handleFile_graph, Hscan by done. split; [|done]. split.
    + intros [= <-]. split; [done|]. by exists ns, r.
    + intros (_ & ns' & r' & [= <-] & Hscan' & ->). congruence.
  - rewrite Hmsg. split; [|by intros ? [= _ <-]]. split; [done|].
    intros (Hname & ns & r & -> & Hscan & _).
    rewrite handleFile_graph, Hscan in Hmsg by done. done.
Qed.

(** X13.  The message that the JSON file failed to parse is shown exactly
    in three cases, for a file named [*.json]: [JSON.parse] throws; the
    content is [null]; or the content is a well-formed object with an
    array of nodes on which [scanWorkflow] throws. *)
Theorem parse_failure_message (file_name : string) (e : reader_event)
    (st : Home) :
  (handleFile handleFileProcessed file_name e st).1
  = Some "Failed to parse JSON file. Please ensure it's a valid ComfyUI workflow."
  ↔ endsWith file_name ".json" = true
    ∧ (e = reader_onload Throws
       ∨ e = reader_onload (Returns PNull)
       ∨ ∃ ns, e = reader_onload (Returns (PObject (graph ns)))
               ∧ scanWorkflow (graph ns) = Throws).
Proof.
  destruct (endsWith file_name ".json") eqn:Hname; cycle 1.
  { unfold handleFile. rewrite Hname. simpl. split; [done|]. by intros []. }
  destruct e as [[[| |data]|]|];
    try (unfold handleFile; rewrite Hname; simpl; naive_solver).
  destruct (negb (nodes_truthy (nodes data))
            || negb (Array_isArray (nodes data))) eqn:Hcheck.
  - unfold handleFile, onload_try. rewrite Hname, Hcheck. simpl.
    split; [done|]. intros (_ & [?|[?|(ns & [= ->] & _)]]); done.
  - apply nodes_check_passes in Hcheck as [ns ->].
    rewrite handleFile_graph by done.
    destruct (scanWorkflow (graph ns)) as [r|] eqn:Hscan; simpl.
    + split; [done|]. intros (_ & [?|[?|(ns' & [= <-] & ?)]]); congruence.
    + split; [|done]. intros _. split; [done|]. right. right. by exists ns.
Qed.



(** An array of nodes with a [null] in it, a [properties.models] that is
    no array and a [null] in [properties.models] do not follow the
    types. *)
Example content_outside_the_types :
  parsed_of (VObj [("nodes", VArr [VNull])]) = None
  ∧ parsed_of
      (VObj [("nodes",
              VArr [VObj [("type", VStr "VAELoader");
                          ("properties", VObj [("models", VNum 5)])]])])
    = None
  ∧ parsed_of
      (VObj [("nodes",
              VArr [VObj [("type", VStr "VAELoader");
                          ("properties", VObj [("models", VArr [VNull])])]])])
    = None.
Proof. repeat split; reflexivity. Qed.

Lemma endsWith_not_empty (s : string) : endsWith s ".json" = true → s ≠ "".
Proof. by intros H ->. Qed.

Lemma page_step_in_step (st : Home) (ev : page_event) :
  in_step st → in_step (page_step st ev).
Proof.
  intros Hst. destruct ev as [file_name e| |success']; simpl.
  - destruct (handleFile_cases file_name e st)
      as [(ns & r & Hname & -> & Hscan)|[msg ->]]; [|done].
    rewrite handleFile_graph, Hscan by done. unfold in_step. simpl.
    by exists ns.
  - done.
  - done.
Qed.

Lemma foldl_page_step_in_step (events : list page_event) (st : Home) :
  in_step st → in_step (foldl page_step st events).
Proof.
  revert st. induction events as [|ev events IH]; intros st Hst; [done|].
  simpl. by apply IH, page_step_in_step.
Qed.

(** X15.  Whatever files are given to the drop zone, and however the page
    is reset and downloads end, the page stays in step: the scan result it
    holds is the one [scanWorkflow] returns for the workflow it holds,
    which has an array of nodes and came from a file named [*.json]; and
    [handleUpload] goes on to post exactly when there is a scan result. *)
Theorem page_stays_in_step (events : list page_event) :
  in_step (foldl page_step Home_initial events)
  ∧ handleUpload_posts (foldl page_step Home_initial events)
    = bool_decide (is_Some (scanResult (foldl page_step Home_initial events))).
Proof.
  assert (in_step (foldl page_step Home_initial events)) as H
    by by apply foldl_page_step_in_step.
  split; [done|]. unfold handleUpload_posts.
  destruct (foldl page_step Home_initial events) as [[r|] d f ????];
    unfold in_step in H; simpl in *.
  - destruct H as (ns & -> & _ & Hf). simpl.
    apply endsWith_not_empty in Hf. by destruct f.
  - done.
Qed.

(** ** The upload route *)

Lemma field_Map_set (m : list (string * value)) (k k' : string) (v : value) :
  field (VObj (Map_set m k v)) k'
  = if decide (k' = k) then Returns v else field (VObj m) k'.
Proof.
  unfold field. induction m as [|[k0 v0] m IH]; simpl.
  - rewrite (decide_ext _ (k' = k)) by naive_solver.
    destruct (decide (k' = k)); [by subst|done].
  - destruct (decide (k0 = k)) as [->|Hne]; simpl.
    + destruct (decide (k = k')) as [<-|Hne']; simpl.
      * by rewrite decide_True.
      * rewrite decide_False by done. done.
    + destruct (decide (k0 = k')) as [->|Hne']; simpl.
      * by rewrite decide_False.
      * destruct (decide (k' = k)) as [->|Hk].
        -- destruct (list_find _ (Map_set m k v)) as [[??]|] eqn:H1; simpl in *.
           ++ by injection IH as ->.
           ++ done.
        -- destruct (list_find _ (Map_set m k v)) as [[??]|] eqn:H1,
             (list_find _ m) as [[??]|] eqn:H2; simpl in *; congruence.
Qed.

Section upload_facts.
Context (bucket : option string).
Implicit Types (body o s w f r : value) (responses : nat → outcome output).

Lemma validated_negb o s w f :
  negb (ToBoolean o) || negb (ToBoolean s) || negb (ToBoolean w)
  || negb (ToBoolean f) = negb (validated o s w f).
Proof.
  unfold validated.
  by destruct (ToBoolean o), (ToBoolean s), (ToBoolean w), (ToBoolean f).
Qed.

Lemma run_POST_rejected body responses :
  run (POST bucket (Returns body)) responses 0
  = match destructure body with
    | Throws => ([], Failed)
    | Returns (o, s, w, f, r) =>
        if validated o s w f
        then run (POST bucket (Returns body)) responses 0
        else ([], MissingFields)
    end.
Proof.
  unfold POST, POST_try.
  destruct (destructure body) as [[[[[o s] w] f] r]|]; [|done].
  rewrite validated_negb. by destruct (validated o s w f).
Qed.

Lemma run_POST_validated body o s w f r responses :
  destructure body = Returns (o, s, w, f, r) →
  validated o s w f = true →
  run (POST bucket (Returns body)) responses 0
  = match ToString o with
    | Throws => ([], Failed)
    | Returns name' =>
        let list :=
          ListObjectsV2Command (BUCKET_NAME bucket) (folder name') 1 in
        if folder_exists (responses 0) then ([list], FolderExists)
        else
          match ToString f with
          | Throws => ([list], Failed)
          | Returns file =>
              let put := PutObjectCommand (BUCKET_NAME bucket)
                           (folder name' +:+ file) w "application/json" in
              let put' := PutObjectCommand (BUCKET_NAME bucket)
                            (folder name' +:+ "wf-scan-result.json")
                            (updatedScanResult s r) "application/json" in
              match responses 1, responses 2 with
              | Throws, _ => ([list; put], Failed)
              | Returns _, Throws => ([list; put; put'], Failed)
              | Returns _, Returns _ =>
                  ([list; put; put'],
                   Uploaded
                     ("s3://" +:+ BUCKET_NAME bucket +:+ "/" +:+ folder name')
                     [folder name' +:+ file;
                      folder name' +:+ "wf-scan-result.json"])
              end
          end
    end.
Proof.
  intros Hd Hv. unfold POST, POST_try. rewrite Hd, validated_negb, Hv. simpl.
  destruct (ToString o) as [name'|]; [|done]. simpl.
  destruct (folder_exists (responses 0)); [done|].
  destruct (ToString f) as [file|]; [|done]. simpl.
  destruct (responses 1); [|done]. simpl.
  by destruct (responses 2).
Qed.

End upload_facts.

Lemma folder_exists_false (listResponse : outcome output) :
  folder_exists listResponse = false ↔
  listResponse = Throws
  ∨ listResponse = Returns {| Contents := None |}
  ∨ listResponse = Returns {| Contents := Some [] |}.
Proof.
  destruct listResponse as [[[[|c cs]|]]|]; simpl; naive_solver.
Qed.

Lemma folder_exists_true (listResponse : outcome output) :
  folder_exists listResponse = true ↔
  ∃ c cs, listResponse = Returns {| Contents := Some (c :: cs) |}.
Proof.
  destruct listResponse as [[[[|c cs]|]]|]; simpl; naive_solver.
Qed.

Lemma status_code_inv (r : reply) :
  (status_code r = 400 ↔ r = MissingFields)
  ∧ (status_code r = 409 ↔ r = FolderExists)
  ∧ (status_code r = 500 ↔ r = Failed).
Proof. destruct r; simpl; repeat split; (done || lia). Qed.

(** X16.  [POST] replies 400 exactly when the body is not [null] and one
    of [outputName], [scanResult], [workflowData], [workflowFileName] is
    falsy, an absent one included; no command is sent to the object store
    then. *)
Theorem missing_fields_rejected (bucket : option string) (body : value)
    (responses : nat → outcome output) :
  (status_code (run (POST bucket (Returns body)) responses 0).2 = 400 ↔
   ∃ o s w f r, destructure body = Returns (o, s, w, f, r)
     ∧ (ToBoolean o = false ∨ ToBoolean s = false
        ∨ ToBoolean w = false ∨ ToBoolean f = false))
  ∧ (status_code (run (POST bucket (Returns body)) responses 0).2 = 400 →
     (run (POST bucket (Returns body)) responses 0).1 = []).
Proof.
  rewrite !(proj1 (status_code_inv _)). rewrite run_POST_rejected.
  destruct (destructure body) as [[[[[o s] w] f] r]|] eqn:Hd; cycle 1.
  { simpl. split; [|done]. split; [done|]. by intros (?&?&?&?&?&?&?). }
  destruct (validated o s w f) eqn:Hv; cycle 1.
  { simpl. split; [|done]. split; [|done]. intros _. exists o, s, w, f, r.
    split; [done|]. unfold validated in Hv.
    destruct (ToBoolean o), (ToBoolean s), (ToBoolean w), (ToBoolean f);
      naive_solver. }
  assert ((run (POST bucket (Returns body)) responses 0).2 ≠ MissingFields)
    as Hne.
  { rewrite (run_POST_validated _ _ _ _ _ _ _ _ Hd Hv).
    destruct (ToString o); simpl; [|done].
    destruct (folder_exists _); [done|].
    destruct (ToString f); simpl; [|done].
    by destruct (responses 1), (responses 2). }
  split; [|done]. split; [done|].
  intros (o' & s' & w' & f' & r' & [= <- <- <- <- <-] & H).
  unfold validated in Hv.
  destruct (ToBoolean o), (ToBoolean s), (ToBoolean w), (ToBoolean f);
    naive_solver.
Qed.

(** X17.  Whatever the request and the object store's answers: before any
    [PutObjectCommand], the four fields were truthy and the folder
    [workflows/<outputName>/] was listed first, without the answer showing
    an object in it.  The put goes to the configured bucket, as JSON, under
    that folder: the workflow data under the file name, or the updated
    scan result under [wf-scan-result.json]. *)
Theorem writes_only_into_checked_folder (bucket : option string)
    (request_json : outcome value) (responses : nat → outcome output)
    (B K : string) (stored : value) (T : string) :
  PutObjectCommand B K stored T
    ∈ (run (POST bucket request_json) responses 0).1 →
  ∃ body o s w f r name',
    request_json = Returns body
    ∧ destructure body = Returns (o, s, w, f, r)
    ∧ validated o s w f = true
    ∧ ToString o = Returns name'
    ∧ (run (POST bucket request_json) responses 0).1 !! 0
      = Some (ListObjectsV2Command (BUCKET_NAME bucket) (folder name') 1)
    ∧ folder_exists (responses 0) = false
    ∧ B = BUCKET_NAME bucket
    ∧ T = "application/json"
    ∧ ∃ file, K = folder name' +:+ file
        ∧ ((stored = w ∧ ToString f = Returns file)
           ∨ (stored = updatedScanResult s r
              ∧ file = "wf-scan-result.json")).
Proof.
  destruct request_json as [body|]; [|by intros ?%elem_of_nil].
  rewrite run_POST_rejected.
  destruct (destructure body) as [[[[[o s] w] f] r]|] eqn:Hd;
    [|by intros ?%elem_of_nil].
  destruct (validated o s w f) eqn:Hv; [|by intros ?%elem_of_nil].
  rewrite (run_POST_validated _ _ _ _ _ _ _ _ Hd Hv).
  destruct (ToString o) as [name'|] eqn:Ho; [|by intros ?%elem_of_nil].
  simpl. destruct (folder_exists (responses 0)) eqn:He.
  { simpl. rewrite list_elem_of_singleton. done. }
  destruct (ToString f) as [file|] eqn:Hf.
  2: { simpl. rewrite list_elem_of_singleton. done. }
  intros Hin. exists body, o, s, w, f, r, name'.
  do 4 (split; [done|]).
  split; [by destruct (responses 1), (responses 2)|]. split; [done|].
  assert (PutObjectCommand B K stored T
            ∈ [PutObjectCommand (BUCKET_NAME bucket) (folder name' +:+ file) w
                 "application/json";
               PutObjectCommand (BUCKET_NAME bucket)
                 (folder name' +:+ "wf-scan-result.json")
                 (updatedScanResult s r) "application/json"]) as Hin'.
  { destruct (responses 1), (responses 2); simpl in Hin;
      rewrite ?elem_of_cons, ?elem_of_nil in Hin;
      rewrite ?elem_of_cons, ?elem_of_nil; naive_solver. }
  rewrite !elem_of_cons, elem_of_nil in Hin'.
  destruct Hin' as [[= -> -> -> ->]|[[= -> -> -> ->]|[]]].
  - do 2 (split; [done|]). exists file. split; [done|]. by left.
  - do 2 (split; [done|]). exists "wf-scan-result.json". split; [done|].
    by right.
Qed.

Lemma writes_only_into_checked_folder_witness :
  ∃ body o s w f r name',
    Returns flux_request = Returns body
    ∧ destructure body = Returns (o, s, w, f, r)
    ∧ validated o s w f = true
    ∧ ToString o = Returns name'
    ∧ (run (POST None (Returns flux_request)) empty_store 0).1 !! 0
      = Some (ListObjectsV2Command (BUCKET_NAME None) (folder name') 1)
    ∧ folder_exists (empty_store 0) = false
    ∧ "konama-storage" = BUCKET_NAME None
    ∧ "application/json" = "application/json"
    ∧ ∃ file, "workflows/flux/flux.json" = folder name' +:+ file
        ∧ ((VObj [("nodes", VArr [])] = w ∧ ToString f = Returns file)
           ∨ (VObj [("nodes", VArr [])] = updatedScanResult s r
              ∧ file = "wf-scan-result.json")).
Proof.
  apply (writes_only_into_checked_folder None (Returns flux_request)
           empty_store).
  vm_compute. apply list_elem_of_further, list_elem_of_here.
Defined.

(** X18.  [POST] replies with success exactly when the four fields are
    truthy, the output name and the file name have a string, the listing
    failed or showed nothing, and both puts were accepted.  Exactly three
    commands were sent then, the listing and the two puts, and the reply
    names the folder and the two keys. *)
Theorem upload_succeeds_iff (bucket : option string) (body o s w f r : value)
    (responses : nat → outcome output) (location : string)
    (files : list string) :
  destructure body = Returns (o, s, w, f, r) →
  (run (POST bucket (Returns body)) responses 0).2 = Uploaded location files
  ↔ validated o s w f = true
    ∧ ∃ name' file,
        ToString o = Returns name' ∧ ToString f = Returns file
        ∧ (responses 0 = Throws
           ∨ responses 0 = Returns {| Contents := None |}
           ∨ responses 0 = Returns {| Contents := Some [] |})
        ∧ responses 1 ≠ Throws ∧ responses 2 ≠ Throws
        ∧ location = "s3://" +:+ BUCKET_NAME bucket +:+ "/" +:+ folder name'
        ∧ files = [folder name' +:+ file;
                   folder name' +:+ "wf-scan-result.json"]
        ∧ (run (POST bucket (Returns body)) responses 0).1
          = [ListObjectsV2Command (BUCKET_NAME bucket) (folder name') 1;
             PutObjectCommand (BUCKET_NAME bucket) (folder name' +:+ file) w
               "application/json";
             PutObjectCommand (BUCKET_NAME bucket)
               (folder name' +:+ "wf-scan-result.json")
               (updatedScanResult s r) "application/json"].
Proof.
  intros Hd. rewrite run_POST_rejected, Hd.
  destruct (validated o s w f) eqn:Hv; [|simpl; naive_solver].
  rewrite (run_POST_validated _ _ _ _ _ _ _ _ Hd Hv).
  destruct (ToString o) as [name'|] eqn:Ho; [|simpl; naive_solver]. simpl.
  destruct (folder_exists (responses 0)) eqn:He.
  { simpl. split; [done|]. intros (_ & ? & ? & [= <-] & _ & He' & _).
    apply folder_exists_false in He'. congruence. }
  apply folder_exists_false in He.
  destruct (ToString f) as [file|] eqn:Hf; [|simpl; naive_solver].
  destruct (responses 1) as [?|] eqn:H1; [|simpl; naive_solver].
  destruct (responses 2) as [?|] eqn:H2; [|simpl; naive_solver]. simpl.
  split.
  - intros [= <- <-]. split; [done|]. by exists name', file.
  - by intros (_ & ? & ? & [= <-] & [= <-] & _ & _ & _ & -> & -> & _).
Qed.

Lemma upload_succeeds_iff_witness :
  (run (POST None (Returns flux_request)) empty_store 0).2
  = Uploaded "s3://konama-storage/workflows/flux/"
      ["workflows/flux/flux.json"; "workflows/flux/wf-scan-result.json"]
  ↔ validated (VStr "flux")
      (VObj [("models", VObj []); ("custom-nodes", VArr [])])
      (VObj [("nodes", VArr [])]) (VStr "flux.json") = true
    ∧ ∃ name' file,
        ToString (VStr "flux") = Returns name'
        ∧ ToString (VStr "flux.json") = Returns file
        ∧ (empty_store 0 = Throws
           ∨ empty_store 0 = Returns {| Contents := None |}
           ∨ empty_store 0 = Returns {| Contents := Some [] |})
        ∧ empty_store 1 ≠ Throws ∧ empty_store 2 ≠ Throws
        ∧ "s3://konama-storage/workflows/flux/"
          = "s3://" +:+ BUCKET_NAME None +:+ "/" +:+ folder name'
        ∧ ["workflows/flux/flux.json"; "workflows/flux/wf-scan-result.json"]
          = [folder name' +:+ file; folder name' +:+ "wf-scan-result.json"]
        ∧ (run (POST None (Returns flux_request)) empty_store 0).1
          = [ListObjectsV2Command (BUCKET_NAME None) (folder name') 1;
             PutObjectCommand (BUCKET_NAME None) (folder name' +:+ file)
               (VObj [("nodes", VArr [])]) "application/json";
             PutObjectCommand (BUCKET_NAME None)
               (folder name' +:+ "wf-scan-result.json")
               (updatedScanResult
                  (VObj [("models", VObj []); ("custom-nodes", VArr [])])
                  (VArr [VStr "ae.safetensors"])) "application/json"].
Proof.
  apply (upload_succeeds_iff None flux_request). reflexivity.
Defined.

(** X19.  [POST] replies 409 exactly when the four fields are truthy, the
    output name has a string and the listing shows an object in the
    folder; the listing is the only command sent then. *)
Theorem existing_folder_conflict (bucket : option string)
    (body o s w f r : value) (responses : nat → outcome output) :
  destructure body = Returns (o, s, w, f, r) →
  (status_code (run (POST bucket (Returns body)) responses 0).2 = 409
   ↔ validated o s w f = true
     ∧ ToString o ≠ Throws
     ∧ ∃ c cs, responses 0 = Returns {| Contents := Some (c :: cs) |})
  ∧ (status_code (run (POST bucket (Returns body)) responses 0).2 = 409 →
     ∃ name', ToString o = Returns name'
       ∧ (run (POST bucket (Returns body)) responses 0).1
         = [ListObjectsV2Command (BUCKET_NAME bucket) (folder name') 1]).
Proof.
  intros Hd. rewrite !(proj1 (proj2 (status_code_inv _))).
  rewrite run_POST_rejected, Hd.
  destruct (validated o s w f) eqn:Hv; [|simpl; naive_solver].
  rewrite (run_POST_validated _ _ _ _ _ _ _ _ Hd Hv).
  destruct (ToString o) as [name'|] eqn:Ho; [|simpl; naive_solver]. simpl.
  destruct (folder_exists (responses 0)) eqn:He.
  { apply folder_exists_true in He as (c & cs & He). simpl.
    split; [|by exists name']. split; [|done]. intros _.
    split; [done|]. split; [done|]. by exists c, cs. }
  assert (¬ ∃ c cs, responses 0 = Returns {| Contents := Some (c :: cs) |})
    as Hno.
  { intros H%folder_exists_true. congruence. }
  destruct (ToString f) as [file|] eqn:Hf; [|simpl; naive_solver].
  destruct (responses 1) as [?|] eqn:H1; [|simpl; naive_solver].
  destruct (responses 2) as [?|] eqn:H2; simpl; naive_solver.
Qed.

Lemma existing_folder_conflict_witness :
  (status_code (run (POST None (Returns flux_request)) empty_store 0).2 = 409
   ↔ validated (VStr "flux")
       (VObj [("models", VObj []); ("custom-nodes", VArr [])])
       (VObj [("nodes", VArr [])]) (VStr "flux.json") = true
     ∧ ToString (VStr "flux") ≠ Throws
     ∧ ∃ c cs, empty_store 0 = Returns {| Contents := Some (c :: cs) |})
  ∧ (status_code (run (POST None (Returns flux_request)) empty_store 0).2
     = 409 →
     ∃ name', ToString (VStr "flux") = Returns name'
       ∧ (run (POST None (Returns flux_request)) empty_store 0).1
         = [ListObjectsV2Command (BUCKET_NAME None) (folder name') 1]).
Proof.
  apply (existing_folder_conflict None flux_request
           (VStr "flux")
           (VObj [("models", VObj []); ("custom-nodes", VArr [])])
           (VObj [("nodes", VArr [])]) (VStr "flux.json")
           (VArr [VStr "ae.safetensors"])).
  reflexivity.
Defined.

(** X20.  [POST] replies 500 after the object store accepted the workflow
    file exactly when the second put, the one of the scan result, is
    rejected: the failure reply does not mean that nothing was stored. *)
Theorem failure_after_stored_workflow (bucket : option string)
    (body o s w f r : value) (responses : nat → outcome output) :
  destructure body = Returns (o, s, w, f, r) →
  (status_code (run (POST bucket (Returns body)) responses 0).2 = 500
   ∧ (∃ B K stored T,
        (run (POST bucket (Returns body)) responses 0).1 !! 1
        = Some (PutObjectCommand B K stored T))
   ∧ responses 1 ≠ Throws)
  ↔ validated o s w f = true
    ∧ ToString o ≠ Throws ∧ ToString f ≠ Throws
    ∧ folder_exists (responses 0) = false
    ∧ responses 1 ≠ Throws ∧ responses 2 = Throws.
Proof.
  intros Hd. rewrite !(proj2 (proj2 (status_code_inv _))).
  rewrite run_POST_rejected, Hd.
  destruct (validated o s w f) eqn:Hv; [|simpl; naive_solver].
  rewrite (run_POST_validated _ _ _ _ _ _ _ _ Hd Hv).
  destruct (ToString o) as [name'|] eqn:Ho; [|simpl; naive_solver]. simpl.
  destruct (folder_exists (responses 0)) eqn:He; [simpl; naive_solver|].
  destruct (ToString f) as [file|] eqn:Hf; [|simpl; naive_solver].
  destruct (responses 1) as [?|] eqn:H1; [|simpl; naive_solver].
  destruct (responses 2) as [?|] eqn:H2; simpl; naive_solver.
Qed.

Lemma failure_after_stored_workflow_witness :
  (status_code (run (POST None (Returns flux_request)) third_rejected 0).2
   = 500
   ∧ (∃ B K stored T,
        (run (POST None (Returns flux_request)) third_rejected 0).1 !! 1
        = Some (PutObjectCommand B K stored T))
   ∧ third_rejected 1 ≠ Throws)
  ↔ validated (VStr "flux")
      (VObj [("models", VObj []); ("custom-nodes", VArr [])])
      (VObj [("nodes", VArr [])]) (VStr "flux.json") = true
    ∧ ToString (VStr "flux") ≠ Throws ∧ ToString (VStr "flux.json") ≠ Throws
    ∧ folder_exists (third_rejected 0) = false
    ∧ third_rejected 1 ≠ Throws ∧ third_rejected 2 = Throws.
Proof.
  apply (failure_after_stored_workflow None flux_request
           (VStr "flux")
           (VObj [("models", VObj []); ("custom-nodes", VArr [])])
           (VObj [("nodes", VArr [])]) (VStr "flux.json")
           (VArr [VStr "ae.safetensors"]) third_rejected).
  reflexivity.
Defined.

(** X21.  The scan result [POST] stores, for an object [scanResult]:
    [required_models] holds the [requiredModels] of the request, or the
    empty array when that is falsy; every other property is the one of
    [scanResult]; the properties keep their order, a new [required_models]
    coming last and one that [scanResult] had being replaced in place. *)
Theorem updated_scan_result_fields (fields : list (string * value))
    (requiredModels : value) :
  field (updatedScanResult (VObj fields) requiredModels) "required_models"
  = Returns (if ToBoolean requiredModels then requiredModels else VArr [])
  ∧ (∀ k, k ≠ "required_models" →
       field (updatedScanResult (VObj fields) requiredModels) k
       = field (VObj fields) k)
  ∧ (own_properties (updatedScanResult (VObj fields) requiredModels)).*1
    = if decide ("required_models" ∈ fields.*1) then fields.*1
      else fields.*1 ++ ["required_models"].
Proof.
  unfold updatedScanResult. split; [|split].
  - by rewrite field_Map_set, decide_True.
  - intros k Hk. by rewrite field_Map_set, decide_False.
  - apply Map_set_keys.
Qed.

(** X22.  In a successful upload, the two puts go to the two keys the reply
    lists, and those are the same key exactly when the file name is
    [wf-scan-result.json]: the scan result then overwrites the workflow
    file. *)
Theorem scan_result_key_collision (bucket : option string)
    (body o s w f r : value) (responses : nat → outcome output)
    (location : string) (files : list string) :
  destructure body = Returns (o, s, w, f, r) →
  (run (POST bucket (Returns body)) responses 0).2 = Uploaded location files →
  ∃ workflowKey scanResultKey stored stored' B T,
    files = [workflowKey; scanResultKey]
    ∧ (run (POST bucket (Returns body)) responses 0).1 !! 1
      = Some (PutObjectCommand B workflowKey stored T)
    ∧ (run (POST bucket (Returns body)) responses 0).1 !! 2
      = Some (PutObjectCommand B scanResultKey stored' T)
    ∧ (workflowKey = scanResultKey
       ↔ ToString f = Returns "wf-scan-result.json").
Proof.
  intros Hd. rewrite run_POST_rejected, Hd.
  destruct (validated o s w f) eqn:Hv; [|done].
  rewrite (run_POST_validated _ _ _ _ _ _ _ _ Hd Hv).
  destruct (ToString o) as [name'|] eqn:Ho; [|done]. simpl.
  destruct (folder_exists (responses 0)) eqn:He; [done|].
  destruct (ToString f) as [file|] eqn:Hf; [|done].
  destruct (responses 1) as [?|] eqn:H1; [|done].
  destruct (responses 2) as [?|] eqn:H2; [|done]. simpl.
  intros [= <- <-]. do 6 eexists. do 3 (split; [done|]).
  split; [by intros ->%(inj (String.app _))|by intros [= ->]].
Qed.

Lemma scan_result_key_collision_witness :
  ∃ workflowKey scanResultKey stored stored' B T,
    ["workflows/flux/wf-scan-result.json";
     "workflows/flux/wf-scan-result.json"] = [workflowKey; scanResultKey]
    ∧ (run (POST None (Returns collision_request)) empty_store 0).1 !! 1
      = Some (PutObjectCommand B workflowKey stored T)
    ∧ (run (POST None (Returns collision_request)) empty_store 0).1 !! 2
      = Some (PutObjectCommand B scanResultKey stored' T)
    ∧ (workflowKey = scanResultKey
       ↔ ToString (VStr "wf-scan-result.json")
         = Returns "wf-scan-result.json").
Proof.
  apply (scan_result_key_collision None collision_request (VStr "flux")
           (VObj [("models", VObj [])]) (VObj [("nodes", VArr [])])
           (VStr "wf-scan-result.json") VUndefined empty_store
           "s3://konama-storage/workflows/flux/");
    reflexivity.
Defined.

(** ** The downloader route *)

Lemma closed_step (st : Stream) (ev : stream_event) :
  isClosed st = true →
  isClosed (stream_step st ev) = true
  ∧ enqueued (stream_step st ev) = enqueued st.
Proof.
  intros H. destruct ev; simpl; unfold safeEnqueue; rewrite ?H; try done.
  by destruct (timeouts st).
Qed.

Lemma closed_frozen (events : list stream_event) (st : Stream) :
  isClosed st = true →
  enqueued (foldl stream_step st events) = enqueued st.
Proof.
  revert st. induction events as [|ev events IH]; intros st H; [done|].
  destruct (closed_step st ev H) as [H1 H2]. simpl. by rewrite IH.
Qed.

Lemma unreadable_step (st : Stream) (ev : stream_event) :
  readable st = false →
  readable (stream_step st ev) = false
  ∧ enqueued (stream_step st ev) = enqueued st.
Proof.
  intros H.
  destruct ev; simpl; unfold safeEnqueue, close_later; simpl;
    destruct (isClosed st) eqn:Hc; simpl; rewrite ?H; simpl; try done;
    by destruct (timeouts st).
Qed.

Lemma unreadable_frozen (events : list stream_event) (st : Stream) :
  readable st = false →
  enqueued (foldl stream_step st events) = enqueued st.
Proof.
  revert st. induction events as [|ev events IH]; intros st H; [done|].
  destruct (unreadable_step st ev H) as [H1 H2]. simpl. by rewrite IH.
Qed.

Lemma terminator_closes (st : Stream) (ev : stream_event) :
  (∃ c, ev = process_close c) ∨ (∃ m, ev = process_error m) →
  isClosed (stream_step st ev) = true.
Proof.
  intros [[c ->]|[m ->]]; simpl; by destruct (isClosed st) eqn:H.
Qed.

Lemma live_step (st : Stream) (ev : stream_event) :
  live st →
  match ev with
  | stdout_data m =>
      live (stream_step st ev)
      ∧ enqueued (stream_step st ev) = enqueued st ++ [message_entry "log" m]
  | stderr_data m =>
      live (stream_step st ev)
      ∧ enqueued (stream_step st ev)
        = enqueued st ++ [message_entry "error" m]
  | timeout => stream_step st ev = st
  | process_close c =>
      isClosed (stream_step st ev) = true
      ∧ enqueued (stream_step st ev)
        = enqueued st ++ [final_entry c; done_entry c]
  | process_error m =>
      isClosed (stream_step st ev) = true
      ∧ enqueued (stream_step st ev)
        = enqueued st
          ++ [message_entry "error" ("Error spawning process: " +:+ m +:+ LF)]
  | cancel =>
      readable (stream_step st ev) = false
      ∧ enqueued (stream_step st ev) = enqueued st
  end.
Proof.
  intros (Hc & Hr & Ht).
  destruct ev; simpl; unfold safeEnqueue, close_later, live; simpl;
    rewrite ?Hc, ?Hr, ?Ht; simpl; rewrite ?Hc, ?Hr, ?Ht; simpl;
    rewrite <- ?(assoc_L (++)); done.
Qed.

Lemma ends_with_code_cons (ev : stream_event) (events : list stream_event)
    (c : option Z) :
  ends_with_code (ev :: events) c ↔
  ev = process_close c ∨ (quiet ev ∧ ends_with_code events c).
Proof.
  unfold ends_with_code. split.
  - intros ([|ev' pre] & post & Heq & Hq); simplify_eq/=; [by left|].
    apply Forall_cons in Hq as [??]. right. split; [done|]. by exists pre, post.
  - intros [->|[Hq (pre & post & -> & Hpre)]].
    + by exists [], events.
    + exists (ev :: pre), post. split; [done|]. by apply Forall_cons.
Qed.

Lemma final_entry_type (c : option Z) :
  entry_type (final_entry c)
  = Some (if decide (c = Some 0%Z) then "success" else "error").
Proof. unfold final_entry. by case_decide. Qed.

Lemma done_after_live (events : list stream_event) (st : Stream)
    (c : option Z) :
  live st → (∀ c', done_entry c' ∉ enqueued st) →
  done_entry c ∈ enqueued (foldl stream_step st events)
  ↔ ends_with_code events c.
Proof.
  revert st. induction events as [|ev events IH]; intros st Hlive Hno.
  { simpl. split; [by intros ?%Hno|].
    by intros ([|??] & ? & ? & _). }
  rewrite ends_with_code_cons. simpl.
  pose proof (live_step st ev Hlive) as Hstep.
  destruct ev as [m|m|c'|m| |]; simpl in Hstep |- *.
  - destruct Hstep as [Hlive' Henq]. rewrite IH; [naive_solver|done|].
    intros c''. rewrite Henq, elem_of_app, list_elem_of_singleton.
    intros [?%Hno|?]; done.
  - destruct Hstep as [Hlive' Henq]. rewrite IH; [naive_solver|done|].
    intros c''. rewrite Henq, elem_of_app, list_elem_of_singleton.
    intros [?%Hno|?]; done.
  - destruct Hstep as [Hclosed Henq].
    rewrite (closed_frozen events _ Hclosed), Henq.
    rewrite elem_of_app, !elem_of_cons, elem_of_nil. split.
    + intros [?%Hno|[Hf|[[= ->]|[]]]]; [done| |by left].
      pose proof (final_entry_type c') as Ht. rewrite <- Hf in Ht.
      simpl in Ht. by case_decide.
    + intros [[= ->]|[[] _]]. right. right. by left.
  - destruct Hstep as [Hclosed Henq].
    rewrite (closed_frozen events _ Hclosed), Henq.
    rewrite elem_of_app, list_elem_of_singleton. split.
    + intros [?%Hno|?]; done.
    + intros [?|[[] _]]; done.
  - assert (timeouts st = 0) as Ht by apply Hlive.
    destruct (timeouts st) eqn:Ht'; [|done].
    specialize (IH st Hlive Hno).
    split; [intros H; right; tauto|intros [?|[_ ?]]; [done|tauto]].
  - destruct Hstep as [Hr Henq].
    rewrite (unreadable_frozen events
               {| isClosed := isClosed st; readable := false;
                  timeouts := timeouts st; enqueued := enqueued st |} eq_refl).
    simpl. split.
    + by intros ?%Hno.
    + intros [?|[[] _]]; done.
Qed.

Lemma well_formed_step (initial : list LogEntry) (st : Stream)
    (ev : stream_event) :
  well_formed initial st → well_formed initial (stream_step st ev).
Proof.
  intros (body & tail & Henq & Hbody & Htail & Hopen).
  destruct (isClosed st) eqn:Hc.
  { destruct (closed_step st ev Hc) as [Hc' Henq'].
    exists body, tail. rewrite Henq', Hc'. done. }
  destruct (Hopen eq_refl) as [-> Ht]. rewrite app_nil_r in Henq.
  destruct (readable st) eqn:Hr; cycle 1.
  { destruct (unreadable_step st ev Hr) as [Hr' Henq'].
    exists body, []. rewrite Henq', app_nil_r.
    do 2 (split; [done|]). split; [by left|]. intros Hc'. split; [done|].
    destruct ev; simpl in *; unfold safeEnqueue, close_later in *;
      rewrite ?Hc, ?Hr in *; simpl in *; try done.
    by rewrite Ht. }
  pose proof (live_step st ev (conj Hc (conj Hr Ht))) as Hstep.
  assert (∀ T m, T = "log" ∨ T = "error" → output_entry (message_entry T m))
    as Hout.
  { intros T m [-> | ->]; (split; [auto|by eexists]). }
  destruct ev as [m|m|c'|m| |]; simpl in Hstep |- *.
  - destruct Hstep as [(Hc' & _ & Ht') Henq'].
    exists (body ++ [message_entry "log" m]), [].
    rewrite Henq', Henq, app_nil_r, (assoc_L (++)).
    split; [done|]. split; [|by auto].
    apply Forall_app. split; [done|]. apply Forall_singleton. auto.
  - destruct Hstep as [(Hc' & _ & Ht') Henq'].
    exists (body ++ [message_entry "error" m]), [].
    rewrite Henq', Henq, app_nil_r, (assoc_L (++)).
    split; [done|]. split; [|by auto].
    apply Forall_app. split; [done|]. apply Forall_singleton. auto.
  - destruct Hstep as [Hc' Henq'].
    exists body, [final_entry c'; done_entry c'].
    rewrite Henq', Henq, Hc', (assoc_L (++)).
    do 2 (split; [done|]). split; [right; by exists c'|done].
  - destruct Hstep as [Hc' Henq'].
    exists (body ++ [message_entry "error"
                       ("Error spawning process: " +:+ m +:+ LF)]), [].
    rewrite Henq', Henq, Hc', app_nil_r, (assoc_L (++)).
    split; [done|]. split; [|by auto].
    apply Forall_app. split; [done|]. apply Forall_singleton. auto.
  - destruct (timeouts st) eqn:Ht'; [|done].
    exists body, []. rewrite Henq, app_nil_r. by auto.
  - exists body, []. simpl. rewrite Henq, app_nil_r.
    do 2 (split; [done|]). split; [by left|]. by intros _.
Qed.

Lemma well_formed_run (initial : list LogEntry) (events : list stream_event)
    (st : Stream) :
  well_formed initial st → well_formed initial (foldl stream_step st events).
Proof.
  revert st. induction events as [|ev events IH]; intros st H; [done|].
  simpl. by apply IH, well_formed_step.
Qed.

Lemma well_formed_start (workflowName scriptPath : string) :
  well_formed (enqueued (start workflowName scriptPath))
    (start workflowName scriptPath).
Proof. exists [], []. rewrite !app_nil_r. by auto. Qed.

(** X23.  [GET] replies 400 exactly when [workflowName] is absent or empty.
    Otherwise, whatever happens to the script and the client, the stream
    holds the two initial messages, then lines of output ([log] and
    [error] entries), then nothing more or the final pair: the message of
    success and [done] with the exit code 0, or the message of failure
    with the exit code and [done] with that code.  So [done] is sent at
    most once, and last. *)
Theorem stream_shape (workflowName : option string) (scriptPath : string)
    (events : list stream_event) :
  match GET workflowName scriptPath events with
  | MissingWorkflowName => workflowName = None ∨ workflowName = Some ""
  | EventStream entries =>
      ∃ name' body tail,
        workflowName = Some name' ∧ name' ≠ ""
        ∧ entries
          = [message_entry "log"
               ("🚀 Starting download process for workflow: " +:+ name'
                +:+ LF);
             message_entry "log" ("📂 Script: " +:+ scriptPath +:+ LF)]
            ++ body ++ tail
        ∧ Forall output_entry body
        ∧ (tail = []
           ∨ tail = [message_entry "success"
                       ("✅ Download process completed successfully!" +:+ LF);
                     done_entry (Some 0%Z)]
           ∨ ∃ c, c ≠ Some 0%Z
               ∧ tail = [message_entry "error"
                           ("❌ Download process failed with exit code: "
                            +:+ code_string c +:+ LF);
                         done_entry c])
  end.
Proof.
  unfold GET. destruct workflowName as [[|a name']|]; simpl; [by right| |by left].
  destruct (well_formed_run _ events _
              (well_formed_start (String a name') scriptPath))
    as (body & tail & Henq & Hbody & Htail & _).
  exists (String a name'), body, tail. do 2 (split; [done|]).
  split; [done|]. split; [done|].
  destruct Htail as [->|[c ->]]; [by left|]. right.
  unfold final_entry. case_decide as Hc; [left; by subst|right; by exists c].
Qed.

(** X24.  [done] with the exit code [c] is on the stream exactly when the
    script ended with [c] while the stream was open: no spawn error and
    no disconnect of the client came before.  After a spawn error, no
    [done] is ever sent. *)
Theorem done_sent_iff (workflowName scriptPath : string)
    (events : list stream_event) (c : option Z) :
  done_entry c
    ∈ enqueued (foldl stream_step (start workflowName scriptPath) events)
  ↔ ∃ pre post, events = pre ++ process_close c :: post ∧ Forall quiet pre.
Proof.
  apply done_after_live; [done|]. intros c'. unfold start, safeEnqueue. simpl.
  rewrite !elem_of_cons, elem_of_nil. by intros [?|[?|[]]].
Qed.

(** X25.  What the script writes after its end, or after an error of the
    spawn, is not sent; nor is anything once the client has gone away. *)
Theorem nothing_after_the_end (workflowName scriptPath : string)
    (pre post : list stream_event) :
  (∀ c, enqueued (foldl stream_step (start workflowName scriptPath)
                    (pre ++ process_close c :: post))
        = enqueued (foldl stream_step (start workflowName scriptPath)
                      (pre ++ [process_close c])))
  ∧ (∀ m, enqueued (foldl stream_step (start workflowName scriptPath)
                      (pre ++ process_error m :: post))
          = enqueued (foldl stream_step (start workflowName scriptPath)
                        (pre ++ [process_error m])))
  ∧ enqueued (foldl stream_step (start workflowName scriptPath)
                (pre ++ cancel :: post))
    = enqueued (foldl stream_step (start workflowName scriptPath) pre).
Proof.
  split; [|split].
  - intros c. rewrite !foldl_app.
    apply (closed_frozen post
             (stream_step _ (process_close c))), terminator_closes.
    left. by exists c.
  - intros m. rewrite !foldl_app.
    apply (closed_frozen post
             (stream_step _ (process_error m))), terminator_closes.
    right. by exists m.
  - rewrite foldl_app.
    apply (unreadable_frozen post
             (stream_step
                (foldl stream_step (start workflowName scriptPath) pre)
                cancel) eq_refl).
Qed.

(** ** The log view *)

(** What holds of the log view at every moment. *)
Lemma source_step_invariant (st : DownloadLogs) (ev : source_event) :
  let good st :=
    (hasCompleted st = false ∧ completions st = [] ∧ isRunning st = true
     ∧ exitCode st = None)
    ∨ (hasCompleted st = true ∧ isRunning st = false
       ∧ eventSourceRef st = false
       ∧ completions st = [bool_decide (exitCode st = Some 0%Z)]) in
  good st → good (source_step st ev).
Proof.
  intros good H. destruct st as [l r e c s comps]. unfold good in *.
  simpl in *.
  destruct H as [(-> & -> & -> & ->)|(-> & -> & -> & ->)];
    destruct ev as [[data|]|closed]; simpl;
    repeat case_decide; simpl;
    try destruct (truthy_string _); try destruct s; try destruct closed;
    simpl in *; try congruence; auto 10.
Qed.

Lemma source_run_invariant (events : list source_event) (st : DownloadLogs) :
  let good st :=
    (hasCompleted st = false ∧ completions st = [] ∧ isRunning st = true
     ∧ exitCode st = None)
    ∨ (hasCompleted st = true ∧ isRunning st = false
       ∧ eventSourceRef st = false
       ∧ completions st = [bool_decide (exitCode st = Some 0%Z)]) in
  good st → good (foldl source_step st events).
Proof.
  intros good. revert st.
  induction events as [|ev events IH]; intros st H; [done|].
  simpl. apply IH. by apply source_step_invariant.
Qed.

(** X26.  Whatever messages and errors the event source delivers, the log
    view calls [onComplete] at most once, exactly when it stops showing
    the run as going on; it does so with [true] exactly when the exit code
    it holds is 0; and it has let go of the source by then. *)
Theorem onComplete_at_most_once (events : list source_event) :
  let st := foldl source_step DownloadLogs_initial events in
  length (completions st) ≤ 1
  ∧ (length (completions st) = 1 ↔ hasCompleted st = true)
  ∧ isRunning st = negb (hasCompleted st)
  ∧ (completions st = [true] ↔ exitCode st = Some 0%Z)
  ∧ (hasCompleted st = true → eventSourceRef st = false).
Proof.
  intros st.
  destruct (source_run_invariant events DownloadLogs_initial)
    as [(Hc & Hl & Hr & He)|(Hc & Hr & Hs & Hl)]; [by left|..];
    fold st in Hc, Hl, Hr |- *.
  - fold st in He. rewrite Hc, Hl, Hr, He. simpl. naive_solver lia.
  - fold st in Hs. rewrite Hc, Hl, Hr, Hs. simpl.
    split; [lia|]. split; [done|]. split; [done|]. split; [|done].
    split.
    + intros [= H]. by apply bool_decide_eq_true in H.
    + intros H. by rewrite bool_decide_true.
Qed.

Lemma source_run_output (body : list LogEntry) (st : DownloadLogs) :
  Forall (λ e, entry_type e ≠ Some "done") body →
  foldl source_step st (onmessage ∘ Returns <$> body)
  = {| logs := logs st ++ shown body;
       isRunning := isRunning st;
       exitCode := exitCode st;
       hasCompleted := hasCompleted st;
       eventSourceRef := eventSourceRef st;
       completions := completions st |}.
Proof.
  unfold shown. intros H. revert st.
  induction H as [|e body He Hbody IH]; intros st; csimpl.
  - rewrite app_nil_r. by destruct st.
  - rewrite decide_False by done.
    destruct (entry_message e) as [m|] eqn:Hm; simpl.
    + destruct (String.eqb m "") eqn:Hempty; simpl.
      * apply String.eqb_eq in Hempty as ->.
        rewrite filter_cons_False by naive_solver. apply IH.
      * apply String.eqb_neq in Hempty.
        rewrite filter_cons_True by done. rewrite IH. simpl.
        by rewrite <- (assoc_L (++)).
    + apply IH.
Qed.

Lemma output_entry_not_done (e : LogEntry) :
  output_entry e → entry_type e ≠ Some "done".
Proof. intros [[H|H] _]; rewrite H; done. Qed.

Lemma enqueued_cases (workflowName scriptPath : string)
    (events : list stream_event) :
  ∃ body,
    Forall (λ e, entry_type e ≠ Some "done") body
    ∧ (enqueued (foldl stream_step (start workflowName scriptPath) events)
       = body
       ∨ ∃ c, enqueued (foldl stream_step (start workflowName scriptPath)
                          events)
              = body ++ [done_entry c]).
Proof.
  destruct (well_formed_run _ events _
              (well_formed_start workflowName scriptPath))
    as (body & tail & Henq & Hbody & Htail & _).
  assert (Forall (λ e, entry_type e ≠ Some "done")
            (enqueued (start workflowName scriptPath) ++ body)) as Hnot.
  { apply Forall_app. split; [by repeat constructor|].
    eapply Forall_impl; [done|]. apply output_entry_not_done. }
  destruct Htail as [->|[c ->]].
  - eexists. split; [done|]. left. by rewrite Henq, app_nil_r.
  - exists ((enqueued (start workflowName scriptPath) ++ body)
            ++ [final_entry c]). split.
    + apply Forall_app. split; [done|]. apply Forall_singleton.
      rewrite final_entry_type. by case_decide.
    + right. exists c. rewrite Henq. by rewrite <- !(assoc_L (++)).
Qed.

Lemma shown_app (l k : list LogEntry) : shown (l ++ k) = shown l ++ shown k.
Proof. unfold shown. by rewrite omap_app, filter_app. Qed.

(** X27.  When the log view receives what the route has put on the stream,
    it shows every non-empty message in order, and it calls [onComplete]
    exactly if the script has ended on an open stream: once, with [true]
    exactly for the exit code 0, and it holds that exit code. *)
Theorem view_follows_script (workflowName scriptPath : string)
    (events : list stream_event) :
  let sent :=
    enqueued (foldl stream_step (start workflowName scriptPath) events) in
  let st :=
    foldl source_step DownloadLogs_initial (onmessage ∘ Returns <$> sent) in
  logs st = shown sent
  ∧ (∀ b, completions st = [b] ↔
          ∃ c, ends_with_code events c ∧ b = bool_decide (c = Some 0%Z))
  ∧ (completions st = [] ↔ ∀ c, ¬ ends_with_code events c)
  ∧ (∀ c, ends_with_code events c → exitCode st = c ∧ isRunning st = false).
Proof.
  intros sent st.
  assert (∀ c, ends_with_code events c ↔ done_entry c ∈ sent) as Hends.
  { intros c. symmetry. apply done_after_live; [done|].
    intros c'. unfold start, safeEnqueue. simpl.
    rewrite !elem_of_cons, elem_of_nil. by intros [?|[?|[]]]. }
  destruct (enqueued_cases workflowName scriptPath events)
    as (body & Hbody & [Hsent|[c Hsent]]); fold sent in Hsent.
  - assert (∀ c, ¬ ends_with_code events c) as Hno.
    { intros c [i Hi]%Hends%list_elem_of_lookup. rewrite Hsent in Hi.
      by apply (Forall_lookup_1 _ _ _ _ Hbody) in Hi. }
    unfold st. rewrite Hsent, source_run_output by done. simpl.
    split; [done|]. split; [|split].
    + intros b. split; [done|]. by intros (c & ?%Hno & _).
    + done.
    + by intros c ?%Hno.
  - assert (∀ c', ends_with_code events c' ↔ c' = c) as Hc.
    { intros c'. rewrite Hends, Hsent, elem_of_app, list_elem_of_singleton.
      split; [|intros ->; by right].
      intros [[i Hi]%list_elem_of_lookup|[= ->]]; [|done].
      by apply (Forall_lookup_1 _ _ _ _ Hbody) in Hi. }
    unfold st. rewrite Hsent, fmap_app, foldl_app.
    rewrite (source_run_output body) by done.
    simpl. split; [by rewrite shown_app, app_nil_r|]. split; [|split].
    + intros b. split.
      * intros [= <-]. exists c. by rewrite Hc.
      * intros (c' & ->%Hc & ->). done.
    + split; [done|]. intros H. by destruct (H c); apply Hc.
    + by intros c' ->%Hc.
Qed.
